(** * Identifiai log-grouping core: normalizer, waterfall, checkpointed ingestion

    The TypeScript function [normalizeErrorPattern] (frontend utility
    "Log Normalizer") is a pipeline of global regular-expression
    replacements.  It is embedded here together with the part of the
    ECMAScript regular-expression semantics it relies on: a backtracking
    matcher with greedy quantifiers, capture groups, lookahead, [\b] and
    [$], and [String.prototype.replace] with the [g] flag.

    The status selectors of the React views are lists of option labels.
    The waterfall classifier and the checkpointed scanner belong to the
    Python back end (log_grouper.py), which is documented in
    docs/Grouping.md but is not among the sources; they are modelled
    from the specification.

    The other logic of the same source files is embedded as well: the
    API configuration, the parser of rule sequences and the parser of
    diagnosis reports of the inspection modal (with [split], [trim],
    [test] and the [i] flag), the selection, the search and the status
    changes of the grouping studio, and the columns and the sorting of
    the dashboard.

    The file has three parts: the program, the notions used in the
    statements and the proofs, and the lemmas and theorems. *)

From Stdlib Require Import NArith ZArith List Bool Ascii String Lia.

From stdpp Require Import base option list gmap.

Import ListNotations.

Local Open Scope N_scope.

Local Open Scope list_scope.

(** * The program *)

(** ** Strings *)

(** A JavaScript string is a sequence of UTF-16 code units. *)
Definition char : Type := N.

Definition jsstring : Type := list char.

Definition code (a : ascii) : char := N_of_ascii a.

(** [str "abc"] is the JavaScript string literal ['abc'] (ASCII text). *)
Definition str (s : string) : jsstring := map code (list_ascii_of_string s).

(** [ch "a"] is the code unit of a one-character literal. *)
Definition ch (s : string) : char :=
  match s with
  | String a _ => code a
  | EmptyString => 0
  end.

Definition in_range (lo hi c : char) : bool := (lo <=? c) && (c <=? hi).

(** ** Regular expressions *)

Module Regex.

(** Members of a bracketed class. *)
Inductive citem : Type :=
| CChar (c : char)            (* a single character *)
| CRange (lo hi : char)       (* lo-hi *)
| CDigit                      (* \d *)
| CSpace.                     (* \s *)

Inductive regex : Type :=
| REmpty                                            (* (?:) *)
| RChar (c : char)                                  (* a literal character *)
| RClass (neg : bool) (items : list citem)          (* [...] and [^...] *)
| RSeq (r1 r2 : regex)                              (* r1r2 *)
| RAlt (r1 r2 : regex)                              (* r1|r2 *)
| RRep (min : nat) (max : option nat) (r : regex)   (* greedy r{min,max} *)
| RGroup (i : nat) (r : regex)                      (* i-th capturing (...) *)
| RLook (positive : bool) (r : regex)               (* (?=r) and (?!r) *)
| RWordB                                            (* \b *)
| REnd.                                             (* $ without the m flag *)

(** ECMAScript WhiteSpace and LineTerminator code points. *)
Definition is_space (c : char) : bool :=
  in_range 9 13 c || (c =? 32) || (c =? 160) || (c =? 5760)
  || in_range 8192 8202 c || (c =? 8232) || (c =? 8233) || (c =? 8239)
  || (c =? 8287) || (c =? 12288) || (c =? 65279).

Definition is_digit (c : char) : bool := in_range 48 57 c.

(** IsWordChar: [A-Za-z0-9_]. *)
Definition is_word (c : char) : bool :=
  in_range 97 122 c || in_range 65 90 c || in_range 48 57 c || (c =? 95).

Definition item_mem (c : char) (it : citem) : bool :=
  match it with
  | CChar x => c =? x
  | CRange lo hi => in_range lo hi c
  | CDigit => is_digit c
  | CSpace => is_space c
  end.

Definition class_mem (neg : bool) (items : list citem) (c : char) : bool :=
  xorb neg (existsb (item_mem c) items).

(** Matcher state: the code unit just before the current position (for
    [\b]), the input still to be read, and the captures made so far. *)
Record mstate : Type := MState {
  prev : option char;
  rest : jsstring;
  caps : list (nat * jsstring)
}.

Definition eat (c : char) (t : jsstring) (st : mstate) : mstate :=
  {| prev := Some c; rest := t; caps := caps st |}.

Definition opt_word (o : option char) : bool :=
  match o with
  | Some c => is_word c
  | None => false
  end.

Definition at_boundary (st : mstate) : bool :=
  xorb (opt_word (prev st)) (opt_word (head (rest st))).

Definition set_cap (i : nat) (v : jsstring) (st : mstate) : mstate :=
  {| prev := prev st; rest := rest st; caps := (i, v) :: caps st |}.

Fixpoint get_cap (i : nat) (cs : list (nat * jsstring)) : jsstring :=
  match cs with
  | [] => []
  | (j, v) :: cs' => if Nat.eqb i j then v else get_cap i cs'
  end.

Definition dec_max (max : option nat) : option nat :=
  match max with
  | Some k => Some (Nat.pred k)
  | None => None
  end.

(** The optional iterations of a greedy quantifier.  An iteration is
    kept only if it consumed input (RepeatMatcher's empty check), so at
    most [length (rest st)] iterations happen: that is the fuel.  The
    results are listed in backtracking priority order. *)
Fixpoint rep_opt (step : mstate -> list mstate) (fuel : nat)
    (max : option nat) (st : mstate) : list mstate :=
  match fuel, max with
  | _, Some O => [st]
  | O, _ => [st]
  | S f, _ =>
      flat_map
        (fun y =>
           if Nat.ltb (length (rest y)) (length (rest st))
           then rep_opt step f (dec_max max) y
           else [])
        (step st)
      ++ [st]
  end.

(** The [min] mandatory iterations, then the optional ones. *)
Fixpoint rep_min (step : mstate -> list mstate) (min : nat)
    (max : option nat) (st : mstate) : list mstate :=
  match min with
  | O => rep_opt step (length (rest st)) max st
  | S k => flat_map (rep_min step k (dec_max max)) (step st)
  end.

(** [m r st]: every way [r] can match at [st], first choice first. *)
Fixpoint m (r : regex) (st : mstate) {struct r} : list mstate :=
  match r with
  | REmpty => [st]
  | RChar c =>
      match rest st with
      | x :: t => if x =? c then [eat x t st] else []
      | [] => []
      end
  | RClass neg items =>
      match rest st with
      | x :: t => if class_mem neg items x then [eat x t st] else []
      | [] => []
      end
  | RSeq r1 r2 => flat_map (m r2) (m r1 st)
  | RAlt r1 r2 => m r1 st ++ m r2 st
  | RRep min max r' => rep_min (m r') min max st
  | RGroup i r' =>
      map (fun y =>
             set_cap i (firstn (length (rest st) - length (rest y)) (rest st)) y)
          (m r' st)
  | RLook true r' =>
      match m r' st with
      | y :: _ => [ {| prev := prev st; rest := rest st; caps := caps y |} ]
      | [] => []
      end
  | RLook false r' =>
      match m r' st with
      | [] => [st]
      | _ :: _ => []
      end
  | RWordB => if at_boundary st then [st] else []
  | REnd =>
      match rest st with
      | [] => [st]
      | _ :: _ => []
      end
  end.

(** One match attempt at a fixed position. *)
Definition exec (r : regex) (p : option char) (s : jsstring) : option mstate :=
  head (m r {| prev := p; rest := s; caps := [] |}).

(** Number of capture groups (the highest group index). *)
Fixpoint ngroups (r : regex) : nat :=
  match r with
  | RSeq r1 r2 | RAlt r1 r2 => Nat.max (ngroups r1) (ngroups r2)
  | RRep _ _ r' | RLook _ r' => ngroups r'
  | RGroup i r' => Nat.max i (ngroups r')
  | _ => O
  end.

(** GetSubstitution for the forms [$$], [$&] and [$n] (n = 1..9); the
    replacement strings of the normalizer use only [$1] and [$2]. *)
Fixpoint expand (ng : nat) (tmpl matched : jsstring)
    (cs : list (nat * jsstring)) : jsstring :=
  match tmpl with
  | [] => []
  | c :: t =>
      if c =? 36 then
        match t with
        | d :: t' =>
            if d =? 36 then 36 :: expand ng t' matched cs
            else if d =? 38 then matched ++ expand ng t' matched cs
            else if in_range 49 57 d && Nat.leb (N.to_nat (d - 48)) ng
                 then get_cap (N.to_nat (d - 48)) cs ++ expand ng t' matched cs
                 else c :: expand ng t matched cs
        | [] => [c]
        end
      else c :: expand ng t matched cs
  end.

(** [scan] walks the subject left to right.  With [skip = 0] it attempts
    a match at the current position; a match emits the expanded
    replacement and skips the matched text, an empty match advances by
    one code unit, a failure copies one code unit. *)
Fixpoint scan (r : regex) (tmpl : jsstring) (skip : nat)
    (p : option char) (s : jsstring) {struct s} : jsstring :=
  match skip with
  | S k =>
      match s with
      | c :: t => scan r tmpl k (Some c) t
      | [] => []
      end
  | O =>
      match exec r p s with
      | Some y =>
          let n := (length s - length (rest y))%nat in
          let out := expand (ngroups r) tmpl (firstn n s) (caps y) in
          match s with
          | c :: t =>
              match n with
              | O => out ++ c :: scan r tmpl O (Some c) t
              | S k => out ++ scan r tmpl k (Some c) t
              end
          | [] => out
          end
      | None =>
          match s with
          | c :: t => c :: scan r tmpl O (Some c) t
          | [] => []
          end
      end
  end.

(** [s.replace(/r/g, tmpl)] *)
Definition replace_all (r : regex) (tmpl : jsstring) (s : jsstring) : jsstring :=
  scan r tmpl O None s.

(** *** Notation for writing patterns *)

Fixpoint lit_chars (l : list char) : regex :=
  match l with
  | [] => REmpty
  | [c] => RChar c
  | c :: t => RSeq (RChar c) (lit_chars t)
  end.

(** A literal run of characters. *)
Definition lit (s : string) : regex := lit_chars (str s).

(** [rng "a" "z"] is the class member [a-z]; [one "_"] the member [_]. *)
Definition rng (a b : string) : citem := CRange (ch a) (ch b).

Definition one (a : string) : citem := CChar (ch a).

Definition cls (items : list citem) : regex := RClass false items.

Definition ncls (items : list citem) : regex := RClass true items.

Definition digit : regex := cls [CDigit].

Definition space : regex := cls [CSpace].

Definition plus (r : regex) : regex := RRep 1 None r.

Definition opt (r : regex) : regex := RRep 0 (Some 1%nat) r.

Definition exactly (n : nat) (r : regex) : regex := RRep n (Some n) r.

Definition at_least (n : nat) (r : regex) : regex := RRep n None r.

Definition between (n k : nat) (r : regex) : regex := RRep n (Some k) r.

(** [cat [r1; r2; ...]] is the concatenation r1r2... *)
Fixpoint cat (l : list regex) : regex :=
  match l with
  | [] => REmpty
  | [r] => r
  | r :: t => RSeq r (cat t)
  end.

(** [alts [r1; r2; ...]] is the alternation r1|r2|... *)
Fixpoint alts (l : list regex) : regex :=
  match l with
  | [] => RClass false []
  | [r] => r
  | r :: t => RAlt r (alts t)
  end.

End Regex.

Import Regex.

(** ** The normalizer's rules, in source order *)

Module Rules.

Definition upper := rng "A" "Z".

Definition lower := rng "a" "z".

Definition num := rng "0" "9".

Definition hexdigit : regex := cls [num; rng "a" "f"; rng "A" "F"].

(** /\((\d+)\)/g *)
Definition paren_index : regex :=
  cat [lit "("; RGroup 1 (plus digit); lit ")"].

(** /\[(\d+)\]/g *)
Definition bracket_index : regex :=
  cat [lit "["; RGroup 1 (plus digit); lit "]"].

(** /(?:Mon|Tue|Wed|Thu|Fri|Sat|Sun),\s+\d{1,2}\s+(?:Jan|...|Dec)\s+\d{4}\s+\d{2}:\d{2}:\d{2}\s+(?:GMT|UTC|EST|EDT|PST|PDT|[A-Z]{2,4})\b/g *)
Definition http_date : regex :=
  cat [alts [lit "Mon"; lit "Tue"; lit "Wed"; lit "Thu"; lit "Fri";
             lit "Sat"; lit "Sun"];
       lit ","; plus space; between 1 2 digit; plus space;
       alts [lit "Jan"; lit "Feb"; lit "Mar"; lit "Apr"; lit "May";
             lit "Jun"; lit "Jul"; lit "Aug"; lit "Sep"; lit "Oct";
             lit "Nov"; lit "Dec"];
       plus space; exactly 4 digit; plus space;
       exactly 2 digit; lit ":"; exactly 2 digit; lit ":"; exactly 2 digit;
       plus space;
       alts [lit "GMT"; lit "UTC"; lit "EST"; lit "EDT"; lit "PST";
             lit "PDT"; between 2 4 (cls [upper])];
       RWordB].

(** /\d{4}-\d{2}-\d{2}T\d{2}:\d{2}:\d{2}(?:\.\d+)?(?:Z|[+-]\d{2}:\d{2})?/g *)
Definition iso_datetime : regex :=
  cat [exactly 4 digit; lit "-"; exactly 2 digit; lit "-"; exactly 2 digit;
       lit "T"; exactly 2 digit; lit ":"; exactly 2 digit; lit ":";
       exactly 2 digit;
       opt (cat [lit "."; plus digit]);
       opt (alts [lit "Z";
                  cat [cls [one "+"; one "-"]; exactly 2 digit; lit ":";
                       exactly 2 digit]])].

(** /\d{4}-\d{2}-\d{2}/g *)
Definition iso_date : regex :=
  cat [exactly 4 digit; lit "-"; exactly 2 digit; lit "-"; exactly 2 digit].

(** /\d{2}\/\d{2}\/\d{4}/g *)
Definition slash_date : regex :=
  cat [exactly 2 digit; lit "/"; exactly 2 digit; lit "/"; exactly 4 digit].

(** /[0-9a-fA-F]{8}-[0-9a-fA-F]{4}-[0-9a-fA-F]{4}-[0-9a-fA-F]{4}-[0-9a-fA-F]{12}/g *)
Definition uuid : regex :=
  cat [exactly 8 hexdigit; lit "-"; exactly 4 hexdigit; lit "-";
       exactly 4 hexdigit; lit "-"; exactly 4 hexdigit; lit "-";
       exactly 12 hexdigit].

(** /"id"\s*:\s*"[A-Za-z0-9]{10,}"/g *)
Definition json_id : regex :=
  cat [RChar 34; lit "id"; RChar 34; RRep 0 None space; lit ":";
       RRep 0 None space; RChar 34;
       at_least 10 (cls [upper; lower; num]); RChar 34].

(** /[A-Z]+-\d+/g *)
Definition case_id : regex :=
  cat [plus (cls [upper]); lit "-"; plus digit].

(** /\b\d{6,}\b/g *)
Definition long_number : regex :=
  cat [RWordB; at_least 6 digit; RWordB].

(** /\b[A-Za-z0-9._%+-]+@[A-Za-z0-9.-]+\.[A-Z|a-z]{2,}\b/g *)
Definition email : regex :=
  cat [RWordB;
       plus (cls [upper; lower; num; one "."; one "_"; one "%"; one "+";
                  one "-"]);
       lit "@";
       plus (cls [upper; lower; num; one "."; one "-"]);
       lit ".";
       at_least 2 (cls [upper; one "|"; lower]);
       RWordB].

(** /\b\d{1,3}\.\d{1,3}\.\d{1,3}\.\d{1,3}\b/g *)
Definition ipv4 : regex :=
  cat [RWordB; between 1 3 digit; lit "."; between 1 3 digit; lit ".";
       between 1 3 digit; lit "."; between 1 3 digit; RWordB].

(** The class [^\s<>\x22|?*] of the path rules; \x22 is the double quote. *)
Definition path_char : regex :=
  ncls [CSpace; one "<"; one ">"; CChar 34; one "|"; one "?"; one "*"].

(** /[A-Za-z]:\\[^\s<>\x22|?*]+/g *)
Definition windows_path : regex :=
  cat [cls [upper; lower]; lit ":"; RChar 92; plus path_char].

(** /\/[^\s<>\x22|?*]{2,}/g *)
Definition unix_path : regex :=
  cat [lit "/"; at_least 2 path_char].

(** /\/[A-Za-z0-9_-]{15,}\*\//g *)
Definition session_id : regex :=
  cat [lit "/"; at_least 15 (cls [upper; lower; num; one "_"; one "-"]);
       lit "*"; lit "/"].

(** The common prefix ([?&])([a-zA-Z_]+)= of the query-parameter rules. *)
Definition param_key : list regex :=
  [RGroup 1 (cls [one "?"; one "&"]);
   RGroup 2 (plus (cls [lower; upper; one "_"]));
   lit "="].

(** /([?&])([a-zA-Z_]+)=[A-Fa-f0-9]{20,}/g *)
Definition hex_param : regex :=
  cat (param_key ++ [at_least 20 (cls [rng "A" "F"; rng "a" "f"; num])]).

(** /([?&])([a-zA-Z_]+)=[A-Za-z0-9]{15,}/g *)
Definition long_param : regex :=
  cat (param_key ++ [at_least 15 (cls [upper; lower; num])]).

(** /([?&])([a-zA-Z_]+)=\d{5,}/g *)
Definition num_param : regex :=
  cat (param_key ++ [at_least 5 digit]).

(** /([?&])([a-zA-Z_]+)=%[0-9A-Fa-f]{2,}[^\s&]*/g *)
Definition encoded_param : regex :=
  cat (param_key ++
       [lit "%"; at_least 2 (cls [num; rng "A" "F"; rng "a" "f"]);
        RRep 0 None (ncls [CSpace; one "&"])]).

(** (?=[&\s]|$) *)
Definition value_end : regex :=
  RLook true (RAlt (cls [one "&"; CSpace]) REnd).

(** /([?&])([a-zA-Z_]+)=(?!(?:true|false|1|0|yes|no)(?=[&\s]|$))([A-Za-z0-9_-]+)(?=[&\s]|$)/g *)
Definition query_value : regex :=
  cat (param_key ++
       [RLook false
          (cat [alts [lit "true"; lit "false"; lit "1"; lit "0"; lit "yes";
                      lit "no"];
                value_end]);
        RGroup 3 (plus (cls [upper; lower; num; one "_"; one "-"]));
        value_end]).

(** /(https?:\/\/[^\s?]+)\?[^\s]+/g *)
Definition query_string : regex :=
  cat [RGroup 1 (cat [lit "http"; opt (lit "s"); lit ":"; lit "/"; lit "/";
                      plus (ncls [CSpace; one "?"])]);
       lit "?"; plus (ncls [CSpace])].

(** /[A-Za-z0-9_$\[\];.]+@[0-9a-fA-F]{4,}\b/g *)
Definition object_ref : regex :=
  cat [plus (cls [upper; lower; num; one "_"; one "$"; one "["; one "]";
                  one ";"; one "."]);
       lit "@"; at_least 4 hexdigit; RWordB].

(** /\b0x[0-9a-fA-F]+\b/g *)
Definition hex_literal : regex :=
  cat [RWordB; lit "0x"; plus hexdigit; RWordB].

End Rules.

(** ** normalizeErrorPattern *)

(** The argument type [string | null | undefined]. *)
Inductive js_arg : Type :=
| JNull
| JUndefined
| JString (s : jsstring).

(** The body after the guard: the substitutions in source order. *)
Definition dq : jsstring := [34].

Definition rules : list (regex * jsstring) :=
  [ (Rules.paren_index, str "(*)");
    (Rules.bracket_index, str "[*]");
    (Rules.http_date, str "[DATE]");
    (Rules.iso_datetime, str "[DATE]");
    (Rules.iso_date, str "[DATE]");
    (Rules.slash_date, str "[DATE]");
    (Rules.uuid, str "[UUID]");
    (Rules.json_id, dq ++ str "id" ++ dq ++ str ":" ++ dq ++ str "[JSON_ID]" ++ dq);
    (Rules.case_id, str "[CASE_ID]");
    (Rules.long_number, str "[ID]");
    (Rules.email, str "[EMAIL]");
    (Rules.ipv4, str "[IP]");
    (Rules.windows_path, str "[FILE_PATH]");
    (Rules.unix_path, str "[FILE_PATH]");
    (Rules.session_id, str "/[SESSION_ID]*/");
    (Rules.hex_param, str "$1$2=[HEX_ID]");
    (Rules.long_param, str "$1$2=[LONG_ID]");
    (Rules.num_param, str "$1$2=[NUM_PARAM]");
    (Rules.encoded_param, str "$1$2=[ENCODED_PARAM]");
    (Rules.query_value, str "$1$2=[QUERY_VALUE]");
    (Rules.query_string, str "$1?[QUERY_PARAMS]");
    (Rules.object_ref, str "[OBJECT_REF]");
    (Rules.hex_literal, str "[HEX]") ].

Definition apply_rules (rs : list (regex * jsstring)) (s : jsstring) : jsstring :=
  fold_left (fun acc rt => replace_all (fst rt) (snd rt) acc) rs s.

Definition normalize_string (s : jsstring) : jsstring := apply_rules rules s.

(** JavaScript truthiness of the argument: null, undefined and the empty
    string are falsy. *)
Definition truthy (msg : js_arg) : bool :=
  match msg with
  | JString (_ :: _) => true
  | _ => false
  end.

(** typeof message === 'string' *)
Definition is_string (msg : js_arg) : bool :=
  match msg with
  | JString _ => true
  | _ => false
  end.

(** message || '' *)
Definition or_empty (msg : js_arg) : jsstring :=
  match msg with
  | JString s => if truthy msg then s else []
  | _ => []
  end.

Definition normalizeErrorPattern (msg : js_arg) : jsstring :=
  if negb (truthy msg) || negb (is_string msg) then or_empty msg
  else match msg with
       | JString s => normalize_string s
       | _ => []
       end.

(** ** Diagnosis status in the operator's views *)

Module StatusSelect.







End StatusSelect.

(** ** Waterfall classification *)

Module Waterfall.

(** Modelled from the spec: the three classification levels of section
    4.2; the classifier is not among the sources. *)
Inductive Level : Type := RuleFailure | LoggerPattern | Unclassified.

(** Modelled from the spec: the classification fields of a source
    record; each may be missing. *)
Record LogRecord : Type := {
  msg : option jsstring;
  loggerName : option jsstring;
  exceptionClass : option jsstring;
  ruleName : option jsstring;
  ruleType : option jsstring
}.

(** Modelled from the spec: the output of the classifier. *)
Record Classification : Type := {
  level : Level;
  signature : jsstring;
  fingerprint_input : list jsstring
}.

(** A missing text field reaches the normalizer as null. *)
Definition as_arg (o : option jsstring) : js_arg :=
  match o with
  | Some s => JString s
  | None => JNull
  end.

Section Classifier.

(** The signature template of Level 2 is not given by the specification;
    it is a parameter of the model. *)
Variable logger_signature : jsstring -> jsstring -> jsstring.

(** Modelled from the spec: the classifier of log_grouper.py is not among
    the sources.  Levels are tested in priority order and the first match
    wins.  Level 1 matches iff exceptionClass, ruleName and ruleType are
    present; its fingerprint input is that triple and its signature joins
    them with [ | ].  Level 2 matches iff loggerName and a non-empty
    message are present; its fingerprint input is the normalized message
    and the logger name.  Level 3 is the fallback on the normalized raw
    message. *)
Definition classify (r : LogRecord) : Classification :=
  match exceptionClass r, ruleName r, ruleType r with
  | Some e, Some n, Some t =>
      {| level := RuleFailure;
         signature := e ++ str " | " ++ n ++ str " | " ++ t;
         fingerprint_input := [e; n; t] |}
  | _, _, _ =>
      match loggerName r, msg r with
      | Some l, Some (c :: t) =>
          let nm := normalizeErrorPattern (JString (c :: t)) in
          {| level := LoggerPattern;
             signature := logger_signature nm l;
             fingerprint_input := [nm; l] |}
      | _, _ =>
          let nm := normalizeErrorPattern (as_arg (msg r)) in
          {| level := Unclassified;
             signature := nm;
             fingerprint_input := [nm] |}
      end
  end.

End Classifier.

End Waterfall.

(** ** Checkpointed batch ingestion *)

Module Ingest.

(** Modelled from the spec: the diagnosis status of a group; the states
    of section 4.6, the back end that stores them is not among the
    sources. *)
Inductive Status : Type :=
| PENDING | IN_PROCESS | RESOLVED | IGNORE | DIAGNOSIS_COMPLETED | FALSE_POSITIVE.

(** Modelled from the spec: the fields of a group document that the
    ingestion core owns (count, first and last seen), and its status. *)
Record Group : Type := {
  count : nat;
  first_seen : nat;
  last_seen : nat;
  status : Status
}.

(** Modelled from the spec: what one page contributes to a fingerprint. *)
Record Delta : Type := {
  d_count : nat;
  d_first : nat;
  d_last : nat
}.

Section Scanner.

Context {K : Type} `{Countable K}.

(** A source record, already classified: its timestamp and fingerprint. *)
Variable Rec : Type.

Variable ts : Rec -> nat.

Variable fp : Rec -> K.

(** Page size (500 by default). *)
Variable page_size : nat.

(** Modelled from the spec: the group store, keyed by fingerprint, and
    the checkpoint singleton. *)
Record State : Type := {
  store : gmap K Group;
  checkpoint : option nat       (* None: the beginning of time *)
}.

(** [t] lies strictly after the checkpoint. *)
Definition after (cp : option nat) (t : nat) : bool :=
  match cp with
  | Some c => Nat.ltb c t
  | None => true
  end.

(** Modelled from the spec: log_grouper.py is not among the sources.
    The cursor of a pass: the source records strictly after the
    checkpoint, in timestamp order (the source is kept in that order). *)
Definition pending (src : list Rec) (cp : option nat) : list Rec :=
  List.filter (fun r => after cp (ts r)) src.

(** One more record for a fingerprint of the page. *)
Definition bump (r : Rec) (o : option Delta) : option Delta :=
  match o with
  | Some d => Some {| d_count := S (d_count d); d_first := d_first d; d_last := ts r |}
  | None => Some {| d_count := 1; d_first := ts r; d_last := ts r |}
  end.

(** Modelled from the spec: the in-memory mapping of a page, from
    fingerprint to count delta and first and last seen candidates. *)
Definition aggregate (page : list Rec) : gmap K Delta :=
  fold_left (fun acc r => partial_alter (bump r) (fp r) acc) page ∅.

(** Modelled from the spec: upsert of one fingerprint: increment the
    count, set first_seen if absent, overwrite last_seen; a new group
    starts as PENDING and the status of an existing group is kept. *)
Definition upsert (g : option Group) (d : option Delta) : option Group :=
  match g, d with
  | Some g, Some d =>
      Some {| count := count g + d_count d; first_seen := first_seen g;
              last_seen := d_last d; status := status g |}
  | None, Some d =>
      Some {| count := d_count d; first_seen := d_first d;
              last_seen := d_last d; status := PENDING |}
  | g, None => g
  end.

(** Modelled from the spec: the flush of a page upserts every
    fingerprint of its mapping. *)
Definition flush (agg : gmap K Delta) (st : gmap K Group) : gmap K Group :=
  merge upsert st agg.

(** The checkpoint after a page: the timestamp of its last record. *)
Definition page_mark (cp : option nat) (page : list Rec) : option nat :=
  match last page with
  | Some r => Some (ts r)
  | None => cp
  end.

(** Modelled from the spec: the first step of a page: the upserts of a
    mapping are written to the store; the checkpoint is not touched. *)
Definition flush_page (st : State) (agg : gmap K Delta) : State :=
  {| store := flush agg (store st); checkpoint := checkpoint st |}.

(** Modelled from the spec: the second step of a page, advance(): the
    checkpoint moves to the timestamp of the page's last record; the
    store is not touched. *)
Definition advance (st : State) (page : list Rec) : State :=
  {| store := store st; checkpoint := page_mark (checkpoint st) page |}.

(** Modelled from the spec: one page: aggregate, flush, and only then
    advance the checkpoint. *)
Definition process_page (st : State) (page : list Rec) : State :=
  advance (flush_page st (aggregate page)) page.

(** Modelled from the spec: the scroll over the cursor, page by page.
    [pages] bounds the number of pages that get flushed. *)
Fixpoint scroll (pages : nat) (cursor : list Rec) (st : State) : State :=
  match pages, cursor with
  | O, _ => st
  | _, [] => st
  | S k, _ =>
      scroll k (drop page_size cursor) (process_page st (take page_size cursor))
  end.

(** Modelled from the spec: an uninterrupted pass reads the checkpoint
    once and scrolls until the cursor is exhausted. *)
Definition pass (src : list Rec) (st : State) : State :=
  let cursor := pending src (checkpoint st) in
  scroll (length cursor) cursor st.

(** Modelled from the spec: page [k + 1] of a cursor. *)
Definition nth_page (k : nat) (cursor : list Rec) : list Rec :=
  take page_size (drop (k * page_size) cursor).

(** Modelled from the spec: the upserts of a mapping that a flush has
    written when it stops: those of the fingerprints that [written]
    selects. *)
Definition written_part (written : K -> bool) (agg : gmap K Delta) : gmap K Delta :=
  filter (fun kd => written kd.1 = true) agg.

(** Modelled from the spec: a pass that is aborted while it works on
    page [k + 1]: the first [k] pages are flushed and checkpointed; of
    page [k + 1] the upserts of the fingerprints in [written] are
    stored, and the checkpoint is not advanced for it.  With no
    fingerprint written this is the abort before the flush (a failed
    store write), with some the abort in the middle of the flush, with
    all of them the abort after a successful flush whose checkpoint
    write fails. *)
Definition aborted_pass (k : nat) (written : K -> bool) (src : list Rec)
    (st : State) : State :=
  let cursor := pending src (checkpoint st) in
  flush_page (scroll k cursor st)
             (written_part written (aggregate (nth_page k cursor))).

(** The two ends of the range: nothing of the page is written, all of
    it is. *)
Definition before_flush : K -> bool := fun _ => false.

Definition after_flush : K -> bool := fun _ => true.

(** The number of records of a page that carry a fingerprint. *)
Definition hits (key : K) (page : list Rec) : nat :=
  length (List.filter (fun r => bool_decide (fp r = key)) page).

(** The count that a mapping holds for a fingerprint. *)
Definition delta_count (o : option Delta) : nat :=
  match o with
  | Some d => d_count d
  | None => O
  end.

(** The count stored for a fingerprint (0 when it has no group). *)
Definition count_of (st : State) (k : K) : nat :=
  match store st !! k with
  | Some g => count g
  | None => O
  end.

(** Timestamps strictly increase along the source. *)
Fixpoint increasing (l : list nat) : bool :=
  match l with
  | a :: (b :: _) as t => Nat.ltb a b && increasing t
  | _ => true
  end.

(** Timestamps do not decrease along the source: the cursor is ordered
    by timestamp. *)
Fixpoint sorted (l : list nat) : bool :=
  match l with
  | a :: t =>
      match t with
      | b :: _ => Nat.leb a b && sorted t
      | [] => true
      end
  | [] => true
  end.

(** Modelled from the spec: the records that a rerun after an abort on
    page [k + 1] does not read although they were on no checkpointed
    page: the rerun resumes strictly after the timestamp of the last
    record of page [k], so it skips the later records that carry the
    same timestamp. *)
Definition skipped (k : nat) (cursor : list Rec) : list Rec :=
  match last (take (k * page_size) cursor) with
  | Some r0 => List.filter (fun r => Nat.eqb (ts r) (ts r0)) (drop (k * page_size) cursor)
  | None => []
  end.

End Scanner.

Arguments store {K _ _} _.
Arguments checkpoint {K _ _} _.

End Ingest.

(** ** String and array methods *)

Module JsString.

(** [s.startsWith(x)] *)
Fixpoint startsWith (s x : jsstring) {struct x} : bool :=
  match x, s with
  | [], _ => true
  | _ :: _, [] => false
  | a :: x', b :: s' => (b =? a) && startsWith s' x'
  end.

(** [s.includes(x)] *)
Fixpoint includes (s x : jsstring) : bool :=
  startsWith s x ||
  match s with
  | [] => false
  | _ :: s' => includes s' x
  end.

(** [s.slice(n)] for a count [n]. *)
Definition slice (s : jsstring) (n : nat) : jsstring := skipn n s.

(** [s.trim()] strips the WhiteSpace and LineTerminator code points,
    the ones [\s] stands for, at both ends. *)
Fixpoint trimStart (s : jsstring) : jsstring :=
  match s with
  | [] => []
  | c :: t => if is_space c then trimStart t else s
  end.

Fixpoint trimEnd (s : jsstring) : jsstring :=
  match s with
  | [] => []
  | c :: t =>
      match trimEnd t with
      | [] => if is_space c then [] else [c]
      | t' => c :: t'
      end
  end.

Definition trim (s : jsstring) : jsstring := trimEnd (trimStart s).

(** [s.split(sep)] for a string separator.  The subject is read left to
    right; [chunk] is the text since the last separator and [skip] the
    number of code units of a separator that are still to be passed. *)
Fixpoint split_from (sep : jsstring) (skip : nat) (chunk s : jsstring)
    {struct s} : list jsstring :=
  match s with
  | [] => [chunk]
  | c :: t =>
      match skip with
      | S k => split_from sep k chunk t
      | O =>
          if startsWith s sep
          then chunk :: split_from sep (Nat.pred (length sep)) [] t
          else split_from sep O (chunk ++ [c]) t
      end
  end.

Definition split (s sep : jsstring) : list jsstring :=
  match sep with
  | [] => map (fun c => [c]) s
  | _ :: _ => split_from sep O [] s
  end.

(** [ids.includes(id)] on an array of strings. *)
Definition includes_id (ids : list jsstring) (id : jsstring) : bool :=
  bool_decide (id ∈ ids).

(** [a === b] on strings. *)
Definition same (a b : jsstring) : bool := bool_decide (a = b).

(** [l.sort(cmp)]: the sort is stable, so for a consistent comparator the
    result is the one of a stable insertion sort. *)
Fixpoint sort_insert {A : Type} (cmp : A -> A -> Z) (x : A) (l : list A) : list A :=
  match l with
  | [] => [x]
  | y :: t => if (0 <? cmp x y)%Z then y :: sort_insert cmp x t else x :: l
  end.

Definition sort {A : Type} (cmp : A -> A -> Z) (l : list A) : list A :=
  foldr (sort_insert cmp) [] l.

End JsString.

(** ** API configuration *)

Module Api.

Import JsString.

Section Config.

(** [import.meta.env.VITE_API_URL], a string or undefined. *)
Variable VITE_API_URL : js_arg.

(** import.meta.env.VITE_API_URL || 'http://localhost:8000' *)
Definition API_URL : jsstring :=
  if truthy VITE_API_URL then or_empty VITE_API_URL
  else str "http://localhost:8000".

Definition buildApiUrl (path : jsstring) : jsstring :=
  let cleanPath := if startsWith path (str "/") then slice path 1 else path in
  API_URL ++ str "/" ++ cleanPath.

Definition LOG_GROUP (docId : jsstring) : jsstring :=
  buildApiUrl (str "/api/logs/group/" ++ docId).

Definition DIAGNOSE_SINGLE (docId : jsstring) : jsstring :=
  buildApiUrl (str "/api/analysis/diagnose/" ++ docId).

End Config.

End Api.

(** ** The rule sequence of a group signature (RuleSequenceViewer) *)

Module RuleSequence.

Import JsString.

Record RuleNode : Type := {
  type : jsstring;
  name : jsstring;
  class : jsstring
}.

(** The callback of [map]: one part of the signature.  [None] stands
    for the TypeError of calling [split] on undefined, [Some None] for
    the value null. *)
Definition parse_part (part : jsstring) : option (option RuleNode) :=
  let cleanPart := trim part in
  content ← (if includes cleanPart (str ":")
             then split cleanPart (str ":") !! 1%nat
             else Some cleanPart);
  let tokens := split content (str "->") in
  Some (match tokens with
        | t0 :: t1 :: t2 :: _ =>
            Some {| type := trim t0; name := trim t1; class := trim t2 |}
        | _ => None
        end).

(** The memoised [rules] of the component; [filter(Boolean)] drops the
    nulls. *)
Definition rules (signature : jsstring) : option (list RuleNode) :=
  if negb (truthy (JString signature)) || negb (includes signature (str "|"))
  then Some []
  else
    parts ← mapM parse_part (split signature (str "|"));
    Some (omap id parts).

End RuleSequence.

(** ** The sections of a diagnosis report (InspectionModal) *)

Module Report.

Import JsString.

(** *** Patterns with the [i] flag

    Without the [u] flag a pattern character matches the code units
    that have its upper-case form (Canonicalize); a code unit above 127
    is never folded onto an ASCII one.  For an ASCII letter these are
    its two cases, for an ASCII digit or punctuation mark the character
    itself.  [\s] is not changed by the flag. *)
Definition ci (c : char) : regex :=
  if in_range 65 90 c then cls [CChar c; CChar (c + 32)]
  else if in_range 97 122 c then cls [CChar (c - 32); CChar c]
  else RChar c.

Fixpoint ilit_chars (l : list char) : regex :=
  match l with
  | [] => REmpty
  | [c] => ci c
  | c :: t => RSeq (ci c) (ilit_chars t)
  end.

Definition ilit (s : string) : regex := ilit_chars (str s).

Definition star (r : regex) : regex := RRep 0 None r.

(** [r.test(s)] for a pattern without the [g] flag: a match at some
    position of [s]. *)
Fixpoint test_from (r : regex) (p : option char) (s : jsstring) : bool :=
  match exec r p s with
  | Some _ => true
  | None =>
      match s with
      | [] => false
      | c :: t => test_from r (Some c) t
      end
  end.

Definition test (r : regex) (s : jsstring) : bool := test_from r None s.

(** The value of capture group [i]: undefined when the group took no
    part in the match. *)
Fixpoint find_cap (i : nat) (cs : list (nat * jsstring)) : option jsstring :=
  match cs with
  | [] => None
  | (j, v) :: cs' => if Nat.eqb i j then Some v else find_cap i cs'
  end.

Definition captures (r : regex) (y : mstate) : list (option jsstring) :=
  map (fun i => find_cap i (caps y)) (seq 1 (ngroups r)).

(** [s.split(/r/)].  At each position the pattern is tried there only;
    a match that ends where the current chunk began (an empty match
    right after a separator) is passed over; otherwise the chunk and the
    captures are emitted and the walk resumes after the match.  The
    entries are strings or undefined. *)
Fixpoint split_scan (r : regex) (skip : nat) (chunk : jsstring)
    (p : option char) (s : jsstring) {struct s} : list (option jsstring) :=
  match s with
  | [] => [Some chunk]
  | c :: t =>
      match skip with
      | S k => split_scan r k chunk (Some c) t
      | O =>
          match exec r p s with
          | None => split_scan r O (chunk ++ [c]) (Some c) t
          | Some y =>
              match (length s - length (rest y))%nat, chunk with
              | O, [] => split_scan r O [c] (Some c) t
              | O, _ :: _ =>
                  Some chunk :: captures r y ++ split_scan r O [c] (Some c) t
              | S k, _ =>
                  Some chunk :: captures r y ++ split_scan r k [] (Some c) t
              end
          end
      end
  end.

Definition split_regex (r : regex) (s : jsstring) : list (option jsstring) :=
  match s with
  | [] =>
      match exec r None [] with
      | Some _ => []
      | None => [Some []]
      end
  | _ :: _ => split_scan r O [] None s
  end.

(** *** parseReport *)

Record Mapping : Type := {
  label : jsstring;
  pattern : regex
}.

Definition sectionsMapping : list Mapping :=
  [ {| label := str "EXECUTIVE SUMMARY";
       (* /1\.\s*EXECUTIVE\s+SUMMARY/i *)
       pattern := cat [ilit "1."; star space; ilit "EXECUTIVE"; plus space;
                       ilit "SUMMARY"] |};
    {| label := str "SEVERITY ASSESSMENT";
       (* /2\.\s*SEVERITY\s+ASSESSMENT/i *)
       pattern := cat [ilit "2."; star space; ilit "SEVERITY"; plus space;
                       ilit "ASSESSMENT"] |};
    {| label := str "ERROR FLOW & POINT OF FAILURE";
       (* /3\.\s*ERROR\s+FLOW\s+&\s+POINT\s+OF\s+FAILURE/i *)
       pattern := cat [ilit "3."; star space; ilit "ERROR"; plus space;
                       ilit "FLOW"; plus space; ilit "&"; plus space;
                       ilit "POINT"; plus space; ilit "OF"; plus space;
                       ilit "FAILURE"] |};
    {| label := str "ROOT CAUSE ANALYSIS";
       (* /4\.\s*ROOT\s+CAUSE\s+ANALYSIS/i *)
       pattern := cat [ilit "4."; star space; ilit "ROOT"; plus space;
                       ilit "CAUSE"; plus space; ilit "ANALYSIS"] |};
    {| label := str "IMPACT ANALYSIS";
       (* /5\.\s*IMPACT\s+ANALYSIS/i *)
       pattern := cat [ilit "5."; star space; ilit "IMPACT"; plus space;
                       ilit "ANALYSIS"] |};
    {| label := str "STEP-BY-STEP RESOLUTION";
       (* /6\.\s*STEP-BY-STEP\s+RESOLUTION/i *)
       pattern := cat [ilit "6."; star space; ilit "STEP-BY-STEP"; plus space;
                       ilit "RESOLUTION"] |} ].

(** new RegExp(`(${headers.map(h => h.source).join('|')})`, 'i') *)
Definition headers_pattern : regex :=
  RGroup 1 (alts (map pattern sectionsMapping)).

Record Parsed : Type := {
  parsed_label : jsstring;
  content : jsstring
}.

(** ToString of an array entry that is passed to [test]. *)
Definition to_string (v : option jsstring) : jsstring :=
  match v with
  | Some s => s
  | None => str "undefined"
  end.

(** One turn of the loop: [header] is [parts[i]], [next] is
    [parts[i + 1]]. *)
Definition section_of (header : option jsstring) (next : option (option jsstring))
    : list Parsed :=
  let headerText := header in
  let contentText := trim <$> mjoin next in
  let mapping := List.find (fun m => test (pattern m) (to_string headerText))
                           sectionsMapping in
  match mapping, contentText with
  | Some mp, Some (c :: t) => [ {| parsed_label := label mp; content := c :: t |} ]
  | _, _ => []
  end.

(** for (let i = 1; i < parts.length; i += 2), on [parts] from index 1. *)
Fixpoint sections_from (l : list (option jsstring)) : list Parsed :=
  match l with
  | [] => []
  | [h] => section_of h None
  | h :: c :: l' => section_of h (Some c) ++ sections_from l'
  end.

Definition parseReport (text : jsstring) : list Parsed :=
  if negb (truthy (JString text)) then []
  else
    let parts := split_regex headers_pattern text in
    if Nat.ltb 1 (length parts) then sections_from (tl parts)
    else [ {| parsed_label := str "Analysis Summary"; content := text |} ].

End Report.

(** ** The grouping studio *)

Module Studio.

Import JsString.

Record LogGroup : Type := {
  doc_id : jsstring;
  display_rule : jsstring;
  exception_summary : jsstring;
  message_summary : jsstring;
  group_type : jsstring;
  diagnosis_status : jsstring;
  count : N;
  last_seen : jsstring;
  logger_name : jsstring;
  group_signature : option jsstring;
  diagnosis_report : option jsstring;
  assigned_user : option jsstring
}.

(** { ...d, \x22diagnosis.status\x22: newStatus } *)
Definition with_status (d : LogGroup) (newStatus : jsstring) : LogGroup :=
  {| doc_id := doc_id d;
     display_rule := display_rule d;
     exception_summary := exception_summary d;
     message_summary := message_summary d;
     group_type := group_type d;
     diagnosis_status := newStatus;
     count := count d;
     last_seen := last_seen d;
     logger_name := logger_name d;
     group_signature := group_signature d;
     diagnosis_report := diagnosis_report d;
     assigned_user := assigned_user d |}.

(** A string in a condition: the empty string is falsy. *)
Definition nonempty (s : jsstring) : bool :=
  match s with
  | [] => false
  | _ :: _ => true
  end.

Section Search.

(** [String.prototype.toLowerCase] *)
Variable toLowerCase : jsstring -> jsstring.

(** The effect on [searchQuery, data]: the rows shown. *)
Definition search (searchQuery : jsstring) (data : list LogGroup) : list LogGroup :=
  if nonempty searchQuery then
    let lower := toLowerCase searchQuery in
    List.filter
      (fun item =>
         (nonempty (display_rule item)
          && includes (toLowerCase (display_rule item)) lower)
         || (nonempty (exception_summary item)
             && includes (toLowerCase (exception_summary item)) lower)
         || (nonempty (message_summary item)
             && includes (toLowerCase (message_summary item)) lower)
         || (nonempty (group_type item)
             && includes (toLowerCase (group_type item)) lower))
      data
  else data.

End Search.

Definition handleSelectAll (filteredData : list LogGroup) (checked : bool)
    : list jsstring :=
  if checked then map doc_id filteredData else [].

Definition handleSelectOne (id : jsstring) (checked : bool) (prev : list jsstring)
    : list jsstring :=
  if checked then prev ++ [id]
  else List.filter (fun x => negb (same x id)) prev.

(** The [checked] property of the header box and of a row's box. *)
Definition header_checked (selectedIds : list jsstring) (filteredData : list LogGroup)
    : bool :=
  Nat.eqb (length selectedIds) (length filteredData)
  && Nat.ltb 0 (length filteredData).

Definition row_checked (selectedIds : list jsstring) (item : LogGroup) : bool :=
  includes_id selectedIds (doc_id item).

(** Checkbox: a click calls onCheckedChange(!checked). *)
Definition click_header (selectedIds : list jsstring) (filteredData : list LogGroup)
    : list jsstring :=
  handleSelectAll filteredData (negb (header_checked selectedIds filteredData)).

Definition click_row (selectedIds : list jsstring) (item : LogGroup) : list jsstring :=
  handleSelectOne (doc_id item) (negb (row_checked selectedIds item)) selectedIds.

(** generatePattern: the rows taken as examples, and the text each one
    contributes. *)
Definition selectedItems (data : list LogGroup) (selectedIds : list jsstring)
    : list LogGroup :=
  List.filter (fun item => includes_id selectedIds (doc_id item)) data.

Definition example_of (item : LogGroup) : jsstring :=
  if nonempty (exception_summary item) && negb (same (exception_summary item) (str "N/A"))
  then exception_summary item
  else if nonempty (message_summary item)
          && negb (same (message_summary item) (str "N/A"))
  then message_summary item
  else display_rule item.

Definition examples (data : list LogGroup) (selectedIds : list jsstring)
    : list jsstring :=
  map example_of (selectedItems data selectedIds).

(** The status selector of a row: the new rows. *)
Definition change_status (data : list LogGroup) (item : LogGroup)
    (newStatus : jsstring) : list LogGroup :=
  map (fun d => if same (doc_id d) (doc_id item) then with_status d newStatus else d)
      data.

(** *** The component as its events drive it

    [filteredData] is kept equal to the search applied to [data] by the
    effect on [searchQuery, data], which runs before the next event. *)

Record State : Type := {
  data : list LogGroup;
  searchQuery : jsstring;
  selectedIds : list jsstring
}.

Inductive Event : Type :=
| Loaded (rows : list LogGroup)            (* fetchData has set the rows *)
| Typed (query : jsstring)                 (* the search box *)
| RowClicked (i : nat)                     (* the box of the i-th row shown *)
| HeaderClicked                            (* the box in the table head *)
| StatusChanged (i : nat) (newStatus : jsstring)
| RuleSaved.                               (* saveRule succeeded *)

Section Component.

Variable toLowerCase : jsstring -> jsstring.

Definition filteredData (st : State) : list LogGroup :=
  search toLowerCase (searchQuery st) (data st).

Definition step (st : State) (e : Event) : State :=
  match e with
  | Loaded rows =>
      {| data := rows; searchQuery := searchQuery st;
         selectedIds := selectedIds st |}
  | Typed q =>
      {| data := data st; searchQuery := q; selectedIds := selectedIds st |}
  | RowClicked i =>
      match filteredData st !! i with
      | Some item =>
          {| data := data st; searchQuery := searchQuery st;
             selectedIds := click_row (selectedIds st) item |}
      | None => st
      end
  | HeaderClicked =>
      {| data := data st; searchQuery := searchQuery st;
         selectedIds := click_header (selectedIds st) (filteredData st) |}
  | StatusChanged i newStatus =>
      match filteredData st !! i with
      | Some item =>
          {| data := change_status (data st) item newStatus;
             searchQuery := searchQuery st; selectedIds := selectedIds st |}
      | None => st
      end
  | RuleSaved =>
      {| data := data st; searchQuery := searchQuery st; selectedIds := [] |}
  end.

Definition run (st : State) (events : list Event) : State :=
  fold_left step events st.

End Component.

End Studio.

(** ** The dashboard *)

Module Dashboard.

Import JsString.

Inductive SortOrder : Type := asc | desc.

Record Sorting : Type := {
  sortBy : string;
  sortOrder : SortOrder
}.

Definition handleSort (st : Sorting) (key : string) : Sorting :=
  if String.eqb (sortBy st) key then
    {| sortBy := sortBy st;
       sortOrder := match sortOrder st with asc => desc | desc => asc end |}
  else {| sortBy := key; sortOrder := desc |}.

Record Column : Type := {
  key : string;
  col_label : string;
  sortable : bool
}.

Definition COLUMN_DEFS : list Column :=
  [ {| key := "inspect"; col_label := "Inspect"; sortable := false |};
    {| key := "last_seen"; col_label := "Last Seen"; sortable := true |};
    {| key := "group_signature"; col_label := "Full Signature"; sortable := true |};
    {| key := "group_type"; col_label := "Type"; sortable := true |};
    {| key := "count"; col_label := "Count"; sortable := true |};
    {| key := "assigned_user"; col_label := "Assigned To"; sortable := true |};
    {| key := "diagnosis.status"; col_label := "Status"; sortable := true |};
    {| key := "display_rule"; col_label := "Rule Name"; sortable := true |};
    {| key := "message_summary"; col_label := "Log Message"; sortable := true |};
    {| key := "logger_name"; col_label := "Logger"; sortable := true |};
    {| key := "exception_summary"; col_label := "Exception Info"; sortable := true |};
    {| key := "diagnosis.report"; col_label := "Report"; sortable := true |} ]%string.

Definition has (keys : list string) (k : string) : bool :=
  existsb (String.eqb k) keys.

(** The comparator of visibleColumns. *)
Definition pinned_first (pinnedColumns : list string) (a b : Column) : Z :=
  let aPinned := has pinnedColumns (key a) in
  let bPinned := has pinnedColumns (key b) in
  if aPinned && negb bPinned then (-1)%Z
  else if negb aPinned && bPinned then 1%Z
  else 0%Z.

Definition visibleColumns (hiddenColumns pinnedColumns : list string) : list Column :=
  sort (pinned_first pinnedColumns)
       (List.filter (fun col => negb (has hiddenColumns (key col))) COLUMN_DEFS).

End Dashboard.

(** * Notions used in the statements and in the proofs *)

(** ** Analyses of patterns *)

(** *** What a match consumes

    [Lang r w]: the text [w] has the shape [r] asks for, assertions left
    aside.  Every match of [r] consumes such a text. *)
Fixpoint Lang (r : regex) (w : jsstring) : Prop :=
  match r with
  | REmpty | RLook _ _ | RWordB | REnd => w = []
  | RChar c => w = [c]
  | RClass neg items => exists c, w = [c] /\ class_mem neg items c = true
  | RSeq a b => exists w1 w2, w = w1 ++ w2 /\ Lang a w1 /\ Lang b w2
  | RAlt a b => Lang a w \/ Lang b w
  | RRep min _ r' =>
      exists ws, w = concat ws /\ Forall (Lang r') ws /\ (min <= length ws)%nat
  | RGroup _ r' => Lang r' w
  end.

(** Number of code units of [w] that satisfy [p]. *)
Fixpoint occ (p : char -> bool) (w : jsstring) : nat :=
  match w with
  | [] => O
  | c :: t => ((if p c then 1 else 0) + occ p t)%nat
  end.

(** The code units lo..hi. *)
Definition chars_between (lo hi : char) : list char :=
  map N.of_nat (seq (N.to_nat lo) (S (N.to_nat hi) - N.to_nat lo)).

(** The code units that [\s] stands for. *)
Definition space_chars : list char :=
  chars_between 9 13 ++ [32; 160; 5760] ++ chars_between 8192 8202
  ++ [8232; 8233; 8239; 8287; 12288; 65279].

(** The finitely many code units a class member stands for. *)
Definition item_chars (it : citem) : list char :=
  match it with
  | CChar x => [x]
  | CRange lo hi => chars_between lo hi
  | CDigit => chars_between 48 57
  | CSpace => space_chars
  end.

(** [class_within p neg items]: the class is not negated and each of its
    members satisfies [p]. *)
Definition class_within (p : char -> bool) (neg : bool) (items : list citem) : bool :=
  negb neg && forallb p (flat_map item_chars items).

(** A lower bound on the number of [p]-characters in any match of [r]. *)
Fixpoint min_count (p : char -> bool) (r : regex) : nat :=
  match r with
  | REmpty | RLook _ _ | RWordB | REnd => O
  | RChar c => if p c then 1%nat else O
  | RClass neg items => if class_within p neg items then 1%nat else O
  | RSeq a b => (min_count p a + min_count p b)%nat
  | RAlt a b => Nat.min (min_count p a) (min_count p b)
  | RRep min _ r' => (min * min_count p r')%nat
  | RGroup _ r' => min_count p r'
  end.

(** [nullable r]: [r] may match without consuming anything. *)
Fixpoint nullable (r : regex) : bool :=
  match r with
  | REmpty | RLook _ _ | RWordB | REnd => true
  | RChar _ | RClass _ _ => false
  | RSeq a b => nullable a && nullable b
  | RAlt a b => nullable a || nullable b
  | RRep min _ r' => Nat.eqb min 0 || nullable r'
  | RGroup _ r' => nullable r'
  end.

(** [firstc r c]: a non-empty match of [r] may begin with [c]. *)
Fixpoint firstc (r : regex) (c : char) : bool :=
  match r with
  | REmpty | RLook _ _ | RWordB | REnd => false
  | RChar x => c =? x
  | RClass neg items => class_mem neg items c
  | RSeq a b => firstc a c || (nullable a && firstc b c)
  | RAlt a b => firstc a c || firstc b c
  | RRep _ _ r' => firstc r' c
  | RGroup _ r' => firstc r' c
  end.

(** [w] is empty and [r] nullable, or [w] begins as [r] allows. *)
Definition starts_ok (r : regex) (w : jsstring) : Prop :=
  match w with
  | [] => nullable r = true
  | c :: _ => firstc r c = true
  end.

(** The code unit before the position reached after reading [w]. *)
Definition prev_after (p : option char) (w : jsstring) : option char :=
  fold_left (fun _ c => Some c) w p.

(** A position is dead for [r] when the code unit there cannot begin a
    match or too little input is left. *)
Fixpoint quiet (r : regex) (s : jsstring) : bool :=
  match s with
  | [] => true
  | c :: t =>
      (negb (firstc r c) || Nat.ltb (length s) (min_count (fun _ => true) r))
      && quiet r t
  end.

(** The matcher state after reading [w], with [tl] left. *)
Definition after_word (st : mstate) (w tl : jsstring) : mstate :=
  {| prev := prev_after (prev st) w; rest := tl; caps := caps st |}.

(** A run of class members ends at [tl]. *)
Definition stops (neg : bool) (items : list citem) (tl : jsstring) : Prop :=
  match tl with
  | [] => True
  | c :: _ => class_mem neg items c = false
  end.

(** The matcher of a single class, as [m] computes it. *)
Definition class_step (neg : bool) (items : list citem) (st : mstate) : list mstate :=
  match rest st with
  | x :: t => if class_mem neg items x then [eat x t st] else []
  | [] => []
  end.

(** ** Classes of text *)

(** Code units some rule needs: every rule consumes a decimal digit or
    one of - \x22 @ \ / = (\x22 is the double quote). *)
Definition trigger (c : char) : bool :=
  is_digit c || existsb (N.eqb c) [45; 34; 64; 92; 47; 61].

(** No code unit of [s] is needed by any rule. *)
Definition trigger_free (s : jsstring) : bool :=
  forallb (fun c => negb (trigger c)) s.

(** [A-Z] *)
Definition is_upper (c : char) : bool := in_range 65 90 c.

(** Text around a case identifier that no rule reacts to: no upper-case
    letter, no digit and none of ( [ - / : @ = . *)
Definition plain (c : char) : bool :=
  negb (is_upper c) && negb (is_digit c)
  && negb (existsb (N.eqb c) [40; 91; 45; 47; 58; 64; 61]).

(** [contains needle hay]: [needle] occurs in [hay]. *)
Fixpoint starts_with (needle hay : jsstring) : bool :=
  match needle, hay with
  | [], _ => true
  | _ :: _, [] => false
  | a :: n', b :: h' => (a =? b) && starts_with n' h'
  end.

Fixpoint contains (needle hay : jsstring) : bool :=
  starts_with needle hay ||
  match hay with
  | [] => false
  | _ :: h' => contains needle h'
  end.

(** Characters that the rules before, at and after the case-id rule
    need: one of ( [ : /, the hyphen, and a digit or one of @ : / =. *)
Definition q_early (c : char) : bool := existsb (N.eqb c) [40; 91; 58; 47].

Definition q_hyphen (c : char) : bool := c =? 45.

Definition q_late (c : char) : bool :=
  is_digit c || existsb (N.eqb c) [64; 58; 47; 61].

(** The values that the query-value rule keeps. *)
Definition flag_literals : list jsstring :=
  map str ["true"; "false"; "1"; "0"; "yes"; "no"]%string.

(** [?&] *)
Definition is_sep (c : char) : bool := (c =? 63) || (c =? 38).

(** [&\s], what may follow a value *)
Definition is_boundary (c : char) : bool := (c =? 38) || is_space c.

(** [a-zA-Z_] *)
Definition key_char (c : char) : bool :=
  in_range 97 122 c || in_range 65 90 c || (c =? 95).

(** Punctuation that does not occur in a flag-valued parameter:
    ( [ , - / \x22 @ . : %. *)
Definition q_punct (c : char) : bool :=
  existsb (N.eqb c) [40; 91; 44; 45; 47; 34; 64; 46; 58; 37].

(** What follows the key in the three parameter rules that the static
    bounds do not settle. *)
Definition hex_value : regex :=
  at_least 20 (cls [rng "A" "F"; rng "a" "f"; Rules.num]).

Definition long_value : regex :=
  at_least 15 (cls [Rules.upper; Rules.lower; Rules.num]).

Definition other_value : regex :=
  cat [RLook false
         (cat [alts [lit "true"; lit "false"; lit "1"; lit "0"; lit "yes";
                     lit "no"];
               Rules.value_end]);
       RGroup 3 (plus (cls [Rules.upper; Rules.lower; Rules.num; one "_"; one "-"]));
       Rules.value_end].

(** The class of the key in the parameter rules. *)
Definition key_class : list citem := [Rules.lower; Rules.upper; one "_"].

(** The texts of the families of inputs studied below. *)
Definition case_subject (pre L D post : jsstring) : jsstring :=
  pre ++ L ++ [45] ++ D ++ post.

Definition case_masked (pre post : jsstring) : jsstring :=
  pre ++ str "[CASE_ID]" ++ post.

Definition flag_subject (sep : char) (key flag : jsstring) : jsstring :=
  sep :: key ++ 61 :: flag.


(** ** Addresses with a digit local part *)

(** [a-z] *)
Definition is_lower (c : char) : bool := in_range 97 122 c.

(** [A-Za-z0-9.-], the characters of a domain in the email rule. *)
Definition domain_char (c : char) : bool :=
  is_upper c || is_lower c || is_digit c || (c =? 46) || (c =? 45).

(** Letters and dots. *)
Definition name_char (c : char) : bool :=
  is_upper c || is_lower c || (c =? 46).

(** [0-9a-fA-F] *)
Definition is_hex (c : char) : bool :=
  is_digit c || in_range 97 102 c || in_range 65 70 c.

(** The longest prefix of [s] whose code units satisfy [f], and what
    follows it. *)
Fixpoint leading (f : char -> bool) (s : jsstring) : jsstring :=
  match s with
  | c :: t => if f c then c :: leading f t else []
  | [] => []
  end.

Fixpoint behind (f : char -> bool) (s : jsstring) : jsstring :=
  match s with
  | c :: t => if f c then behind f t else s
  | [] => []
  end.

(** The text after an at-sign reads as an object reference: it begins
    with four or more hexadecimal digits that end at a word boundary. *)
Definition hex_start (t : jsstring) : bool :=
  Nat.leb 4 (length (leading is_hex t))
  && negb (opt_word (head (behind is_hex t))).

(** A digit local part [D] at the domain [dom]. *)
Definition address (D dom : jsstring) : jsstring := D ++ 64 :: dom.

(** The class of the object-reference rule before the at-sign. *)
Definition ref_class : list citem :=
  [Rules.upper; Rules.lower; Rules.num; one "_"; one "$"; one "["; one "]";
   one ";"; one "."].

(** The local part of the email rule. *)
Definition local_class : list citem :=
  [Rules.upper; Rules.lower; Rules.num; one "."; one "_"; one "%"; one "+";
   one "-"].

(** What follows the local part in the email rule, and what follows
    the at-sign in the object-reference rule. *)
Definition email_tail : regex :=
  cat [plus (cls [Rules.upper; Rules.lower; Rules.num; one "."; one "-"]);
       lit ".";
       at_least 2 (cls [Rules.upper; one "|"; Rules.lower]);
       RWordB].

Definition hex_tail : regex := RSeq (at_least 4 Rules.hexdigit) RWordB.

(** Code units of the text that follows the at-sign while the rules
    work on it: those of a domain, and the brackets and the underscore
    of the placeholders. *)
Definition text_char (c : char) : bool :=
  domain_char c || (c =? 91) || (c =? 93) || (c =? 95).

(** Code units that occur neither in such a text nor before it. *)
Definition q_outside (c : char) : bool := negb (text_char c || (c =? 64)).

Definition q_foreign (c : char) : bool := negb (domain_char c || (c =? 64)).

(** [a] is nowhere followed by [b]. *)
Fixpoint no_pair (a b : char) (s : jsstring) : bool :=
  match s with
  | x :: t =>
      match t with
      | y :: _ => negb ((x =? a) && (y =? b)) && no_pair a b t
      | [] => true
      end
  | [] => true
  end.

(** A replacement text that is a bracketed placeholder and cannot be
    part of [EMAIL]: text characters only (so no reference to a
    capture), from an opening to a closing bracket, with no bracket
    followed by E. *)
Definition placeholder (tmpl : jsstring) : bool :=
  forallb text_char tmpl && no_pair 91 69 tmpl
  && match tmpl with
     | c :: _ => c =? 91
     | [] => false
     end
  && match last tmpl with
     | Some c => c =? 93
     | None => false
     end.

(** A rule that a text of [text_char]s cannot trigger, or whose
    replacement is a placeholder. *)
Definition rule_ok (rt : regex * jsstring) : bool :=
  Nat.ltb 0 (min_count q_outside (fst rt))
  || (negb (nullable (fst rt)) && placeholder (snd rt)).

(** [Rewritten tmpl s o]: [o] is [s] with some non-empty stretches
    replaced by [tmpl]. *)
Inductive Rewritten (tmpl : jsstring) : jsstring -> jsstring -> Prop :=
| rw_nil : Rewritten tmpl [] []
| rw_copy (c : char) (s o : jsstring) :
    Rewritten tmpl s o -> Rewritten tmpl (c :: s) (c :: o)
| rw_repl (w s o : jsstring) :
    w <> [] -> Rewritten tmpl s o -> Rewritten tmpl (w ++ s) (tmpl ++ o).

(** The rules applied one after the other to a text that follows the
    code unit [p]. *)
Definition scans (p : option char) (rs : list (regex * jsstring)) (t : jsstring)
    : jsstring :=
  fold_left (fun acc rt => scan (fst rt) (snd rt) O p acc) rs t.

(** What the text after the at-sign must be like: text characters, and
    no bracket followed by E. *)
Definition tidy (t : jsstring) : bool :=
  forallb text_char t && no_pair 91 69 t.

(** What an address with a digit local part becomes, in terms of its
    domain: [ID]@ and the domain as the rules rewrite it after an
    at-sign, unless that text reads as an object reference, which
    takes [ID]@ and the hexadecimal digits. *)
Definition address_result (dom : jsstring) : jsstring :=
  let t := scans (Some 64) (firstn 21 rules) dom in
  if hex_start t
  then str "[OBJECT_REF]"
       ++ scan Rules.hex_literal (str "[HEX]") O (Some 93) (behind is_hex t)
  else str "[ID]@" ++ scan Rules.hex_literal (str "[HEX]") O (Some 64) t.

(** ** Case identifiers in a text *)

(** The first and the last code unit of a text satisfy [f]. *)
Definition head_is (f : char -> bool) (s : jsstring) : bool :=
  match head s with
  | Some c => f c
  | None => false
  end.

Definition last_is (f : char -> bool) (s : jsstring) : bool :=
  match last s with
  | Some c => f c
  | None => false
  end.

(** What the case-id rule matches at the start of a text, and what it
    leaves: the upper-case letters there, a hyphen and the digits after
    it. *)
Definition case_id_at (s : jsstring) : option (jsstring * jsstring) :=
  match leading is_upper s, behind is_upper s with
  | _ :: _, c :: s2 =>
      if c =? 45 then
        match leading is_digit s2 with
        | _ :: _ => Some (leading is_upper s ++ 45 :: leading is_digit s2,
                          behind is_digit s2)
        | [] => None
        end
      else None
  | _, _ => None
  end.

(** The longest suffix of [s] whose code units satisfy [f], and what
    precedes it. *)
Definition trailing (f : char -> bool) (s : jsstring) : jsstring :=
  rev (leading f (rev s)).

Definition before (f : char -> bool) (s : jsstring) : jsstring :=
  rev (behind f (rev s)).

(** Marks that the rules other than the case-id rule react to, in a
    text around a case identifier: one of ( [ - / : @ = ; those of them
    that the rules after the case-id rule need: one of @ : / = ; and
    the dot. *)
Definition q_marks (c : char) : bool :=
  existsb (N.eqb c) [40; 91; 45; 47; 58; 64; 61].

Definition q_links (c : char) : bool := existsb (N.eqb c) [64; 58; 47; 61].

Definition q_dot (c : char) : bool := c =? 46.

(** ** Indices and dates in a message *)

(** The shape of the two index rules: an opening character, a captured
    run of digits, a closing character. *)
Definition index_regex (o c : char) : regex :=
  cat [RChar o; RGroup 1 (plus digit); RChar c].

(** An index between [o] and [c] inside a text, and the text with the
    index masked. *)
Definition index_subject (o c : char) (pre D post : jsstring) : jsstring :=
  pre ++ o :: D ++ c :: post.

Definition index_masked (o c : char) (pre post : jsstring) : jsstring :=
  pre ++ [o; 42; c] ++ post.

(** An opening character directly followed by a digit. *)
Definition index_start (o : char) (s : jsstring) : bool :=
  match s with
  | a :: d :: _ => (a =? o) && is_digit d
  | _ => false
  end.

(** A date written year-month-day inside a text. *)
Definition date_subject (pre Y M D post : jsstring) : jsstring :=
  pre ++ Y ++ [45] ++ M ++ [45] ++ D ++ post.

(** A date written with slashes inside a text. *)
Definition slash_subject (pre A B Y post : jsstring) : jsstring :=
  pre ++ A ++ [47] ++ B ++ [47] ++ Y ++ post.

Definition date_masked (pre post : jsstring) : jsstring :=
  pre ++ str "[DATE]" ++ post.

(** One of ( [ : - , which each rule before the slash-date rule needs. *)
Definition q_open (c : char) : bool := existsb (N.eqb c) [40; 91; 58; 45].

(** ** Texts of signatures *)

(** [l.join(sep)] *)
Fixpoint join (sep : jsstring) (l : list jsstring) : jsstring :=
  match l with
  | [] => []
  | [a] => a
  | a :: t => a ++ sep ++ join sep t
  end.

(** The code unit [x] does not occur in [s]. *)
Definition free_of (x : char) (s : jsstring) : bool :=
  forallb (fun c => negb (c =? x)) s.

(** [sep] starts at no position of [a] when [a] is followed by [tl]. *)
Definition no_start (sep a tl : jsstring) : Prop :=
  forall a1 a2, a = a1 ++ a2 -> a2 <> [] ->
                JsString.startsWith (a2 ++ tl) sep = false.

(** A step as it is written in a signature: an optional index before a
    colon, then type, name and class separated by arrows, each with any
    white space around it. *)
Record Step : Type := {
  index_text : option jsstring;
  type_text : jsstring;
  name_text : jsstring;
  class_text : jsstring
}.

Definition step_text (s : Step) : jsstring :=
  match index_text s with
  | Some i => i ++ str ":"
  | None => []
  end ++ type_text s ++ str "->" ++ name_text s ++ str "->" ++ class_text s.

(** No bar and no colon in any part, no [>] in the three fields. *)
Definition step_ok (s : Step) : bool :=
  forallb (fun t => free_of (ch "|") t && free_of (ch ":") t)
    (match index_text s with
     | Some i => [i]
     | None => []
     end ++ [type_text s; name_text s; class_text s])
  && forallb (free_of (ch ">")) [type_text s; name_text s; class_text s].

Definition node_of (s : Step) : RuleSequence.RuleNode :=
  {| RuleSequence.type := JsString.trim (type_text s);
     RuleSequence.name := JsString.trim (name_text s);
     RuleSequence.class := JsString.trim (class_text s) |}.

(** A node whose fields have no white space at either end. *)
Definition trimmed (n : RuleSequence.RuleNode) : Prop :=
  JsString.trim (RuleSequence.type n) = RuleSequence.type n
  /\ JsString.trim (RuleSequence.name n) = RuleSequence.name n
  /\ JsString.trim (RuleSequence.class n) = RuleSequence.class n.

(** ** Texts of reports *)

(** The code units that may occur in a match of [r]. *)
Fixpoint uses (r : regex) (c : char) : bool :=
  match r with
  | REmpty | RLook _ _ | RWordB | REnd => false
  | RChar x => c =? x
  | RClass neg items => class_mem neg items c
  | RSeq a b | RAlt a b => uses a c || uses b c
  | RRep _ _ r' | RGroup _ r' => uses r' c
  end.

(** [first_match r st y]: [y] is the first way [r] matches at [st]. *)
Definition first_match (r : regex) (st y : mstate) : Prop :=
  exists l, m r st = y :: l.

(** [r] matches the text [h] from its first to its last code unit. *)
Definition matches_whole (r : regex) (h : jsstring) : bool :=
  existsb (fun y => match rest y with
                    | [] => true
                    | _ :: _ => false
                    end)
          (m r {| prev := None; rest := h; caps := [] |}).

(** The start of a numbered heading: a digit 1 to 6 and a period. *)
Definition marker_at (s : jsstring) : bool :=
  match s with
  | c :: d :: _ => in_range 49 54 c && (d =? 46)
  | _ => false
  end.

Fixpoint has_marker (s : jsstring) : bool :=
  match s with
  | [] => false
  | _ :: t => marker_at s || has_marker t
  end.

(** The shape of the six heading patterns: the digit, a period, optional
    white space, and words separated by white space. *)
Fixpoint words_regex (ws : list jsstring) : regex :=
  match ws with
  | [] => REmpty
  | [w] => Report.ilit_chars w
  | w :: t => RSeq (Report.ilit_chars w) (RSeq (plus space) (words_regex t))
  end.

Definition heading_regex (n : char) (ws : list jsstring) : regex :=
  RSeq (RSeq (RChar n) (RChar 46)) (RSeq (Report.star space) (words_regex ws)).

(** A word of visible ASCII characters. *)
Definition visible (w : jsstring) : bool :=
  match w with
  | [] => false
  | _ :: _ => forallb (in_range 33 126) w
  end.

(** A section as it is written in a report: the heading, spelled in any
    way the pattern of [sectionsMapping] at index [heading] accepts, and
    the text up to the next heading. *)
Record Written : Type := {
  heading : nat;
  heading_text : jsstring;
  body : jsstring
}.

Definition written_text (w : Written) : jsstring := heading_text w ++ body w.

Definition written_ok (w : Written) : bool :=
  match Report.sectionsMapping !! heading w with
  | Some mp =>
      matches_whole (Report.pattern mp) (heading_text w)
      && negb (has_marker (body w))
  | None => false
  end.

(** What the modal shows for it. *)
Definition shown (w : Written) : list Report.Parsed :=
  match Report.sectionsMapping !! heading w, JsString.trim (body w) with
  | Some mp, c :: t =>
      [ {| Report.parsed_label := Report.label mp; Report.content := c :: t |} ]
  | _, _ => []
  end.

(** The words of the six headings. *)
Definition heading_words : list (list string) :=
  [ ["EXECUTIVE"; "SUMMARY"];
    ["SEVERITY"; "ASSESSMENT"];
    ["ERROR"; "FLOW"; "&"; "POINT"; "OF"; "FAILURE"];
    ["ROOT"; "CAUSE"; "ANALYSIS"];
    ["IMPACT"; "ANALYSIS"];
    ["STEP-BY-STEP"; "RESOLUTION"] ]%string.

(** The digit of the heading at index [k]. *)
Definition heading_digit (k : nat) : char := 49 + N.of_nat k.

(** The entries of the split of a report: the heading and the body of
    each section. *)
Definition written_parts (ws : list Written) : list (option jsstring) :=
  flat_map (fun w => [Some (heading_text w); Some (body w)]) ws.

(** The one section shown for a report without headings. *)
Definition summary_of (text : jsstring) : Report.Parsed :=
  {| Report.parsed_label := str "Analysis Summary"; Report.content := text |}.

(** ** Tables of the operator's views *)

(** [toLowerCase] on ASCII text. *)
Definition ascii_lower (s : jsstring) : jsstring :=
  map (fun c => if in_range 65 90 c then c + 32 else c) s.

(** The identifiers of rows. *)
Definition ids (rows : list Studio.LogGroup) : list jsstring :=
  map Studio.doc_id rows.

(** The state of the grouping studio when it has first loaded [rows]. *)
Definition loaded (rows : list Studio.LogGroup) : Studio.State :=
  {| Studio.data := rows; Studio.searchQuery := []; Studio.selectedIds := [] |}.

(** An event that replaces the rows. *)
Definition is_load (e : Studio.Event) : bool :=
  match e with
  | Studio.Loaded _ => true
  | _ => false
  end.

(** A row with the given identifier, rule name, exception, message and
    type, for examples. *)
Definition sample_row (id rule exc msg typ : string) : Studio.LogGroup :=
  {| Studio.doc_id := str id;
     Studio.display_rule := str rule;
     Studio.exception_summary := str exc;
     Studio.message_summary := str msg;
     Studio.group_type := str typ;
     Studio.diagnosis_status := str "PENDING";
     Studio.count := 1;
     Studio.last_seen := str "2024-03-12 11:20:00";
     Studio.logger_name := str "com.pega.Service";
     Studio.group_signature := None;
     Studio.diagnosis_report := None;
     Studio.assigned_user := None |}.

Definition sample_rows : list Studio.LogGroup :=
  [ sample_row "g1" "Timeout in Billing" "TimeoutException" "invoice timeout" "Timeout";
    sample_row "g2" "Null Pointer in Auth" "N/A" "user null" "NullPtr";
    sample_row "g3" "Queue full" "" "N/A" "Queue" ].

(** What the table and the selection always satisfy: no identifier
    twice, and only identifiers of rows selected. *)
Definition consistent (st : Studio.State) : Prop :=
  NoDup (ids (Studio.data st))
  /\ NoDup (Studio.selectedIds st)
  /\ (forall id, In id (Studio.selectedIds st) -> In id (ids (Studio.data st))).

(** [pinnedColumns.includes(col.key)] *)
Definition is_pinned (pinnedColumns : list string) (col : Dashboard.Column) : bool :=
  Dashboard.has pinnedColumns (Dashboard.key col).

Definition is_hidden (hiddenColumns : list string) (col : Dashboard.Column) : bool :=
  Dashboard.has hiddenColumns (Dashboard.key col).

(** * Properties of the matcher *)

Section Engine.

Implicit Types (r : regex) (st y : mstate) (w s : jsstring).

(** ** Fuel of the optional iterations

    Each optional iteration shortens the remaining input, so fuel beyond
    its length is never used. *)
Lemma flat_map_all_nil {A B : Type} (f : A -> list B) (l : list A) :
  (forall x, f x = []) -> flat_map f l = [].
Proof.
  intros Hf. induction l as [|x l IH]; simpl; [reflexivity|].
  rewrite Hf, IH. reflexivity.
Qed.

Lemma rep_opt_fuel (step : mstate -> list mstate) : forall f1 f2 max st,
  (length (rest st) <= f1)%nat -> (length (rest st) <= f2)%nat ->
  rep_opt step f1 max st = rep_opt step f2 max st.
Proof.
  assert (Hzero : forall f max st, length (rest st) = O ->
                    rep_opt step f max st = [st]).
  { intros f max st Hz. destruct f as [|f]; [destruct max as [[|?]|]; reflexivity|].
    destruct max as [[|k]|]; [reflexivity | |]; cbn [rep_opt]; rewrite Hz;
      rewrite flat_map_all_nil; reflexivity. }
  induction f1 as [|f1 IH]; intros f2 max st H1 H2.
  - rewrite !Hzero by lia. reflexivity.
  - destruct f2 as [|f2]; [rewrite !Hzero by lia; reflexivity|].
    destruct max as [[|k]|]; [reflexivity | |]; cbn [rep_opt]; f_equal;
      apply flat_map_ext; intros y;
      destruct (Nat.ltb_spec (length (rest y)) (length (rest st)));
      try reflexivity; apply IH; lia.
Qed.

Lemma rep_opt_consumes (step : mstate -> list mstate) (P : jsstring -> Prop) :
  (forall st y, In y (step st) -> exists w, rest st = w ++ rest y /\ P w) ->
  forall fuel max st y,
    In y (rep_opt step fuel max st) ->
    exists ws, rest st = concat ws ++ rest y /\ Forall P ws.
Proof.
  intros Hstep fuel.
  induction fuel as [|f IH]; intros max st y Hy.
  - assert (y = st) as ->.
    { destruct max as [[|k]|]; simpl in Hy; destruct Hy as [->|[]]; reflexivity. }
    exists []. split; [reflexivity | constructor].
  - assert (Hcases :
      In y (flat_map
              (fun z => if Nat.ltb (length (rest z)) (length (rest st))
                        then rep_opt step f (dec_max max) z else [])
              (step st) ++ [st]) \/ y = st).
    { destruct max as [[|k]|]; simpl in Hy; [right; destruct Hy as [->|[]]; reflexivity | left; exact Hy | left; exact Hy]. }
    destruct Hcases as [Hin | ->].
    2:{ exists []. split; [reflexivity | constructor]. }
    apply in_app_iff in Hin. destruct Hin as [Hin | [->|[]]].
    2:{ exists []. split; [reflexivity | constructor]. }
    apply in_flat_map in Hin. destruct Hin as (z & Hz & Hyz).
    destruct (Nat.ltb _ _); [| destruct Hyz].
    destruct (Hstep _ _ Hz) as (w & Hw & HP).
    destruct (IH _ _ _ Hyz) as (ws & Hws & HF).
    exists (w :: ws). split.
    + simpl. rewrite Hw, Hws, app_assoc. reflexivity.
    + constructor; assumption.
Qed.

Lemma rep_min_consumes (step : mstate -> list mstate) (P : jsstring -> Prop) :
  (forall st y, In y (step st) -> exists w, rest st = w ++ rest y /\ P w) ->
  forall min max st y,
    In y (rep_min step min max st) ->
    exists ws, rest st = concat ws ++ rest y /\ Forall P ws /\ (min <= length ws)%nat.
Proof.
  intros Hstep min.
  induction min as [|k IH]; intros max st y Hy; simpl in Hy.
  - destruct (rep_opt_consumes step P Hstep _ _ _ _ Hy) as (ws & Hws & HF).
    exists ws. repeat split; [assumption | assumption | lia].
  - apply in_flat_map in Hy. destruct Hy as (z & Hz & Hyz).
    destruct (Hstep _ _ Hz) as (w & Hw & HP).
    destruct (IH _ _ _ Hyz) as (ws & Hws & HF & Hlen).
    exists (w :: ws). repeat split.
    + simpl. rewrite Hw, Hws, app_assoc. reflexivity.
    + constructor; assumption.
    + simpl. lia.
Qed.

(** Every match consumes a prefix of the remaining input that lies in
    [Lang r]. *)
Lemma m_lang r : forall st y,
  In y (m r st) -> exists w, rest st = w ++ rest y /\ Lang r w.
Proof.
  induction r as [ | c | neg items | r1 IH1 r2 IH2 | r1 IH1 r2 IH2
                 | min max r' IH | i r' IH | pos r' IH | | ];
    intros st y Hy; simpl in Hy.
  - destruct Hy as [<-|[]]. exists []. split; reflexivity.
  - destruct (rest st) as [|x t] eqn:E; [destruct Hy|].
    destruct (N.eqb_spec x c) as [->|]; [|destruct Hy].
    destruct Hy as [<-|[]]. exists [c]. split; reflexivity.
  - destruct (rest st) as [|x t] eqn:E; [destruct Hy|].
    destruct (class_mem neg items x) eqn:Hc; [|destruct Hy].
    destruct Hy as [<-|[]]. exists [x]. split; [reflexivity|].
    exists x. split; [reflexivity | assumption].
  - apply in_flat_map in Hy. destruct Hy as (z & Hz & Hyz).
    destruct (IH1 _ _ Hz) as (w1 & E1 & L1).
    destruct (IH2 _ _ Hyz) as (w2 & E2 & L2).
    exists (w1 ++ w2). split.
    + rewrite E1, E2, app_assoc. reflexivity.
    + exists w1, w2. repeat split; assumption.
  - apply in_app_iff in Hy. destruct Hy as [Hy|Hy].
    + destruct (IH1 _ _ Hy) as (w & E & L). exists w. split; [assumption | left; assumption].
    + destruct (IH2 _ _ Hy) as (w & E & L). exists w. split; [assumption | right; assumption].
  - destruct (rep_min_consumes (m r') (Lang r') IH _ _ _ _ Hy) as (ws & E & HF & Hlen).
    exists (concat ws). split; [assumption|].
    exists ws. repeat split; assumption.
  - apply in_map_iff in Hy. destruct Hy as (z & <- & Hz).
    destruct (IH _ _ Hz) as (w & E & L). exists w. split; assumption.
  - destruct pos.
    + destruct (m r' st) as [|z l]; [destruct Hy|].
      destruct Hy as [<-|[]]. exists []. split; reflexivity.
    + destruct (m r' st) as [|z l]; [|destruct Hy].
      destruct Hy as [<-|[]]. exists []. split; reflexivity.
  - destruct (at_boundary st); [|destruct Hy].
    destruct Hy as [<-|[]]. exists []. split; reflexivity.
  - destruct (rest st) as [|x t] eqn:E; [|destruct Hy].
    destruct Hy as [<-|[]]. exists []. split; [symmetry; assumption | reflexivity].
Qed.

(** ** Static bounds on what a pattern can match *)

Lemma occ_app p w1 w2 : occ p (w1 ++ w2) = (occ p w1 + occ p w2)%nat.
Proof. induction w1 as [|c t IH]; simpl; [reflexivity | rewrite IH; lia]. Qed.

Lemma occ_none p w : Forall (fun c => p c = false) w -> occ p w = O.
Proof.
  induction 1 as [|c t Hc _ IH]; simpl; [reflexivity | rewrite Hc, IH; reflexivity].
Qed.

Lemma occ_all w : occ (fun _ => true) w = length w.
Proof. induction w as [|c t IH]; simpl; [reflexivity | rewrite IH; reflexivity]. Qed.

Lemma in_chars_between lo hi c :
  in_range lo hi c = true -> In c (chars_between lo hi).
Proof.
  unfold in_range. intros H. apply andb_true_iff in H as [H1 H2].
  apply N.leb_le in H1. apply N.leb_le in H2.
  unfold chars_between. apply in_map_iff. exists (N.to_nat c). split.
  - apply N2Nat.id.
  - apply in_seq. lia.
Qed.

Lemma in_space_chars c : is_space c = true -> In c space_chars.
Proof.
  unfold is_space, space_chars. intros H.
  repeat (apply orb_true_iff in H as [H|H]);
    try (apply N.eqb_eq in H; subst c; vm_compute; tauto).
  - apply in_or_app. left. apply in_chars_between, H.
  - apply in_or_app. right. apply in_or_app. right.
    apply in_or_app. left. apply in_chars_between, H.
Qed.

Lemma in_item_chars c it : item_mem c it = true -> In c (item_chars it).
Proof.
  destruct it as [x|lo hi| |]; unfold item_mem, item_chars; intros H.
  - apply N.eqb_eq in H. left. congruence.
  - apply in_chars_between, H.
  - apply in_chars_between, H.
  - apply in_space_chars, H.
Qed.

Lemma class_within_ok p neg items c :
  class_within p neg items = true -> class_mem neg items c = true -> p c = true.
Proof.
  unfold class_within, class_mem. intros H Hc.
  apply andb_true_iff in H as [Hn Hall].
  destruct neg; [discriminate|]. simpl in Hc.
  apply existsb_exists in Hc as (it & Hit & Hmem).
  rewrite forallb_forall in Hall. apply Hall.
  apply in_flat_map. exists it. split; [assumption | apply in_item_chars, Hmem].
Qed.

Lemma occ_concat_ge p (k : nat) (ws : list jsstring) :
  Forall (fun w => (k <= occ p w)%nat) ws ->
  (length ws * k <= occ p (concat ws))%nat.
Proof.
  induction 1 as [|w ws Hw _ IH]; simpl; [lia | rewrite occ_app; lia].
Qed.

Lemma lang_min_count p r : forall w, Lang r w -> (min_count p r <= occ p w)%nat.
Proof.
  induction r as [ | c | neg items | r1 IH1 r2 IH2 | r1 IH1 r2 IH2
                 | min max r' IH | i r' IH | pos r' IH | | ];
    intros w H; simpl in *; try (subst w; simpl; lia).
  - destruct H as (c & -> & Hc). simpl.
    destruct (class_within p neg items) eqn:E; [|lia].
    rewrite (class_within_ok _ _ _ _ E Hc). lia.
  - destruct H as (w1 & w2 & -> & H1 & H2). rewrite occ_app.
    specialize (IH1 _ H1). specialize (IH2 _ H2). lia.
  - destruct H as [H|H]; [specialize (IH1 _ H) | specialize (IH2 _ H)]; lia.
  - destruct H as (ws & -> & HF & Hlen).
    assert (Hk : (length ws * min_count p r' <= occ p (concat ws))%nat).
    { apply occ_concat_ge. eapply Forall_impl; [exact HF | exact IH]. }
    nia.
  - apply IH, H.
Qed.

Lemma lang_first r : forall w, Lang r w -> starts_ok r w.
Proof.
  induction r as [ | c | neg items | r1 IH1 r2 IH2 | r1 IH1 r2 IH2
                 | min max r' IH | i r' IH | pos r' IH | | ];
    intros w H; simpl in *; try (subst w; reflexivity).
  - subst w. simpl. apply N.eqb_refl.
  - destruct H as (c & -> & Hc). exact Hc.
  - destruct H as (w1 & w2 & -> & H1 & H2).
    specialize (IH1 _ H1). specialize (IH2 _ H2).
    destruct w1 as [|c t]; simpl in *.
    + destruct w2 as [|c t]; simpl in *; rewrite IH1, IH2; [reflexivity|].
      apply orb_true_r.
    + rewrite IH1. reflexivity.
  - destruct H as [H|H]; [specialize (IH1 _ H) | specialize (IH2 _ H)];
      destruct w; simpl in *; rewrite ?IH1, ?IH2, ?orb_true_r; reflexivity.
  - destruct H as (ws & -> & HF & Hlen). unfold starts_ok. simpl.
    revert min Hlen. induction HF as [|w ws Hw HF IHws]; intros min Hlen; simpl.
    + simpl in Hlen. replace min with O by lia. reflexivity.
    + specialize (IH _ Hw). destruct w as [|c t]; simpl in *.
      * specialize (IHws O ltac:(lia)).
        destruct (concat ws); simpl in *; [|assumption].
        rewrite IH. apply orb_true_r.
      * exact IH.
  - apply IH, H.
Qed.

(** Every code unit of a match is one that the pattern can read. *)
Lemma lang_uses r : forall w, Lang r w -> Forall (fun c => uses r c = true) w.
Proof.
  induction r as [| c | neg items | r1 IH1 r2 IH2 | r1 IH1 r2 IH2
                 | mn mx r IH | i r IH | b r IH | |];
    intros w HL; cbn [Lang uses] in *.
  - subst. constructor.
  - subst. constructor; [apply N.eqb_refl | constructor].
  - destruct HL as (c & -> & Hc). constructor; [exact Hc | constructor].
  - destruct HL as (w1 & w2 & -> & H1 & H2). apply Forall_app. split.
    + eapply Forall_impl; [apply IH1, H1|]. cbv beta. intros c ->. reflexivity.
    + eapply Forall_impl; [apply IH2, H2|]. cbv beta. intros c ->. apply orb_true_r.
  - destruct HL as [H|H].
    + eapply Forall_impl; [apply IH1, H|]. cbv beta. intros c ->. reflexivity.
    + eapply Forall_impl; [apply IH2, H|]. cbv beta. intros c ->. apply orb_true_r.
  - destruct HL as (ws & -> & Hws & _).
    induction Hws as [|v ws Hv _ IHws]; [constructor|].
    cbn [concat]. apply Forall_app. split; [apply IH, Hv | exact IHws].
  - apply IH, HL.
  - subst. constructor.
  - subst. constructor.
  - subst. constructor.
Qed.

(** ** Positions where a pattern cannot match *)

Lemma no_results r st :
  (forall y, In y (m r st) -> False) -> m r st = [].
Proof.
  intros H. destruct (m r st) as [|y l]; [reflexivity|].
  exfalso. apply (H y). left. reflexivity.
Qed.

Lemma m_nil_by_count p r st :
  (occ p (rest st) < min_count p r)%nat -> m r st = [].
Proof.
  intros Hlt. apply no_results. intros y Hy.
  destruct (m_lang _ _ _ Hy) as (w & E & L).
  pose proof (lang_min_count p _ _ L) as Hle.
  rewrite E, occ_app in Hlt. lia.
Qed.

Lemma m_nil_by_first r st :
  nullable r = false ->
  match rest st with
  | [] => True
  | c :: _ => firstc r c = false
  end ->
  m r st = [].
Proof.
  intros Hn Hf. apply no_results. intros y Hy.
  destruct (m_lang _ _ _ Hy) as (w & E & L).
  pose proof (lang_first _ _ L) as Hs.
  destruct w as [|c t]; simpl in Hs; [congruence|].
  rewrite E in Hf. simpl in Hf. congruence.
Qed.

End Engine.

(** * Properties of global replacement *)

Section Replace.

Implicit Types (r : regex) (w s tmpl : jsstring) (p : option char).

Lemma prev_after_app p w1 w2 :
  prev_after p (w1 ++ w2) = prev_after (prev_after p w1) w2.
Proof. apply fold_left_app. Qed.

Lemma exec_none r p s :
  m r {| prev := p; rest := s; caps := [] |} = [] -> exec r p s = None.
Proof. unfold exec. intros ->. reflexivity. Qed.

Lemma scan_skip r tmpl w : forall p s,
  scan r tmpl (length w) p (w ++ s) = scan r tmpl O (prev_after p w) s.
Proof.
  induction w as [|c t IH]; intros p s; simpl.
  - destruct s; reflexivity.
  - apply IH.
Qed.

Lemma scan_fail r tmpl p c t :
  exec r p (c :: t) = None ->
  scan r tmpl O p (c :: t) = c :: scan r tmpl O (Some c) t.
Proof. intros H. simpl. rewrite H. reflexivity. Qed.

(** A successful non-empty match: its text is replaced and the scan
    resumes right after it. *)
Lemma scan_match r tmpl p s y w :
  exec r p s = Some y ->
  s = w ++ rest y ->
  w <> [] ->
  scan r tmpl O p s
  = expand (ngroups r) tmpl w (caps y) ++ scan r tmpl O (prev_after p w) (rest y).
Proof.
  intros He Hs Hw.
  destruct w as [|c w']; [congruence|].
  assert (Hn : (length s - length (rest y) = S (length w'))%nat).
  { rewrite Hs. simpl. rewrite length_app. lia. }
  assert (Hf : firstn (S (length w')) s = c :: w').
  { rewrite Hs. change (c :: w') with ([c] ++ w') at 2.
    simpl. f_equal. apply take_app_length. }
  destruct s as [|c0 t]; [discriminate|].
  injection Hs as -> ->.
  cbn [scan]. rewrite He. cbv zeta. rewrite Hn, Hf.
  rewrite scan_skip. reflexivity.
Qed.

(** No match anywhere: the subject is returned as it is. *)
Lemma scan_by_count q r tmpl : forall s p,
  (occ q s < min_count q r)%nat -> scan r tmpl O p s = s.
Proof.
  induction s as [|c t IH]; intros p Hlt.
  - simpl. rewrite exec_none; [reflexivity|].
    apply (m_nil_by_count q). exact Hlt.
  - rewrite scan_fail.
    + f_equal. apply IH. simpl in Hlt. lia.
    + apply exec_none, (m_nil_by_count q). exact Hlt.
Qed.

Lemma replace_all_by_count q r tmpl s :
  (occ q s < min_count q r)%nat -> replace_all r tmpl s = s.
Proof. apply scan_by_count. Qed.

(** Code units that cannot begin a match are copied. *)
Lemma scan_by_first r tmpl w : forall p s,
  nullable r = false ->
  Forall (fun c => firstc r c = false) w ->
  scan r tmpl O p (w ++ s) = w ++ scan r tmpl O (prev_after p w) s.
Proof.
  induction w as [|c t IH]; intros p s Hn Hw; [reflexivity|].
  inversion Hw as [|? ? Hc Ht]; subst.
  simpl app. rewrite scan_fail.
  - f_equal. apply IH; assumption.
  - apply exec_none, m_nil_by_first; [assumption | exact Hc].
Qed.

Lemma scan_quiet r tmpl : forall s p,
  nullable r = false -> quiet r s = true -> scan r tmpl O p s = s.
Proof.
  induction s as [|c t IH]; intros p Hn Hq.
  - simpl. rewrite exec_none; [reflexivity|].
    apply m_nil_by_first; [assumption | exact I].
  - cbn [quiet] in Hq. apply andb_true_iff in Hq as [Hc Ht].
    rewrite scan_fail; [f_equal; apply IH; assumption|].
    apply exec_none.
    apply orb_true_iff in Hc as [Hc|Hc].
    + apply m_nil_by_first; [assumption|]. simpl.
      apply negb_true_iff, Hc.
    + apply (m_nil_by_count (fun _ => true)). simpl rest.
      rewrite occ_all. apply Nat.ltb_lt, Hc.
Qed.

(** ** Greedy repetition of a character class *)

Lemma class_step_nil neg items st :
  rest st = [] -> class_step neg items st = [].
Proof. unfold class_step. intros ->. reflexivity. Qed.

Lemma class_step_cons neg items st c t :
  rest st = c :: t ->
  class_step neg items st = if class_mem neg items c then [eat c t st] else [].
Proof. unfold class_step. intros ->. reflexivity. Qed.

Lemma rep_opt_greedy neg items : forall w fuel st tl,
  rest st = w ++ tl ->
  Forall (fun c => class_mem neg items c = true) w ->
  stops neg items tl ->
  (length (rest st) <= fuel)%nat ->
  exists l, rep_opt (class_step neg items) fuel None st = after_word st w tl :: l.
Proof.
  induction w as [|c t IH]; intros fuel st tl Hr Hw Hs Hf.
  - simpl in Hr. exists [].
    assert (Est : after_word st [] tl = st).
    { destruct st as [p rs cs]. simpl in *. subst. reflexivity. }
    rewrite Est. destruct fuel as [|f]; [reflexivity|].
    cbn [rep_opt].
    destruct tl as [|x tl'].
    + rewrite (class_step_nil _ _ _ Hr). reflexivity.
    + rewrite (class_step_cons _ _ _ _ _ Hr). simpl in Hs. rewrite Hs. reflexivity.
  - inversion Hw as [|? ? Hc Ht]; subst. simpl in Hr.
    destruct fuel as [|f]; [rewrite Hr in Hf; simpl in Hf; lia|].
    cbn [rep_opt]. rewrite (class_step_cons _ _ _ _ _ Hr), Hc, Hr.
    cbn [flat_map eat rest length].
    assert (Hlt : Nat.ltb (length (t ++ tl)) (S (length (t ++ tl))) = true)
      by (apply Nat.ltb_lt; lia).
    rewrite Hlt.
    destruct (IH f (eat c (t ++ tl) st) tl)
      as (l & El); try assumption; try reflexivity.
    { rewrite Hr in Hf. simpl in *. lia. }
    simpl dec_max. rewrite El. simpl. eexists. reflexivity.
Qed.

Lemma rep_min_greedy neg items : forall min w st tl,
  rest st = w ++ tl ->
  Forall (fun c => class_mem neg items c = true) w ->
  stops neg items tl ->
  (min <= length w)%nat ->
  exists l, rep_min (class_step neg items) min None st = after_word st w tl :: l.
Proof.
  induction min as [|k IH]; intros w st tl Hr Hw Hs Hlen.
  - simpl. apply rep_opt_greedy; try assumption. lia.
  - destruct w as [|c t]; [simpl in Hlen; lia|].
    inversion Hw as [|? ? Hc Ht]; subst. simpl in Hr.
    cbn [rep_min]. rewrite (class_step_cons _ _ _ _ _ Hr), Hc.
    cbn [flat_map]. rewrite app_nil_r.
    destruct (IH t (eat c (t ++ tl) st) tl) as (l & El); try assumption;
      try reflexivity.
    { simpl in Hlen. lia. }
    simpl dec_max. rewrite El. eexists. reflexivity.
Qed.

(** The first way a class repeated at least [min] times matches: it
    takes the whole run of class members. *)
Lemma m_rep_class_greedy neg items min w st tl :
  rest st = w ++ tl ->
  Forall (fun c => class_mem neg items c = true) w ->
  stops neg items tl ->
  (min <= length w)%nat ->
  exists l, m (RRep min None (RClass neg items)) st = after_word st w tl :: l.
Proof. apply rep_min_greedy. Qed.

End Replace.

(** * The normalizer *)

Section Pipeline.

Implicit Types (s w : jsstring) (rs : list (regex * jsstring)).

Lemma apply_rules_app rs1 rs2 s :
  apply_rules (rs1 ++ rs2) s = apply_rules rs2 (apply_rules rs1 s).
Proof. apply fold_left_app. Qed.

Lemma apply_rules_cons r tmpl rs s :
  apply_rules ((r, tmpl) :: rs) s = apply_rules rs (replace_all r tmpl s).
Proof. reflexivity. Qed.

(** Rules that all need a [q]-character leave a text with none alone. *)
Lemma apply_rules_by_count q rs : forall s,
  forallb (fun rt => Nat.ltb 0 (min_count q (fst rt))) rs = true ->
  occ q s = O ->
  apply_rules rs s = s.
Proof.
  induction rs as [|[r tmpl] rs IH]; intros s Hall Hs; [reflexivity|].
  simpl in Hall. apply andb_true_iff in Hall as [Hr Hrs].
  rewrite apply_rules_cons, (replace_all_by_count q).
  - apply IH; assumption.
  - apply Nat.ltb_lt in Hr. lia.
Qed.

Lemma normalize_of_string c t :
  normalizeErrorPattern (JString (c :: t)) = normalize_string (c :: t).
Proof. reflexivity. Qed.

End Pipeline.

(** ** Fixed points *)

Lemma trigger_free_occ s : trigger_free s = true -> occ trigger s = O.
Proof.
  unfold trigger_free. intros H. apply occ_none.
  rewrite forallb_forall in H. apply List.Forall_forall. intros c Hc.
  apply negb_true_iff, H, Hc.
Qed.



(** * The claims about the normalizer *)




(** C2: there is an input with a URL and a query string whose whole
    query string is replaced by [QUERY_PARAMS].  The host begins with
    a star, which the file-path rule does not accept after the two
    slashes, so the URL prefix survives the first twenty rules and the
    query-string rule fires. *)
Theorem C2_query_params_reachable :
  exists x : jsstring,
    x = str "https://*.example.com/?session=abc&mode=full" /\
    apply_rules (firstn 20 rules) x
    = str "https://*.example.com/?session=[QUERY_VALUE]&mode=[QUERY_VALUE]" /\
    replace_all Rules.query_string (str "$1?[QUERY_PARAMS]")
      (apply_rules (firstn 20 rules) x)
    = str "https://*.example.com/?[QUERY_PARAMS]" /\
    normalizeErrorPattern (JString x)
    = str "https://*.example.com/?[QUERY_PARAMS]".
Proof. eexists. split; [reflexivity|]. vm_compute. repeat split. Qed.

(** An ordinary URL does not get that far: the file-path rule takes
    everything from the first slash up to the question mark. *)
Example ordinary_url_is_a_path :
  normalizeErrorPattern (JString (str "http://example.com/path?x=1&y=abc"))
  = str "http:[FILE_PATH]?x=1&y=[QUERY_VALUE]".
Proof. vm_compute. reflexivity. Qed.

(** C4: null, undefined and the empty string give the empty string, and
    every string input gives a string: the empty one for the empty
    input, the result of the substitutions otherwise. *)
Theorem C4_null_empty_total :
  normalizeErrorPattern JNull = [] /\
  normalizeErrorPattern JUndefined = [] /\
  normalizeErrorPattern (JString []) = [] /\
  (forall s : jsstring, exists out : jsstring,
      normalizeErrorPattern (JString s) = out /\
      out = match s with
            | [] => []
            | _ :: _ => normalize_string s
            end).
Proof.
  repeat split.
  intros s. eexists. split; [reflexivity|].
  destruct s; reflexivity.
Qed.

(** C5: the documented example: the input
    [Error processing case CO-12345 at 2025-01-01] normalizes to
    [Error processing case [CASE_ID] at [DATE]]. *)
Theorem C5_documented_example :
  normalizeErrorPattern (JString (str "Error processing case CO-12345 at 2025-01-01"))
  = str "Error processing case [CASE_ID] at [DATE]".
Proof. vm_compute. reflexivity. Qed.

(** ** Tools for texts given by the classes of their parts *)

Section Shapes.

Implicit Types (s w : jsstring) (q a : char -> bool).

Lemma occ_zero_forallb q a w :
  (forall c, a c = true -> q c = false) ->
  forallb a w = true -> occ q w = O.
Proof.
  intros Haq H. apply occ_none. rewrite forallb_forall in H.
  apply List.Forall_forall. intros c Hc. apply Haq, H, Hc.
Qed.

Lemma forallb_Forall_true a w :
  forallb a w = true -> Forall (fun c => a c = true) w.
Proof.
  intros H. rewrite forallb_forall in H. apply List.Forall_forall. exact H.
Qed.

Lemma forallb_Forall_impl a (P : char -> Prop) w :
  (forall c, a c = true -> P c) -> forallb a w = true -> Forall P w.
Proof.
  intros HP H. rewrite forallb_forall in H.
  apply List.Forall_forall. intros c Hc. apply HP, H, Hc.
Qed.

(** A pipeline leaves [s] alone when each rule needs more
    [q]-characters than [s] has, for one of the listed [(q, bound)]. *)
Lemma apply_rules_quiet (qbs : list ((char -> bool) * nat)) rs : forall s,
  Forall (fun qb => (occ (fst qb) s <= snd qb)%nat) qbs ->
  forallb (fun rt =>
             existsb (fun qb => Nat.ltb (snd qb) (min_count (fst qb) (fst rt))) qbs)
          rs = true ->
  apply_rules rs s = s.
Proof.
  induction rs as [|[r tmpl] rs IH]; intros s Hq Hall; [reflexivity|].
  simpl in Hall. apply andb_true_iff in Hall as [Hr Hrs].
  apply existsb_exists in Hr as ([q b] & Hin & Hlt). simpl in Hlt.
  apply Nat.ltb_lt in Hlt.
  rewrite List.Forall_forall in Hq. pose proof (Hq _ Hin) as Hb. simpl in Hb.
  rewrite apply_rules_cons, (replace_all_by_count q) by lia.
  apply IH; [apply List.Forall_forall; exact Hq | exact Hrs].
Qed.

Lemma apply_rules_fixed rs : forall s,
  Forall (fun rt => replace_all (fst rt) (snd rt) s = s) rs ->
  apply_rules rs s = s.
Proof.
  induction rs as [|[r tmpl] rs IH]; intros s H; [reflexivity|].
  inversion H as [|? ? Hr Hrs]; subst. simpl in Hr.
  rewrite apply_rules_cons, Hr. apply IH, Hrs.
Qed.

Lemma scan_nil r tmpl p :
  nullable r = false -> scan r tmpl O p [] = [].
Proof.
  intros Hn. simpl. rewrite exec_none; [reflexivity|].
  apply m_nil_by_first; [assumption | exact I].
Qed.

Lemma exec_head r p s y l :
  m r {| prev := p; rest := s; caps := [] |} = y :: l -> exec r p s = Some y.
Proof. unfold exec. intros ->. reflexivity. Qed.

(** Where a run of class members ends is determined by the text. *)
Lemma run_split_unique (P : char -> Prop) (x : char) :
  forall k1 k2 u v : jsstring,
  Forall P k1 -> Forall P k2 -> ~ P x ->
  k1 ++ x :: u = k2 ++ x :: v -> k1 = k2 /\ u = v.
Proof.
  induction k1 as [|c a IH]; intros b u v Ha Hb Hx E.
  - destruct b as [|d b]; simpl in E.
    + injection E as ->. split; reflexivity.
    + injection E as -> _. inversion Hb; subst. contradiction.
  - inversion Ha as [|? ? Hc Ha']; subst.
    destruct b as [|d b]; simpl in E.
    + injection E as -> _. contradiction.
    + injection E as -> E. inversion Hb as [|? ? _ Hb']; subst.
      destruct (IH _ _ _ Ha' Hb' Hx E) as [-> ->]. split; reflexivity.
Qed.

End Shapes.

(** Boolean facts about code units, reduced to linear arithmetic. *)
Ltac charb :=
  unfold is_digit, is_word, in_range in *; cbn [existsb] in *;
  repeat progress
    (rewrite ?andb_true_iff, ?orb_true_iff, ?negb_true_iff,
             ?andb_false_iff, ?orb_false_iff, ?negb_false_iff,
             ?N.eqb_eq, ?N.eqb_neq, ?N.leb_le, ?N.leb_gt in *);
  first [lia | intuition (first [lia | congruence])].

(** ** Classes of the rules *)

Lemma upper_mem c : class_mem false [Rules.upper] c = is_upper c.
Proof.
  unfold class_mem, is_upper. change Rules.upper with (CRange 65 90).
  cbn [existsb item_mem xorb]. apply orb_false_r.
Qed.

Lemma digit_mem c : class_mem false [CDigit] c = is_digit c.
Proof. unfold class_mem. cbn [existsb item_mem xorb]. apply orb_false_r. Qed.

Lemma case_id_first c : firstc Rules.case_id c = class_mem false [Rules.upper] c.
Proof.
  change (firstc Rules.case_id c) with (class_mem false [Rules.upper] c || false).
  apply orb_false_r.
Qed.

Lemma upper_class c : is_upper c = true -> class_mem false [Rules.upper] c = true.
Proof. rewrite upper_mem. trivial. Qed.

Lemma digit_class c : is_digit c = true -> class_mem false [CDigit] c = true.
Proof. rewrite digit_mem. trivial. Qed.

(** ** Flag values of query parameters (C9) *)

Lemma param_rules_shape :
  Rules.hex_param = cat (Rules.param_key ++ [hex_value]) /\
  Rules.long_param = cat (Rules.param_key ++ [long_value]) /\
  Rules.query_value = cat (Rules.param_key ++ [other_value]).
Proof. repeat split. Qed.

Lemma flag_facts (flag : jsstring) :
  In flag flag_literals ->
  occ q_punct flag = O /\
  (occ is_digit flag <= 1)%nat /\
  (forall y, rest y = flag ->
     m hex_value y = [] /\ m long_value y = [] /\ m other_value y = []) /\
  quiet Rules.hex_literal flag = true /\
  forallb (fun c => negb (is_sep c)) flag = true.
Proof.
  intros H.
  repeat (destruct H as [<-|H]; [
    repeat split; try (vm_compute; first [reflexivity | lia]);
    destruct y as [p rs cs]; simpl in H; subst rs; vm_compute; reflexivity |]).
  destruct H.
Qed.

Lemma lang_rep_class min max neg items (w : jsstring) :
  Lang (RRep min max (RClass neg items)) w ->
  Forall (fun c => class_mem neg items c = true) w.
Proof.
  intros (ws & -> & HF & _).
  induction HF as [|x ws Hx _ IH]; simpl; [constructor|].
  destruct Hx as (c & -> & Hc). constructor; assumption.
Qed.

Section FlagValue.

Variables (sep : char) (key flag : jsstring).

Hypothesis Hsep : is_sep sep = true.

Hypothesis Hkey : forallb key_char key = true.

Hypothesis Hflag : In flag flag_literals.

Local Abbreviation subject := (flag_subject sep key flag).

Lemma key_class_mem c : class_mem false key_class c = key_char c.
Proof.
  unfold class_mem, key_char, key_class.
  change Rules.lower with (CRange 97 122). change Rules.upper with (CRange 65 90).
  change (one "_") with (CChar 95).
  cbn [existsb item_mem xorb]. rewrite orb_false_r, orb_assoc. reflexivity.
Qed.

Lemma sep_class_mem c : class_mem false [one "?"; one "&"] c = is_sep c.
Proof.
  unfold class_mem, is_sep.
  change (one "?") with (CChar 63). change (one "&") with (CChar 38).
  cbn [existsb item_mem xorb]. rewrite orb_false_r. reflexivity.
Qed.

(** At the separator a parameter rule must read the whole key and the
    equals sign, so what decides is its value part on what follows. *)
Lemma param_rule_at_sep (X : regex) p (value : jsstring) :
  (forall y, rest y = value -> m X y = []) ->
  m (cat (Rules.param_key ++ [X]))
    {| prev := p; rest := flag_subject sep key value; caps := [] |} = [].
Proof.
  intros HX. apply no_results. intros y Hy.
  set (st := {| prev := p; rest := flag_subject sep key value; caps := [] |}) in *.
  change (m (cat (Rules.param_key ++ [X])) st)
    with (flat_map
            (fun z1 => flat_map
                         (fun z2 => flat_map (m X) (m (RChar 61) z2))
                         (m (RGroup 2 (RRep 1 None (RClass false key_class))) z1))
            (m (RGroup 1 (RClass false [one "?"; one "&"])) st)) in Hy.
  apply in_flat_map in Hy as (z1 & Hz1 & Hy).
  apply in_flat_map in Hy as (z2 & Hz2 & Hy).
  apply in_flat_map in Hy as (z3 & Hz3 & Hy).
  apply m_lang in Hz1 as (w1 & E1 & (c & -> & _)).
  apply m_lang in Hz2 as (w2 & E2 & L2).
  apply m_lang in Hz3 as (w3 & E3 & ->).
  apply (lang_rep_class 1 None) in L2.
  unfold st, flag_subject in E1. cbn [rest] in E1. simpl in E1.
  injection E1 as _ E1. rewrite E2, E3 in E1. simpl in E1.
  apply (run_split_unique (fun c => class_mem false key_class c = true)) in E1.
  - destruct E1 as [_ E1]. rewrite (HX z3 (eq_sym E1)) in Hy. destruct Hy.
  - eapply forallb_Forall_impl; [|exact Hkey]. intros a Ha.
    rewrite key_class_mem. exact Ha.
  - exact L2.
  - rewrite key_class_mem. vm_compute. discriminate.
Qed.

Lemma m_lit_chars : forall (l : jsstring) y tl,
  l <> [] -> rest y = l ++ tl -> m (lit_chars l) y = [after_word y l tl].
Proof.
  induction l as [|c l IH]; intros y tl Hne Hr; [congruence|].
  destruct l as [|c' l].
  - cbn [lit_chars m]. rewrite Hr. cbn [app]. rewrite N.eqb_refl. reflexivity.
  - change (m (lit_chars (c :: c' :: l)) y)
      with (flat_map (m (lit_chars (c' :: l))) (m (RChar c) y)).
    cbn [m]. rewrite Hr. cbn [app]. rewrite N.eqb_refl. cbn [flat_map].
    rewrite (IH (eat c (c' :: l ++ tl) y) tl); [reflexivity | discriminate | reflexivity].
Qed.

Lemma in_alts : forall (rs : list regex) (r : regex) z y,
  In r rs -> In z (m r y) -> In z (m (alts rs) y).
Proof.
  induction rs as [|r0 rs IH]; intros r z y Hr Hz; [destruct Hr|].
  destruct rs as [|r1 rs].
  - destruct Hr as [->|[]]. exact Hz.
  - change (m (alts (r0 :: r1 :: rs)) y) with (m r0 y ++ m (alts (r1 :: rs)) y).
    apply in_or_app. destruct Hr as [->|Hr]; [left; exact Hz | right].
    apply (IH r); assumption.
Qed.

Lemma boundary_class_mem c : class_mem false [one "&"; CSpace] c = is_boundary c.
Proof.
  unfold class_mem, is_boundary. change (one "&") with (CChar 38).
  cbn [existsb item_mem xorb]. rewrite orb_false_r. reflexivity.
Qed.

Lemma value_end_at_boundary z b post :
  rest z = b :: post -> is_boundary b = true -> m Rules.value_end z <> [].
Proof.
  intros Hr Hb.
  change (m Rules.value_end z)
    with (match m (RClass false [one "&"; CSpace]) z ++ m REnd z with
          | y :: _ => [ {| prev := prev z; rest := rest z; caps := caps y |} ]
          | [] => []
          end).
  cbn [m]. rewrite Hr, boundary_class_mem, Hb. discriminate.
Qed.

(** Before a boundary the negative lookahead of the query-value rule
    finds the flag, whatever comes after the boundary. *)
Lemma other_value_blocked b post :
  is_boundary b = true ->
  forall y, rest y = flag ++ b :: post -> m other_value y = [].
Proof.
  intros Hb y Hr.
  set (A := cat [alts [lit "true"; lit "false"; lit "1"; lit "0"; lit "yes";
                       lit "no"];
                 Rules.value_end]).
  set (B := cat [RGroup 3 (plus (cls [Rules.upper; Rules.lower; Rules.num;
                                       one "_"; one "-"]));
                 Rules.value_end]).
  change (m other_value y) with (flat_map (m B) (m (RLook false A) y)).
  assert (HA : m A y <> []).
  { set (z := after_word y flag (b :: post)).
    assert (Hz : In z (m (alts [lit "true"; lit "false"; lit "1"; lit "0";
                                lit "yes"; lit "no"]) y)).
    { assert (Hlit : exists f, In (lit f) [lit "true"; lit "false"; lit "1";
                                            lit "0"; lit "yes"; lit "no"]
                               /\ flag = str f /\ str f <> []).
      { pose proof Hflag as Hin. simpl in Hin.
        destruct Hin as [<-|[<-|[<-|[<-|[<-|[<-|[]]]]]]];
          [exists "true"%string | exists "false"%string | exists "1"%string
          | exists "0"%string | exists "yes"%string | exists "no"%string];
          (split; [simpl; tauto | split; [reflexivity | discriminate]]). }
      destruct Hlit as (f & Hin & Ef & Hne).
      apply (in_alts _ (lit f)); [exact Hin|].
      unfold lit. rewrite (m_lit_chars (str f) y (b :: post) Hne).
      - left. unfold z. rewrite Ef. reflexivity.
      - rewrite Hr, Ef. reflexivity. }
    pose proof (value_end_at_boundary z b post eq_refl Hb) as Hv.
    destruct (m Rules.value_end z) as [|z' l] eqn:Ev; [congruence|].
    intros Habs.
    assert (Hin : In z' (m A y)).
    { change (m A y)
        with (flat_map (m Rules.value_end)
                (m (alts [lit "true"; lit "false"; lit "1"; lit "0"; lit "yes";
                          lit "no"]) y)).
      apply in_flat_map. exists z. split; [exact Hz|]. rewrite Ev. left. reflexivity. }
    rewrite Habs in Hin. destruct Hin. }
  cbn [m]. destruct (m A y); [congruence | reflexivity].
Qed.

Lemma tail_not_sep :
  Forall (fun c => is_sep c = false) (key ++ 61 :: flag).
Proof.
  apply Forall_app. split; [|constructor; [reflexivity|]].
  - eapply forallb_Forall_impl; [|exact Hkey]. intros c. unfold key_char, is_sep.
    intros H. charb.
  - destruct (flag_facts flag Hflag) as (_ & _ & _ & _ & H).
    eapply forallb_Forall_impl; [|exact H]. intros c Hc.
    apply negb_true_iff, Hc.
Qed.

Lemma param_rule_skips (X : regex) tmpl :
  (forall y, rest y = flag -> m X y = []) ->
  replace_all (cat (Rules.param_key ++ [X])) tmpl subject = subject.
Proof.
  intros HX. unfold replace_all.
  assert (Hn : nullable (cat (Rules.param_key ++ [X])) = false) by reflexivity.
  assert (Hf : forall c, firstc (cat (Rules.param_key ++ [X])) c = is_sep c).
  { intros c.
    change (firstc (cat (Rules.param_key ++ [X])) c)
      with (class_mem false [one "?"; one "&"] c || false).
    rewrite orb_false_r. apply sep_class_mem. }
  unfold flag_subject at 1. rewrite scan_fail.
  2:{ apply exec_none, (param_rule_at_sep X None flag), HX. }
  unfold flag_subject. f_equal.
  rewrite <- (app_nil_r (key ++ 61 :: flag)) at 1.
  rewrite scan_by_first, scan_nil, app_nil_r; [reflexivity | exact Hn | exact Hn |].
  eapply Forall_impl; [exact tail_not_sep|]. intros c Hc. rewrite Hf. exact Hc.
Qed.

Lemma hex_literal_skips tmpl :
  replace_all Rules.hex_literal tmpl subject = subject.
Proof.
  unfold replace_all, flag_subject.
  change (sep :: key ++ 61 :: flag) with ((sep :: key) ++ 61 :: flag).
  assert (Hf : forall c, c <> 48 -> firstc Rules.hex_literal c = false).
  { intros c Hc. apply N.eqb_neq in Hc.
    change (firstc Rules.hex_literal c)
      with ((c =? 48) || false && (c =? 120) || false && firstc (plus Rules.hexdigit ) c).
    rewrite Hc. reflexivity. }
  replace ((sep :: key) ++ 61 :: flag) with ((sep :: key ++ [61]) ++ flag)
    by (simpl; rewrite <- app_assoc; reflexivity).
  rewrite scan_by_first; [| reflexivity |].
  - f_equal. apply scan_quiet; [reflexivity|].
    apply (flag_facts flag Hflag).
  - constructor.
    + apply Hf. unfold is_sep in Hsep. charb.
    + apply Forall_app. split; [|constructor; [apply Hf; discriminate | constructor]].
      eapply forallb_Forall_impl; [|exact Hkey]. intros c. unfold key_char.
      intros H. apply Hf. charb.
Qed.

(** The query-value rule copies a flag-valued parameter that stands
    before a boundary and goes on after it. *)
Lemma query_value_passes b post p tmpl :
  is_boundary b = true ->
  scan Rules.query_value tmpl O p (subject ++ b :: post)
  = subject ++ scan Rules.query_value tmpl O (prev_after p subject) (b :: post).
Proof.
  intros Hb.
  destruct param_rules_shape as (_ & _ & Eval). rewrite Eval.
  set (r := cat (Rules.param_key ++ [other_value])).
  assert (Hn : nullable r = false) by reflexivity.
  assert (Hf : forall c, firstc r c = is_sep c).
  { intros c.
    change (firstc r c) with (class_mem false [one "?"; one "&"] c || false).
    rewrite orb_false_r. apply sep_class_mem. }
  unfold flag_subject. cbn [app]. rewrite scan_fail.
  2:{ apply exec_none.
      replace ((key ++ 61 :: flag) ++ b :: post)
        with (key ++ 61 :: (flag ++ b :: post))
        by (rewrite <- app_assoc; reflexivity).
      apply (param_rule_at_sep other_value p (flag ++ b :: post)).
      apply other_value_blocked, Hb. }
  f_equal. rewrite scan_by_first; [reflexivity | exact Hn |].
  eapply Forall_impl; [exact tail_not_sep|]. intros c Hc. rewrite Hf. exact Hc.
Qed.

Lemma subject_punct : occ q_punct subject = O.
Proof.
  unfold flag_subject. cbn [occ]. rewrite occ_app. cbn [occ].
  destruct (flag_facts flag Hflag) as (-> & _).
  rewrite (occ_zero_forallb q_punct key_char key); [| | assumption].
  - replace (q_punct sep) with false; [reflexivity|].
    symmetry. unfold q_punct. unfold is_sep in Hsep. charb.
  - intros c. unfold q_punct, key_char. intros H. charb.
Qed.

Lemma subject_digits : (occ is_digit subject <= 1)%nat.
Proof.
  unfold flag_subject. cbn [occ]. rewrite occ_app. cbn [occ].
  destruct (flag_facts flag Hflag) as (_ & Hd & _).
  rewrite (occ_zero_forallb is_digit key_char key); [| | assumption].
  - replace (is_digit sep) with false; [simpl; exact Hd|].
    symmetry. unfold is_sep in Hsep. charb.
  - intros c. unfold key_char. intros H. charb.
Qed.

Lemma flag_value_kept :
  normalize_string subject = subject.
Proof.
  destruct (flag_facts flag Hflag) as (_ & _ & HX & _).
  destruct param_rules_shape as (Ehex & Elong & Eval).
  apply apply_rules_fixed. unfold rules.
  repeat (apply List.Forall_cons; [cbn [fst snd] |]); [.. | apply List.Forall_nil];
    first
      [ apply (replace_all_by_count q_punct); rewrite subject_punct;
        vm_compute; lia
      | apply (replace_all_by_count is_digit);
        eapply Nat.le_lt_trans; [exact subject_digits | vm_compute; lia]
      | rewrite Ehex; apply param_rule_skips; intros y Hy; apply (HX y Hy)
      | rewrite Elong; apply param_rule_skips; intros y Hy; apply (HX y Hy)
      | rewrite Eval; apply param_rule_skips; intros y Hy; apply (HX y Hy)
      | apply hex_literal_skips ].
Qed.

End FlagValue.

Lemma contains_absent (q : char -> bool) (x : char) (n : jsstring) :
  q x = true -> forall s : jsstring, occ q s = O -> contains (x :: n) s = false.
Proof.
  intros Hx. induction s as [|b h IH]; intros Hs; [reflexivity|].
  simpl in Hs. cbn [contains starts_with].
  destruct (N.eqb_spec x b) as [->|_].
  - rewrite Hx in Hs. discriminate.
  - rewrite IH; [reflexivity|]. destruct (q b); [discriminate | exact Hs].
Qed.

(** C9: a query parameter whose value is one of the flag literals
    true, false, 1, 0, yes, no is preserved.  When the parameter is the
    whole input it is returned as it is and [QUERY_VALUE] does not
    appear; when it is followed by an ampersand or white space and any
    further text, the query-value rule copies it unchanged. *)
Theorem C9_flag_values_preserved (sep : char) (key flag : jsstring) :
  is_sep sep = true ->
  forallb key_char key = true ->
  In flag flag_literals ->
  normalizeErrorPattern (JString (sep :: key ++ str "=" ++ flag))
  = sep :: key ++ str "=" ++ flag /\
  contains (str "[QUERY_VALUE]")
           (normalizeErrorPattern (JString (sep :: key ++ str "=" ++ flag)))
  = false /\
  (forall (b : char) (post : jsstring),
      is_boundary b = true ->
      exists out : jsstring,
        replace_all Rules.query_value (str "$1$2=[QUERY_VALUE]")
          ((sep :: key ++ str "=" ++ flag) ++ b :: post)
        = (sep :: key ++ str "=" ++ flag) ++ out).
Proof.
  intros Hsep Hkey Hflag.
  assert (E : normalizeErrorPattern (JString (sep :: key ++ str "=" ++ flag))
              = sep :: key ++ str "=" ++ flag).
  { rewrite normalize_of_string. apply flag_value_kept; assumption. }
  split; [exact E|]. rewrite E. split.
  - apply (contains_absent q_punct); [reflexivity|].
    apply subject_punct; assumption.
  - intros b post Hb. eexists. unfold replace_all.
    change (sep :: key ++ str "=" ++ flag) with (flag_subject sep key flag).
    apply query_value_passes; assumption.
Qed.

Lemma C9_flag_values_preserved_witness :
  let sep := ch "?" in
  let key := str "debug" in
  let flag := str "true" in
  (is_sep sep = true /\ forallb key_char key = true /\ In flag flag_literals) /\
  (normalizeErrorPattern (JString (sep :: key ++ str "=" ++ flag))
   = sep :: key ++ str "=" ++ flag /\
   contains (str "[QUERY_VALUE]")
            (normalizeErrorPattern (JString (sep :: key ++ str "=" ++ flag)))
   = false /\
   (forall (b : char) (post : jsstring),
       is_boundary b = true ->
       exists out : jsstring,
         replace_all Rules.query_value (str "$1$2=[QUERY_VALUE]")
           ((sep :: key ++ str "=" ++ flag) ++ b :: post)
         = (sep :: key ++ str "=" ++ flag) ++ out)).
Proof.
  split.
  - repeat split. left. reflexivity.
  - apply (C9_flag_values_preserved (ch "?") (str "debug") (str "true")).
    + reflexivity.
    + reflexivity.
    + left. reflexivity.
Defined.

(** The same holds before an ampersand or a space, and any other value
    is masked. *)
Example flag_before_boundary :
  normalize_string (str "?debug=true&verbose=1 &dry_run=no")
  = str "?debug=true&verbose=1 &dry_run=no" /\
  normalize_string (str "?debug=maybe&verbose=2")
  = str "?debug=[QUERY_VALUE]&verbose=[QUERY_VALUE]".
Proof. vm_compute. split; reflexivity. Qed.
(** * Waterfall classification *)

Section WaterfallFacts.

Import Waterfall.

Variable logger_signature : jsstring -> jsstring -> jsstring.

Local Abbreviation classify := (Waterfall.classify logger_signature).

(** C3: a record that has exceptionClass, ruleName and ruleType is
    classified at Level 1, whatever its loggerName and message are; it
    is never classified at Level 2 or Level 3. *)
Theorem C3_level1_exclusive (r : LogRecord) (e n t : jsstring) :
  exceptionClass r = Some e -> ruleName r = Some n -> ruleType r = Some t ->
  level (classify r) = RuleFailure /\
  level (classify r) <> LoggerPattern /\
  level (classify r) <> Unclassified /\
  fingerprint_input (classify r) = [e; n; t].
Proof.
  intros He Hn Ht. unfold Waterfall.classify. rewrite He, Hn, Ht. cbn.
  repeat split; discriminate.
Qed.

(** Every record gets a level: without the Level 1 fields, a logger name
    with a non-empty message gives Level 2 and anything else Level 3. *)
Lemma classify_fallback (r : LogRecord) :
  (exceptionClass r = None \/ ruleName r = None \/ ruleType r = None) ->
  level (classify r) = LoggerPattern \/ level (classify r) = Unclassified.
Proof.
  intros H. unfold Waterfall.classify.
  destruct (exceptionClass r), (ruleName r), (ruleType r);
    try (destruct H as [H|[H|H]]; discriminate);
    destruct (loggerName r), (msg r) as [[|c t]|]; cbn; auto.
Qed.

End WaterfallFacts.

Lemma C3_level1_exclusive_witness :
  let r := {| Waterfall.msg := Some (str "Lock failure on DB for 192.168.1.5");
              Waterfall.loggerName := Some (str "com.pega.DB");
              Waterfall.exceptionClass := Some (str "NullPointerException");
              Waterfall.ruleName := Some (str "CalculateTax");
              Waterfall.ruleType := Some (str "Activity") |} in
  (Waterfall.exceptionClass r = Some (str "NullPointerException") /\
   Waterfall.ruleName r = Some (str "CalculateTax") /\
   Waterfall.ruleType r = Some (str "Activity")) /\
  (Waterfall.level (Waterfall.classify app r) = Waterfall.RuleFailure /\
   Waterfall.level (Waterfall.classify app r) <> Waterfall.LoggerPattern /\
   Waterfall.level (Waterfall.classify app r) <> Waterfall.Unclassified /\
   Waterfall.fingerprint_input (Waterfall.classify app r)
   = [str "NullPointerException"; str "CalculateTax"; str "Activity"]).
Proof.
  split.
  - repeat split.
  - apply (C3_level1_exclusive app
             {| Waterfall.msg := Some (str "Lock failure on DB for 192.168.1.5");
                Waterfall.loggerName := Some (str "com.pega.DB");
                Waterfall.exceptionClass := Some (str "NullPointerException");
                Waterfall.ruleName := Some (str "CalculateTax");
                Waterfall.ruleType := Some (str "Activity") |});
      reflexivity.
Defined.

(** The example scenarios 2 to 4 of the specification. *)
Example scenario_rule_failure :
  let c := Waterfall.classify app
             {| Waterfall.msg := None; Waterfall.loggerName := None;
                Waterfall.exceptionClass := Some (str "NullPointerException");
                Waterfall.ruleName := Some (str "CalculateTax");
                Waterfall.ruleType := Some (str "Activity") |} in
  Waterfall.level c = Waterfall.RuleFailure /\
  Waterfall.signature c = str "NullPointerException | CalculateTax | Activity".
Proof. vm_compute. split; reflexivity. Qed.

Example scenario_logger_pattern :
  let c := Waterfall.classify app
             {| Waterfall.msg := Some (str "Lock failure on DB for 192.168.1.5");
                Waterfall.loggerName := Some (str "com.pega.DB");
                Waterfall.exceptionClass := None;
                Waterfall.ruleName := None;
                Waterfall.ruleType := None |} in
  Waterfall.level c = Waterfall.LoggerPattern /\
  Waterfall.fingerprint_input c
  = [str "Lock failure on DB for [IP]"; str "com.pega.DB"].
Proof. vm_compute. split; reflexivity. Qed.

Example scenario_unclassified :
  let c := Waterfall.classify app
             {| Waterfall.msg := Some (str "unexpected token at 0x1A2B");
                Waterfall.loggerName := None;
                Waterfall.exceptionClass := None;
                Waterfall.ruleName := None;
                Waterfall.ruleType := None |} in
  Waterfall.level c = Waterfall.Unclassified /\
  Waterfall.signature c = str "unexpected token at [HEX]".
Proof. vm_compute. split; reflexivity. Qed.

(** * Checkpointed batch ingestion *)

Section IngestFacts.

Import Ingest.

Context {K : Type} `{Countable K}.

Variable Rec : Type.
Variable ts : Rec -> nat.
Variable fp : Rec -> K.
Variable page_size : nat.

Local Abbreviation pending := (Ingest.pending Rec ts).
Local Abbreviation page_mark := (Ingest.page_mark Rec ts).
Local Abbreviation process_page := (Ingest.process_page Rec ts fp).
Local Abbreviation scroll := (Ingest.scroll Rec ts fp page_size).
Local Abbreviation pass := (Ingest.pass Rec ts fp page_size).
Local Abbreviation aborted_pass := (Ingest.aborted_pass Rec ts fp page_size).
Local Abbreviation aggregate := (Ingest.aggregate Rec ts fp).
Local Abbreviation hits := (Ingest.hits Rec fp).
Local Abbreviation nth_page := (Ingest.nth_page Rec page_size).
Local Abbreviation skipped := (Ingest.skipped Rec ts page_size).

(** ** The scroll *)

Lemma scroll_nil pages st : scroll pages [] st = st.
Proof. destruct pages; reflexivity. Qed.

Lemma scroll_add a : forall b cursor st,
  scroll (a + b) cursor st
  = scroll b (drop (a * page_size) cursor) (scroll a cursor st).
Proof.
  induction a as [|a IH]; intros b cursor st; [reflexivity|].
  destruct cursor as [|r c].
  - simpl. rewrite drop_nil. destruct (a + b)%nat; rewrite ?scroll_nil; reflexivity.
  - cbn [Nat.add Ingest.scroll]. rewrite IH, drop_drop. reflexivity.
Qed.

(** Fuel beyond the number of pages changes nothing. *)
Lemma scroll_enough a : forall b cursor st,
  (0 < page_size)%nat ->
  (length cursor <= a * page_size)%nat ->
  (length cursor <= b * page_size)%nat ->
  scroll a cursor st = scroll b cursor st.
Proof.
  induction a as [|a IH]; intros b cursor st Hp Ha Hb.
  - destruct cursor; [|simpl in Ha; lia]. rewrite !scroll_nil. reflexivity.
  - destruct cursor as [|r c]; [rewrite !scroll_nil; reflexivity|].
    destruct b as [|b]; [simpl in Hb; lia|].
    cbn [Ingest.scroll]. apply IH; [assumption | |]; rewrite length_drop; simpl in *; lia.
Qed.

Lemma page_mark_app cp l1 l2 :
  page_mark (page_mark cp l1) l2 = page_mark cp (l1 ++ l2).
Proof.
  unfold Ingest.page_mark. destruct l2 as [|x l2] using rev_ind.
  - rewrite app_nil_r. reflexivity.
  - rewrite app_assoc, !last_snoc. reflexivity.
Qed.

Lemma scroll_checkpoint a : forall cursor st,
  checkpoint (scroll a cursor st)
  = page_mark (checkpoint st) (take (a * page_size) cursor).
Proof.
  induction a as [|a IH]; intros cursor st; [reflexivity|].
  destruct cursor as [|r c]; [rewrite take_nil; reflexivity|].
  cbn [Ingest.scroll]. rewrite IH.
  cbn [Ingest.process_page Ingest.advance Ingest.flush_page checkpoint].
  rewrite page_mark_app, take_take_drop. reflexivity.
Qed.

(** ** Resuming strictly after the checkpoint *)

Lemma increasing_cons a l :
  increasing (a :: l) = true -> Forall (lt a) l /\ increasing l = true.
Proof.
  revert a. induction l as [|b l IH]; intros a Hinc; [split; [constructor | reflexivity]|].
  cbn [increasing] in Hinc. apply andb_true_iff in Hinc as [Hab Hl].
  apply Nat.ltb_lt in Hab. split; [|exact Hl].
  constructor; [exact Hab|].
  destruct (IH b Hl) as [Hb _].
  eapply Forall_impl; [exact Hb|]. intros x Hx. simpl in Hx. lia.
Qed.

Lemma increasing_filter (f : Rec -> bool) : forall l,
  increasing (map ts l) = true -> increasing (map ts (List.filter f l)) = true.
Proof.
  induction l as [|x l IH]; intros Hinc; [reflexivity|].
  apply increasing_cons in Hinc as [Hx Hl]. specialize (IH Hl).
  simpl. destruct (f x); [|exact IH].
  assert (Hx' : Forall (lt (ts x)) (map ts (List.filter f l))).
  { apply List.Forall_forall. intros t Ht.
    apply in_map_iff in Ht as (r & <- & Hr). apply filter_In in Hr as [Hr _].
    rewrite List.Forall_forall in Hx. apply Hx. apply in_map, Hr. }
  destruct (List.filter f l) as [|y l']; [reflexivity|].
  cbn [map increasing] in *. rewrite IH, andb_true_r.
  apply Nat.ltb_lt. inversion Hx'; assumption.
Qed.

Lemma filter_all_true (f : Rec -> bool) (l : list Rec) :
  Forall (fun r => f r = true) l -> List.filter f l = l.
Proof.
  induction 1 as [|x l Hx _ IH]; simpl; [reflexivity | rewrite Hx, IH; reflexivity].
Qed.

Lemma filter_narrow (f g : Rec -> bool) : forall l,
  (forall r, g r = true -> f r = true) ->
  List.filter g (List.filter f l) = List.filter g l.
Proof.
  induction l as [|x l IH]; intros Hgf; [reflexivity|].
  simpl. destruct (f x) eqn:Ef; simpl.
  - rewrite IH by assumption. reflexivity.
  - destruct (g x) eqn:Eg; [rewrite (Hgf x Eg) in Ef; discriminate|].
    apply IH, Hgf.
Qed.

Lemma last_take_In (l : list Rec) (j : nat) (r0 : Rec) :
  last (take j l) = Some r0 -> In r0 l.
Proof.
  intros Hl. apply list_elem_of_In, (subseteq_take j l), last_Some_elem_of, Hl.
Qed.

(** In an increasing list the records after the last record of a
    non-empty prefix are the rest of the list. *)
Lemma after_prefix : forall (l : list Rec) (j : nat) (r0 : Rec),
  increasing (map ts l) = true ->
  last (take j l) = Some r0 ->
  List.filter (fun r => Nat.ltb (ts r0) (ts r)) l = drop j l.
Proof.
  induction l as [|x l IH]; intros j r0 Hinc Hlast.
  - rewrite take_nil in Hlast. discriminate.
  - destruct j as [|j]; [discriminate|].
    cbn [map] in Hinc. apply increasing_cons in Hinc as [Hx Hl].
    cbn [firstn skipn] in Hlast |- *.
    destruct (take j l) as [|y pre] eqn:Et.
    + injection Hlast as <-. cbn [List.filter].
      rewrite Nat.ltb_irrefl.
      assert (Ed : drop j l = l).
      { destruct j; [reflexivity|]. destruct l; [reflexivity | discriminate]. }
      rewrite Ed. apply filter_all_true.
      rewrite List.Forall_forall in Hx. apply List.Forall_forall. intros r Hr.
      apply Nat.ltb_lt, Hx, in_map, Hr.
    + assert (Hl0 : last (take j l) = Some r0).
      { rewrite Et. rewrite <- Hlast. reflexivity. }
      cbn [List.filter].
      assert (Hr0 : (ts x < ts r0)%nat).
      { rewrite List.Forall_forall in Hx. apply Hx, in_map.
        apply (last_take_In l j), Hl0. }
      replace (Nat.ltb (ts r0) (ts x)) with false
        by (symmetry; apply Nat.ltb_ge; lia).
      apply IH; assumption.
Qed.

(** ** Counts *)

Lemma hits_app key (l1 l2 : list Rec) :
  hits key (l1 ++ l2) = (hits key l1 + hits key l2)%nat.
Proof. unfold Ingest.hits. rewrite List.filter_app, length_app. reflexivity. Qed.

Lemma aggregate_from (page : list Rec) : forall (acc : gmap K Delta) key,
  delta_count
    (fold_left (fun acc r => partial_alter (bump Rec ts r) (fp r) acc) page acc
     !! key)
  = (delta_count (acc !! key) + hits key page)%nat.
Proof.
  induction page as [|r page IH]; intros acc key.
  - cbn. lia.
  - cbn [fold_left]. rewrite IH. unfold Ingest.hits. cbn [List.filter].
    destruct (decide (fp r = key)) as [E|E].
    + rewrite (bool_decide_eq_true_2 _ E). subst key.
      rewrite lookup_partial_alter_eq.
      destruct (acc !! fp r); cbn; lia.
    + rewrite (bool_decide_eq_false_2 _ E).
      rewrite lookup_partial_alter_ne by exact E. reflexivity.
Qed.

(** The mapping of a page counts the records of each fingerprint. *)
Lemma aggregate_count (page : list Rec) key :
  delta_count (aggregate page !! key) = hits key page.
Proof.
  unfold Ingest.aggregate. rewrite aggregate_from, lookup_empty. reflexivity.
Qed.

(** The additive upsert: a flush adds the count of the mapping. *)
Lemma flush_count (agg : gmap K Delta) st key :
  count_of (flush_page st agg) key = (count_of st key + delta_count (agg !! key))%nat.
Proof.
  unfold Ingest.count_of, Ingest.flush_page, Ingest.flush. cbn [store].
  rewrite lookup_merge.
  destruct (store st !! key), (agg !! key); cbn; lia.
Qed.

Lemma written_part_count (written : K -> bool) (agg : gmap K Delta) key :
  delta_count (written_part written agg !! key)
  = if written key then delta_count (agg !! key) else O.
Proof.
  unfold Ingest.written_part.
  destruct (filter (fun kd : K * Delta => written kd.1 = true) agg !! key)
    as [d|] eqn:E.
  - apply map_lookup_filter_Some in E as [E1 E2]. cbn in E2.
    rewrite E1, E2. reflexivity.
  - apply map_lookup_filter_None in E.
    destruct (written key) eqn:Ew; [|reflexivity].
    destruct E as [E|E]; [rewrite E; reflexivity|].
    destruct (agg !! key) as [d|] eqn:Ea; [|reflexivity].
    exfalso. apply (E d); [reflexivity | exact Ew].
Qed.

Lemma advance_count (st : State) (page : list Rec) (key : K) :
  count_of (advance Rec ts st page) key = count_of st key.
Proof. reflexivity. Qed.

(** A scroll adds, for each fingerprint, its records on the pages it
    has worked through. *)
Lemma scroll_count a : forall cursor st key,
  count_of (scroll a cursor st) key
  = (count_of st key + hits key (take (a * page_size) cursor))%nat.
Proof.
  induction a as [|a IH]; intros cursor st key.
  - cbn. unfold Ingest.hits. rewrite take_0. cbn. lia.
  - destruct cursor as [|r c].
    + rewrite scroll_nil, take_nil. unfold Ingest.hits. cbn. lia.
    + cbn [Ingest.scroll]. rewrite IH. unfold Ingest.process_page.
      rewrite advance_count, flush_count, aggregate_count.
      rewrite <- Nat.add_assoc, <- hits_app. f_equal. f_equal.
      change (S a * page_size)%nat with (page_size + a * page_size)%nat.
      rewrite <- (take_drop page_size (take (page_size + a * page_size) (r :: c))).
      rewrite take_take, skipn_firstn_comm.
      f_equal; f_equal; lia.
Qed.

Lemma pass_count src st key :
  (0 < page_size)%nat ->
  count_of (pass src st) key
  = (count_of st key + hits key (pending src (checkpoint st)))%nat.
Proof.
  intros Hp. unfold Ingest.pass. rewrite scroll_count, take_ge; [reflexivity|]. nia.
Qed.

(** ** Rerunning after an abort *)

Lemma aborted_checkpoint src st k written :
  checkpoint (aborted_pass k written src st)
  = page_mark (checkpoint st)
      (take (k * page_size) (pending src (checkpoint st))).
Proof.
  unfold Ingest.aborted_pass. cbn [Ingest.flush_page checkpoint].
  apply scroll_checkpoint.
Qed.

(** *** A source in timestamp order *)

Lemma sorted_cons a l :
  sorted (a :: l) = true -> Forall (le a) l /\ sorted l = true.
Proof.
  revert a. induction l as [|b l IH]; intros a Hs; [split; [constructor | reflexivity]|].
  change (sorted (a :: b :: l)) with (Nat.leb a b && sorted (b :: l)) in Hs.
  apply andb_true_iff in Hs as [Hab Hl].
  apply Nat.leb_le in Hab. split; [|exact Hl].
  constructor; [exact Hab|].
  destruct (IH b Hl) as [Hb _].
  eapply Forall_impl; [exact Hb|]. intros x Hx. cbv beta in Hx. lia.
Qed.

Lemma sorted_from a l :
  Forall (le a) l -> sorted l = true -> sorted (a :: l) = true.
Proof.
  intros Ha Hl. destruct l as [|b l]; [reflexivity|].
  change (sorted (a :: b :: l)) with (Nat.leb a b && sorted (b :: l)).
  inversion Ha; subst. rewrite Hl, andb_true_r.
  apply Nat.leb_le. assumption.
Qed.

Lemma increasing_sorted l : increasing l = true -> sorted l = true.
Proof.
  induction l as [|a l IH]; intros Hi; [reflexivity|].
  destruct l as [|b l]; [reflexivity|].
  change (increasing (a :: b :: l)) with (Nat.ltb a b && increasing (b :: l)) in Hi.
  apply andb_true_iff in Hi as [Hab Hl].
  change (sorted (a :: b :: l)) with (Nat.leb a b && sorted (b :: l)).
  rewrite (IH Hl), andb_true_r.
  apply Nat.ltb_lt in Hab. apply Nat.leb_le. lia.
Qed.

Lemma sorted_filter (f : Rec -> bool) : forall l,
  sorted (map ts l) = true -> sorted (map ts (List.filter f l)) = true.
Proof.
  induction l as [|x l IH]; intros Hs; [reflexivity|].
  cbn [map] in Hs. apply sorted_cons in Hs as [Hx Hl]. specialize (IH Hl).
  cbn [List.filter]. destruct (f x); [|exact IH].
  cbn [map]. apply sorted_from; [|exact IH].
  apply List.Forall_forall. intros t Ht.
  apply in_map_iff in Ht as (r & <- & Hr). apply filter_In in Hr as [Hr _].
  rewrite List.Forall_forall in Hx. apply Hx, in_map, Hr.
Qed.

(** In a sorted list the records before a position are not later than
    the record just before it, and those after it are not earlier. *)
Lemma sorted_split : forall (l : list Rec) (j : nat) (r0 : Rec),
  sorted (map ts l) = true ->
  last (take j l) = Some r0 ->
  Forall (fun r => ts r <= ts r0)%nat (take j l)
  /\ Forall (fun r => ts r0 <= ts r)%nat (drop j l).
Proof.
  induction l as [|x l IH]; intros j r0 Hs Hlast.
  - rewrite take_nil in Hlast. discriminate.
  - destruct j as [|j]; [discriminate|].
    cbn [map] in Hs. apply sorted_cons in Hs as [Hx Hl].
    cbn [firstn skipn] in Hlast |- *.
    destruct (take j l) as [|y pre] eqn:Et.
    + injection Hlast as <-. split; [repeat constructor|].
      apply List.Forall_forall. intros r Hr.
      rewrite List.Forall_forall in Hx. apply Hx, in_map.
      apply list_elem_of_In. apply list_elem_of_In in Hr.
      eapply (subseteq_drop j l). exact Hr.
    + assert (Hl0 : last (take j l) = Some r0).
      { rewrite Et. rewrite <- Hlast. reflexivity. }
      destruct (IH j r0 Hl Hl0) as [H1 H2]. rewrite Et in H1.
      split; [|exact H2]. constructor; [|exact H1].
      rewrite List.Forall_forall in Hx. apply Hx, in_map.
      apply (last_take_In l j), Hl0.
Qed.

Lemma filter_none (f : Rec -> bool) (l : list Rec) :
  Forall (fun r => f r = false) l -> List.filter f l = [].
Proof.
  induction 1 as [|x l Hx _ IH]; cbn [List.filter]; [reflexivity | rewrite Hx; exact IH].
Qed.

(** The cursor of the rerun: the records of the remaining pages that
    are later than the last checkpointed record. *)
Lemma pending_resume src cp j r0 :
  sorted (map ts src) = true ->
  last (take j (pending src cp)) = Some r0 ->
  pending src (Some (ts r0))
  = List.filter (fun r => Nat.ltb (ts r0) (ts r)) (drop j (pending src cp)).
Proof.
  intros Hs El. set (P := pending src cp) in *.
  assert (HsP : sorted (map ts P) = true) by (apply sorted_filter, Hs).
  destruct (sorted_split P j r0 HsP El) as [H1 _].
  unfold Ingest.pending at 1. cbn [after].
  rewrite <- (filter_narrow (fun r => after cp (ts r))).
  - fold (pending src cp). fold P.
    rewrite <- (take_drop j P) at 1. rewrite List.filter_app.
    rewrite filter_none; [reflexivity|].
    eapply Forall_impl; [exact H1|]. intros r Hr. cbv beta in Hr.
    apply Nat.ltb_ge. exact Hr.
  - intros r Hr. apply Nat.ltb_lt in Hr.
    assert (Hin : In r0 P) by (apply (last_take_In _ j), El).
    apply filter_In in Hin as [_ H0].
    destruct cp as [c|]; [|reflexivity]. cbn [after] in *.
    apply Nat.ltb_lt in H0. apply Nat.ltb_lt. lia.
Qed.

Lemma hits_later_same key (t0 : nat) (l : list Rec) :
  Forall (fun r => t0 <= ts r)%nat l ->
  hits key l
  = (hits key (List.filter (fun r => Nat.ltb t0 (ts r)) l)
     + hits key (List.filter (fun r => Nat.eqb (ts r) t0) l))%nat.
Proof.
  induction 1 as [|x l Hx _ IH]; [reflexivity|].
  unfold Ingest.hits in *. cbn [List.filter].
  destruct (Nat.ltb_spec t0 (ts x)) as [Hlt|Hge].
  - replace (Nat.eqb (ts x) t0) with false by (symmetry; apply Nat.eqb_neq; lia).
    cbn [List.filter]. destruct (bool_decide (fp x = key)); cbn [length]; lia.
  - replace (Nat.eqb (ts x) t0) with true by (symmetry; apply Nat.eqb_eq; lia).
    cbn [List.filter]. destruct (bool_decide (fp x = key)); cbn [length]; lia.
Qed.

Lemma later_all (t0 : nat) (l : list Rec) :
  Forall (fun r => t0 <= ts r)%nat l ->
  List.filter (fun r => Nat.eqb (ts r) t0) l = [] ->
  List.filter (fun r => Nat.ltb t0 (ts r)) l = l.
Proof.
  induction 1 as [|x l Hx _ IH]; intros He; [reflexivity|].
  cbn [List.filter] in *.
  destruct (Nat.eqb_spec (ts x) t0) as [E|E]; [discriminate He|].
  replace (Nat.ltb t0 (ts x)) with true by (symmetry; apply Nat.ltb_lt; lia).
  rewrite (IH He). reflexivity.
Qed.

Lemma sorted_app_r (l1 l2 : list nat) :
  sorted (l1 ++ l2) = true -> sorted l2 = true.
Proof.
  induction l1 as [|a l1 IH]; intros Hs; [exact Hs|].
  cbn [app] in Hs. apply sorted_cons in Hs as [_ Hs]. apply IH, Hs.
Qed.

Lemma sorted_last_max (l : list Rec) (d : Rec) :
  sorted (map ts (l ++ [d])) = true -> Forall (fun r => ts r <= ts d)%nat l.
Proof.
  induction l as [|e l IH]; intros Hs; [constructor|].
  cbn [app map] in Hs. apply sorted_cons in Hs as [Hle Hs].
  constructor; [|apply IH, Hs].
  rewrite List.Forall_forall in Hle. apply Hle.
  rewrite map_app. apply in_or_app. right. left. reflexivity.
Qed.

(** The checkpoint after the records that are later than [r0] is the
    checkpoint after all records. *)
Lemma mark_later cp (A Dj : list Rec) (r0 : Rec) :
  last A = Some r0 ->
  Forall (fun r => ts r0 <= ts r)%nat Dj ->
  sorted (map ts Dj) = true ->
  page_mark (Some (ts r0)) (List.filter (fun r => Nat.ltb (ts r0) (ts r)) Dj)
  = page_mark cp (A ++ Dj).
Proof.
  intros El H2 HsD. unfold Ingest.page_mark.
  destruct Dj as [|d Dj' _] using rev_ind.
  - cbn [List.filter last]. rewrite app_nil_r, El. reflexivity.
  - rewrite app_assoc, last_snoc, List.filter_app. cbn [List.filter].
    apply Forall_app in H2 as [H2 Hd]. inversion Hd as [|? ? Hd0 _]; subst.
    destruct (Nat.ltb_spec (ts r0) (ts d)) as [Hlt|Hge].
    + rewrite last_snoc. reflexivity.
    + rewrite app_nil_r. assert (Ed : ts d = ts r0) by lia.
      rewrite filter_none; [cbn [last]; rewrite Ed; reflexivity|].
      pose proof (sorted_last_max _ _ HsD) as Hmax.
      apply List.Forall_forall. intros r Hr. apply Nat.ltb_ge.
      rewrite List.Forall_forall in Hmax. specialize (Hmax r Hr). lia.
Qed.

(** The cursor of the rerun and the records it skips. *)
Lemma rerun_cursor src st k written :
  sorted (map ts src) = true ->
  let P := pending src (checkpoint st) in
  let R := pending src (checkpoint (aborted_pass k written src st)) in
  (forall key, hits key (drop (k * page_size) P)
               = (hits key R + hits key (skipped k P))%nat)
  /\ (skipped k P = [] -> R = drop (k * page_size) P)
  /\ page_mark (checkpoint (aborted_pass k written src st)) R
     = page_mark (checkpoint st) P.
Proof.
  intros Hs P R. unfold R. rewrite aborted_checkpoint. fold P.
  unfold Ingest.skipped.
  assert (Ecp : page_mark (checkpoint st) (take (k * page_size) P)
                = match last (take (k * page_size) P) with
                  | Some r0 => Some (ts r0)
                  | None => checkpoint st
                  end) by reflexivity.
  rewrite Ecp. clear Ecp.
  destruct (last (take (k * page_size) P)) as [r0|] eqn:El.
  - assert (HsP : sorted (map ts P) = true) by (apply sorted_filter, Hs).
    destruct (sorted_split P _ r0 HsP El) as [_ H2].
    rewrite (pending_resume src (checkpoint st) (k * page_size) r0 Hs El). fold P.
    split; [|split].
    + intros key. apply hits_later_same, H2.
    + intros He. apply later_all; assumption.
    + transitivity (page_mark (checkpoint st)
                      (take (k * page_size) P ++ drop (k * page_size) P));
        [|rewrite take_drop; reflexivity].
      apply mark_later; [exact El | exact H2 |].
      rewrite <- (take_drop (k * page_size) P), map_app in HsP.
      apply sorted_app_r in HsP. exact HsP.
  - apply last_None in El. fold P.
    assert (ER : drop (k * page_size) P = P).
    { destruct (k * page_size)%nat as [|j]; [reflexivity|].
      destruct P; [reflexivity | discriminate]. }
    rewrite ER. split; [|split].
    + intros key. unfold Ingest.hits. cbn [List.filter length]. lia.
    + intros _. reflexivity.
    + reflexivity.
Qed.

Lemma take_all (l : list Rec) (n : nat) :
  (0 < page_size)%nat -> take (length l * page_size) l = l.
Proof. intros Hp. apply take_ge. nia. Qed.

(** The counts after the rerun: those of an uninterrupted pass, once
    more the records of the page whose upsert was written, and without
    the records that the rerun skips. *)
Lemma rerun_count src st k written key :
  (0 < page_size)%nat ->
  sorted (map ts src) = true ->
  (count_of (pass src (aborted_pass k written src st)) key
   + hits key (skipped k (pending src (checkpoint st))))%nat
  = (count_of (pass src st) key
     + if written key
       then hits key (nth_page k (pending src (checkpoint st)))
       else O)%nat.
Proof.
  intros Hp Hs. rewrite !pass_count by exact Hp.
  destruct (rerun_cursor src st k written Hs) as (Hh & _ & _).
  unfold Ingest.aborted_pass at 1.
  rewrite flush_count, scroll_count, written_part_count, aggregate_count.
  set (P := pending src (checkpoint st)) in *.
  rewrite <- (take_drop (k * page_size) P) at 4. rewrite hits_app, Hh.
  destruct (written key); lia.
Qed.

Lemma rerun_checkpoint src st k written :
  (0 < page_size)%nat ->
  sorted (map ts src) = true ->
  checkpoint (pass src (aborted_pass k written src st)) = checkpoint (pass src st).
Proof.
  intros Hp Hs. unfold Ingest.pass. rewrite !scroll_checkpoint.
  destruct (rerun_cursor src st k written Hs) as (_ & _ & Hm).
  rewrite !take_all by assumption. exact Hm.
Qed.

Lemma flush_nothing (written : K -> bool) (agg : gmap K Delta) st :
  (forall key, written key = false) ->
  flush_page st (written_part written agg) = st.
Proof.
  intros Hw. destruct st as [sto cp]. unfold Ingest.flush_page. cbn [store checkpoint].
  f_equal. apply map_eq. intros i. unfold Ingest.flush. rewrite lookup_merge.
  assert (E := written_part_count written agg i). rewrite Hw in E.
  destruct (written_part written agg !! i) as [d|] eqn:Ed.
  - destruct (sto !! i); cbn.
    + exfalso. apply map_lookup_filter_Some in Ed as [_ Ed]. cbn in Ed.
      rewrite Hw in Ed. discriminate.
    + exfalso. apply map_lookup_filter_Some in Ed as [_ Ed]. cbn in Ed.
      rewrite Hw in Ed. discriminate.
  - destruct (sto !! i); reflexivity.
Qed.

(** Rerunning after an abort that wrote nothing of its page, when the
    rerun skips no record, ends in the state of an uninterrupted pass. *)
Lemma resume_after_abort src st k written :
  (0 < page_size)%nat ->
  sorted (map ts src) = true ->
  skipped k (pending src (checkpoint st)) = [] ->
  (forall key, written key = false) ->
  pass src (aborted_pass k written src st) = pass src st.
Proof.
  intros Hp Hs Hk Hw. unfold Ingest.pass at 1.
  destruct (rerun_cursor src st k written Hs) as (_ & HR & _).
  rewrite (HR Hk).
  unfold Ingest.aborted_pass. rewrite flush_nothing by exact Hw.
  unfold Ingest.pass. set (P := pending src (checkpoint st)).
  rewrite <- scroll_add.
  apply scroll_enough; [exact Hp | | nia].
  rewrite length_drop. nia.
Qed.

(** Without two records of one timestamp the rerun skips nothing. *)
Lemma increasing_skips_nothing src cp k :
  increasing (map ts src) = true -> skipped k (pending src cp) = [].
Proof.
  intros Hi. unfold Ingest.skipped. set (P := pending src cp).
  destruct (last (take (k * page_size) P)) as [r0|] eqn:El; [|reflexivity].
  assert (HiP : increasing (map ts P) = true) by (apply increasing_filter, Hi).
  apply filter_none.
  pose proof (after_prefix P (k * page_size) r0 HiP El) as Ha.
  apply List.Forall_forall. intros r Hr.
  rewrite <- Ha in Hr. apply filter_In in Hr as [_ Hr].
  apply Nat.ltb_lt in Hr. apply Nat.eqb_neq. lia.
Qed.

(** ** The upsert *)



End IngestFacts.

(** C7, as stated, fails: a page that was flushed and not checkpointed
    is counted twice.  The timestamps strictly increase; the pass is
    aborted after the flush of its first page, before the checkpoint is
    advanced for it, with a second page still to come; the rerun reads
    the first page again and the additive upsert adds its two records a
    second time: 4 instead of 2. *)
Lemma C7_flushed_page_counted_twice :
  let src : list (nat * nat) := [(1, 7); (2, 7); (3, 9)]%nat in
  let st0 : Ingest.State :=
    {| Ingest.store := (∅ : gmap nat Ingest.Group); Ingest.checkpoint := None |} in
  let aborted :=
    Ingest.aborted_pass (nat * nat) fst snd 2 0 Ingest.after_flush src st0 in
  Ingest.increasing (map fst src) = true /\
  Ingest.checkpoint aborted = None /\
  Ingest.count_of aborted 7%nat = 2%nat /\
  Ingest.count_of (Ingest.pass (nat * nat) fst snd 2 src st0) 7%nat = 2%nat /\
  Ingest.count_of (Ingest.pass (nat * nat) fst snd 2 src aborted) 7%nat = 4%nat.
Proof. vm_compute. repeat split. Qed.

(** The claim also fails, for an abort that wrote nothing of its page,
    when two records share a timestamp across a page boundary: with
    pages of one record, the rerun resumes strictly after the timestamp
    of the checkpointed page and never reads the second record. *)
Example equal_timestamps_lose_records :
  let src : list (nat * nat) := [(1, 7); (1, 7)]%nat in
  let st0 : Ingest.State :=
    {| Ingest.store := (∅ : gmap nat Ingest.Group); Ingest.checkpoint := None |} in
  Ingest.count_of (Ingest.pass (nat * nat) fst snd 1 src st0) 7%nat = 2%nat /\
  Ingest.count_of (Ingest.pass (nat * nat) fst snd 1 src
              (Ingest.aborted_pass (nat * nat) fst snd 1 1 Ingest.before_flush
                 src st0)) 7%nat = 1%nat.
Proof. vm_compute. split; reflexivity. Qed.

(** C7 (amended): for a source in timestamp order, a pass that is
    aborted while it works on a page, and is rerun from the persisted
    checkpoint, ends with the checkpoint of an uninterrupted pass; for
    every fingerprint its count, plus the records that the rerun skips,
    is the count of an uninterrupted pass plus the number of that
    page's records whose upsert was written before the abort.  The
    rerun skips the records after the last checkpointed page that carry
    the timestamp of that page's last record; it skips nothing when no
    two records share a timestamp.  When it skips nothing, the counts
    are those of an uninterrupted pass exactly for the fingerprints of
    which nothing of the page was written, an abort that wrote nothing
    ends in the same store and checkpoint, and a page that was flushed
    without its checkpoint advance is counted twice. *)
Theorem C7_rerun_after_abort {K : Type} `{Countable K}
    (Rec : Type) (ts : Rec -> nat) (fp : Rec -> K) (page_size : nat)
    (src : list Rec) (st : Ingest.State) (k : nat) (written : K -> bool) :
  (0 < page_size)%nat ->
  Ingest.sorted (map ts src) = true ->
  let rerun :=
    Ingest.pass Rec ts fp page_size src
      (Ingest.aborted_pass Rec ts fp page_size k written src st) in
  let whole := Ingest.pass Rec ts fp page_size src st in
  let cursor := Ingest.pending Rec ts src (Ingest.checkpoint st) in
  let page := Ingest.nth_page Rec page_size k cursor in
  let lost := Ingest.skipped Rec ts page_size k cursor in
  Ingest.checkpoint rerun = Ingest.checkpoint whole /\
  (forall key : K,
      (Ingest.count_of rerun key + Ingest.hits Rec fp key lost)%nat
      = (Ingest.count_of whole key
         + if written key then Ingest.hits Rec fp key page else O)%nat) /\
  (Ingest.increasing (map ts src) = true -> lost = []) /\
  (lost = [] ->
   (forall key : K,
       Ingest.count_of rerun key
       = (Ingest.count_of whole key
          + if written key then Ingest.hits Rec fp key page else O)%nat) /\
   (forall key : K,
       Ingest.count_of rerun key = Ingest.count_of whole key
       <-> written key = false \/ Ingest.hits Rec fp key page = O) /\
   ((forall key, written key = false) -> rerun = whole)).
Proof.
  intros Hp Hs rerun whole cursor page lost.
  assert (Hc : forall key : K,
             (Ingest.count_of rerun key + Ingest.hits Rec fp key lost)%nat
             = (Ingest.count_of whole key
                + if written key then Ingest.hits Rec fp key page else O)%nat).
  { intros key. apply rerun_count; assumption. }
  split; [apply rerun_checkpoint; assumption|].
  split; [exact Hc|].
  split; [intros Hi; apply increasing_skips_nothing, Hi|].
  intros Hl.
  assert (Hc' : forall key : K,
             Ingest.count_of rerun key
             = (Ingest.count_of whole key
                + if written key then Ingest.hits Rec fp key page else O)%nat).
  { intros key. specialize (Hc key). rewrite Hl in Hc.
    change (Ingest.hits Rec fp key []) with O in Hc. lia. }
  split; [exact Hc'|]. split.
  - intros key. rewrite Hc'. destruct (written key).
    + split; [intros E; right; lia | intros [E|E]; [discriminate | lia]].
    + split; [intros _; left; reflexivity | intros _; lia].
  - intros Hw. apply resume_after_abort; assumption.
Qed.

Lemma C7_rerun_after_abort_witness :
  let src : list (nat * nat) := [(1, 7); (2, 7); (2, 9); (3, 9); (4, 7)]%nat in
  let st0 : Ingest.State :=
    {| Ingest.store := (∅ : gmap nat Ingest.Group); Ingest.checkpoint := None |} in
  let written : nat -> bool := Nat.eqb 9 in
  let rerun :=
    Ingest.pass (nat * nat) fst snd 2 src
      (Ingest.aborted_pass (nat * nat) fst snd 2 1 written src st0) in
  let whole := Ingest.pass (nat * nat) fst snd 2 src st0 in
  let cursor := Ingest.pending (nat * nat) fst src (Ingest.checkpoint st0) in
  let page := Ingest.nth_page (nat * nat) 2 1 cursor in
  let lost := Ingest.skipped (nat * nat) fst 2 1 cursor in
  ((0 < 2)%nat /\ Ingest.sorted (map fst src) = true) /\
  (page = [(2, 9); (3, 9)]%nat /\ lost = [(2, 9)]%nat /\
   Ingest.count_of whole 7%nat = 3%nat /\ Ingest.count_of whole 9%nat = 2%nat /\
   Ingest.count_of rerun 7%nat = 3%nat /\ Ingest.count_of rerun 9%nat = 3%nat) /\
  (Ingest.checkpoint rerun = Ingest.checkpoint whole /\
   (forall key : nat,
       (Ingest.count_of rerun key + Ingest.hits (nat * nat) snd key lost)%nat
       = (Ingest.count_of whole key
          + if written key then Ingest.hits (nat * nat) snd key page else O)%nat) /\
   (Ingest.increasing (map fst src) = true -> lost = []) /\
   (lost = [] ->
    (forall key : nat,
        Ingest.count_of rerun key
        = (Ingest.count_of whole key
           + if written key then Ingest.hits (nat * nat) snd key page else O)%nat) /\
    (forall key : nat,
        Ingest.count_of rerun key = Ingest.count_of whole key
        <-> written key = false \/ Ingest.hits (nat * nat) snd key page = O) /\
    ((forall key, written key = false) -> rerun = whole))).
Proof.
  split; [split; [lia | reflexivity]|].
  split; [vm_compute; repeat split|].
  apply (C7_rerun_after_abort (nat * nat) fst snd 2
           [(1, 7); (2, 7); (2, 9); (3, 9); (4, 7)]%nat
           {| Ingest.store := (∅ : gmap nat Ingest.Group); Ingest.checkpoint := None |}
           1 (Nat.eqb 9)).
  - lia.
  - reflexivity.
Defined.

(** * Diagnosis status in the operator's views *)

Section StatusFacts.

Import StatusSelect.





End StatusFacts.

(** * First matches *)

Section FirstMatch.

Implicit Types (r : regex) (w tl : jsstring) (st y : mstate).

Lemma first_seq r1 r2 st y1 y2 :
  first_match r1 st y1 -> first_match r2 y1 y2 -> first_match (RSeq r1 r2) st y2.
Proof.
  intros [l1 E1] [l2 E2]. unfold first_match. cbn [m]. rewrite E1. cbn [flat_map].
  rewrite E2. eexists. reflexivity.
Qed.

Lemma first_alt_l r1 r2 st y : first_match r1 st y -> first_match (RAlt r1 r2) st y.
Proof. intros [l E]. unfold first_match. cbn [m]. rewrite E. eexists. reflexivity. Qed.

Lemma first_alt_r r1 r2 st y :
  m r1 st = [] -> first_match r2 st y -> first_match (RAlt r1 r2) st y.
Proof. intros E1 [l E]. unfold first_match. cbn [m]. rewrite E1, E. eexists. reflexivity. Qed.

Lemma after_word_app st w1 w2 tl1 tl :
  after_word (after_word st w1 tl1) w2 tl = after_word st (w1 ++ w2) tl.
Proof. unfold after_word. cbn [prev caps]. rewrite prev_after_app. reflexivity. Qed.

Lemma after_word_one st c tl : after_word st [c] tl = eat c tl st.
Proof. reflexivity. Qed.

Lemma first_char c st tl :
  rest st = c :: tl -> first_match (RChar c) st (eat c tl st).
Proof.
  intros Hr. exists []. cbn [m]. rewrite Hr, N.eqb_refl. reflexivity.
Qed.

(** Exactly [n] members of a class. *)
Lemma rep_min_exactly neg items : forall (n : nat) w st tl,
  length w = n ->
  Forall (fun c => class_mem neg items c = true) w ->
  rest st = w ++ tl ->
  exists l, rep_min (class_step neg items) n (Some n) st = after_word st w tl :: l.
Proof.
  induction n as [|n IH]; intros w st tl Hlen Hw Hr.
  - destruct w; [|discriminate]. cbn [rep_min]. exists [].
    assert (Est : after_word st [] tl = st).
    { destruct st as [p rs cs]. cbn in *. subst. reflexivity. }
    rewrite Est. destruct (length (rest st)); reflexivity.
  - destruct w as [|c w]; [discriminate|]. injection Hlen as Hlen.
    inversion Hw as [|? ? Hc Hw']; subst. cbn [app] in Hr.
    cbn [rep_min dec_max Nat.pred]. rewrite (class_step_cons _ _ _ _ _ Hr), Hc.
    cbn [flat_map]. rewrite app_nil_r.
    destruct (IH w (eat c (w ++ tl) st) tl eq_refl Hw' eq_refl) as [l El].
    rewrite El. exists l. reflexivity.
Qed.

Lemma first_exactly neg items (n : nat) w st tl :
  length w = n ->
  Forall (fun c => class_mem neg items c = true) w ->
  rest st = w ++ tl ->
  first_match (RRep n (Some n) (RClass neg items)) st (after_word st w tl).
Proof. apply rep_min_exactly. Qed.

End FirstMatch.

(** * Indices and dates (normalizer) *)

Section ScanFacts.

Implicit Types (r : regex) (s a tl tmpl : jsstring) (p : option char).

(** A stretch of text in which no match begins is copied. *)
Lemma scan_pass r tmpl tl : forall a p,
  (forall a1 a2, a = a1 ++ a2 -> a2 <> [] ->
                 exec r (prev_after p a1) (a2 ++ tl) = None) ->
  scan r tmpl O p (a ++ tl) = a ++ scan r tmpl O (prev_after p a) tl.
Proof.
  induction a as [|c a IH]; intros p Hf; [reflexivity|].
  change ((c :: a) ++ tl) with (c :: (a ++ tl)).
  rewrite scan_fail.
  - cbn [app]. f_equal. apply IH.
    intros a1 a2 E Hne. apply (Hf (c :: a1) a2); [|exact Hne].
    rewrite E. reflexivity.
  - apply (Hf [] (c :: a)); [reflexivity | discriminate].
Qed.

Lemma trigger_free_app s1 s2 :
  trigger_free (s1 ++ s2) = trigger_free s1 && trigger_free s2.
Proof. apply forallb_app. Qed.

Lemma trigger_free_no_digit s :
  trigger_free s = true -> forallb (fun c => negb (is_digit c)) s = true.
Proof.
  unfold trigger_free. rewrite !forallb_forall. intros H c Hc.
  specialize (H c Hc). unfold trigger in H.
  apply negb_true_iff in H. apply orb_false_iff in H as [H _].
  apply negb_true_iff, H.
Qed.

Lemma no_digit_occ s :
  forallb (fun c => negb (is_digit c)) s = true -> occ is_digit s = O.
Proof.
  intros H. apply (occ_zero_forallb _ (fun c => negb (is_digit c))); [|exact H].
  intros c Hc. apply negb_true_iff, Hc.
Qed.

End ScanFacts.

Section IndexRule.

Variables (o c : char).

Hypothesis Ho : is_digit o = false.

Hypothesis Hc : is_digit c = false.

Variable tmpl : jsstring.

Hypothesis Htmpl : forall w cs, expand 1 tmpl w cs = tmpl.

Implicit Types (pre D post s : jsstring) (p : option char).

Lemma index_needs_digit p s :
  index_start o s = false -> exec (index_regex o c) p s = None.
Proof.
  intros H. apply exec_none. unfold index_regex, plus, digit, cls.
  cbn [cat m rest].
  destruct s as [|a [|d t]]; [reflexivity | |].
  - destruct (a =? o); reflexivity.
  - cbn [index_start] in H. destruct (a =? o); [|reflexivity].
    cbn [andb] in H. cbn [flat_map eat rest m rep_min].
    rewrite digit_mem, H. reflexivity.
Qed.

Lemma no_index_start pre tl a1 a2 :
  forallb (fun x => negb (is_digit x)) pre = true ->
  match tl with
  | [] => True
  | d :: _ => is_digit d = false
  end ->
  pre = a1 ++ a2 -> a2 <> [] -> index_start o (a2 ++ tl) = false.
Proof.
  intros Hpre Htl -> Hne. rewrite forallb_app in Hpre.
  apply andb_true_iff in Hpre as [_ H2].
  destruct a2 as [|a [|d a2]]; [congruence | |].
  - cbn [app index_start]. destruct tl as [|d tl]; [reflexivity|].
    rewrite Htl. apply andb_false_r.
  - cbn [forallb] in H2. apply andb_true_iff in H2 as [_ H2].
    apply andb_true_iff in H2 as [Hd _]. apply negb_true_iff in Hd.
    cbn [app index_start]. rewrite Hd. apply andb_false_r.
Qed.

Lemma index_needs_a_digit : (0 < min_count is_digit (index_regex o c))%nat.
Proof.
  unfold index_regex. cbn [cat min_count].
  change (min_count is_digit (plus digit)) with 1%nat. lia.
Qed.

Lemma index_exec p D post :
  forallb is_digit D = true -> D <> [] ->
  exists y, exec (index_regex o c) p (o :: D ++ c :: post) = Some y
            /\ rest y = post.
Proof.
  intros HD HDne.
  pose (y1 := {| prev := Some o; rest := D ++ c :: post; caps := [] |}).
  destruct (m_rep_class_greedy false [CDigit] 1 D y1 (c :: post)) as (l & E).
  { reflexivity. }
  { eapply forallb_Forall_impl; [|exact HD]. apply digit_class. }
  { cbn [stops]. rewrite digit_mem. exact Hc. }
  { destruct D; [congruence | simpl; lia]. }
  set (st := {| prev := p; rest := o :: D ++ c :: post; caps := [] |}).
  assert (E0 : m (RChar o) st = [y1]).
  { cbn [m rest st]. rewrite N.eqb_refl. reflexivity. }
  assert (E2 : forall y t, rest y = c :: t -> m (RChar c) y = [eat c t y]).
  { intros y t Hy. cbn [m]. rewrite Hy, N.eqb_refl. reflexivity. }
  eexists. split.
  - eapply exec_head. fold st.
    change (m (index_regex o c) st)
      with (flat_map
              (fun z =>
                 flat_map (m (RChar c))
                   (map (fun y => set_cap 1
                                    (firstn (length (rest z) - length (rest y)) (rest z)) y)
                        (m (RRep 1 None (RClass false [CDigit])) z)))
              (m (RChar o) st)).
    rewrite E0. cbn [flat_map]. rewrite E. cbn [map flat_map].
    rewrite (E2 _ post) by reflexivity. reflexivity.
  - reflexivity.
Qed.

(** The rule masks an index whatever its length, in a text that has no
    other digit. *)
Lemma index_rule_masks pre D post :
  forallb (fun x => negb (is_digit x)) pre = true ->
  forallb (fun x => negb (is_digit x)) post = true ->
  forallb is_digit D = true -> D <> [] ->
  replace_all (index_regex o c) tmpl (index_subject o c pre D post)
  = pre ++ tmpl ++ post.
Proof.
  intros Hpre Hpost HD HDne. unfold replace_all, index_subject.
  rewrite scan_pass.
  2:{ intros a1 a2 E Hne. apply index_needs_digit.
      apply (no_index_start pre _ a1 a2 Hpre); [exact Ho | exact E | exact Hne]. }
  f_equal.
  destruct (index_exec (prev_after None pre) D post HD HDne) as (y & He & Hy).
  rewrite (scan_match _ _ _ _ y (o :: D ++ [c]) He).
  - change (ngroups (index_regex o c)) with 1%nat. rewrite Htmpl. f_equal.
    rewrite Hy. apply (scan_by_count is_digit).
    rewrite (no_digit_occ _ Hpost). apply index_needs_a_digit.
  - rewrite Hy. cbn [app]. rewrite <- app_assoc. reflexivity.
  - discriminate.
Qed.

(** The rule leaves alone a text whose digits do not follow its opening
    character. *)
Lemma index_rule_idle pre mid post :
  forallb (fun x => negb (is_digit x)) pre = true ->
  forallb (fun x => negb (is_digit x)) post = true ->
  forallb (fun x => negb (x =? o)) mid = true ->
  match mid ++ post with
  | [] => True
  | d :: _ => is_digit d = false
  end ->
  replace_all (index_regex o c) tmpl (pre ++ mid ++ post) = pre ++ mid ++ post.
Proof.
  intros Hpre Hpost Hmid Hhead. unfold replace_all.
  rewrite scan_pass.
  2:{ intros a1 a2 E Hne. apply index_needs_digit.
      apply (no_index_start pre _ a1 a2 Hpre); [exact Hhead | exact E | exact Hne]. }
  f_equal. rewrite scan_by_first; [| reflexivity |].
  2:{ eapply forallb_Forall_impl; [|exact Hmid]. cbv beta. intros x Hx.
      apply negb_true_iff in Hx. unfold index_regex. cbn [cat firstc nullable].
      rewrite Hx. reflexivity. }
  f_equal. apply (scan_by_count is_digit).
  rewrite (no_digit_occ _ Hpost). apply index_needs_a_digit.
Qed.

End IndexRule.

Section IndexTheorems.

Variables (pre D post : jsstring).

Hypothesis Hpre : trigger_free pre = true.

Hypothesis Hpost : trigger_free post = true.

Hypothesis HD : forallb is_digit D = true.

Hypothesis HDne : D <> [].

Lemma masked_index_fixed (o c : char) (rs : list (regex * jsstring)) :
  trigger o = false -> trigger c = false ->
  forallb (fun rt => Nat.ltb 0 (min_count trigger (fst rt))) rs = true ->
  apply_rules rs (index_masked o c pre post) = index_masked o c pre post.
Proof.
  intros Ho Hc Hrs. apply (apply_rules_by_count trigger _ _ Hrs).
  apply trigger_free_occ. unfold index_masked.
  rewrite !trigger_free_app, Hpre, Hpost. unfold trigger_free. cbn [forallb].
  rewrite Ho, Hc. reflexivity.
Qed.

Lemma paren_index_masked :
  normalizeErrorPattern (JString (index_subject 40 41 pre D post))
  = index_masked 40 41 pre post.
Proof.
  assert (E : exists x t, index_subject 40 41 pre D post = x :: t).
  { unfold index_subject. destruct pre; simpl; eauto. }
  destruct E as (x & t & E). rewrite E, normalize_of_string, <- E.
  unfold normalize_string.
  change rules with ((index_regex 40 41, str "(*)") :: skipn 1 rules).
  rewrite apply_rules_cons.
  rewrite (index_rule_masks 40 41 eq_refl eq_refl (str "(*)"));
    [| reflexivity | apply trigger_free_no_digit, Hpre
     | apply trigger_free_no_digit, Hpost | exact HD | exact HDne].
  apply (masked_index_fixed 40 41); [reflexivity | reflexivity |].
  vm_compute. reflexivity.
Qed.

Lemma bracket_index_masked :
  normalizeErrorPattern (JString (index_subject 91 93 pre D post))
  = index_masked 91 93 pre post.
Proof.
  assert (E : exists x t, index_subject 91 93 pre D post = x :: t).
  { unfold index_subject. destruct pre; simpl; eauto. }
  destruct E as (x & t & E). rewrite E, normalize_of_string, <- E.
  unfold normalize_string.
  change rules with ((index_regex 40 41, str "(*)")
                     :: (index_regex 91 93, str "[*]") :: skipn 2 rules).
  rewrite !apply_rules_cons.
  assert (Hidle : replace_all (index_regex 40 41) (str "(*)")
                    (index_subject 91 93 pre D post)
                  = index_subject 91 93 pre D post).
  { change (index_subject 91 93 pre D post) with (pre ++ (91 :: D) ++ (93 :: post)).
    apply (index_rule_idle 40 41 (str "(*)")).
    - apply trigger_free_no_digit, Hpre.
    - cbn [forallb]. rewrite (trigger_free_no_digit _ Hpost). reflexivity.
    - cbn [forallb]. apply andb_true_iff. split; [reflexivity|].
      rewrite forallb_forall in *. intros d Hd.
      specialize (HD d Hd). apply negb_true_iff, N.eqb_neq. intros ->. discriminate.
    - reflexivity. }
  rewrite Hidle.
  rewrite (index_rule_masks 91 93 eq_refl eq_refl (str "[*]"));
    [| reflexivity | apply trigger_free_no_digit, Hpre
     | apply trigger_free_no_digit, Hpost | exact HD | exact HDne].
  apply (masked_index_fixed 91 93); [reflexivity | reflexivity |].
  vm_compute. reflexivity.
Qed.

End IndexTheorems.

(** X1: an index in parentheses is masked as a star whatever its
    length, in any text that has no digit and none of the characters
    - \x22 @ \ / = : six digits or more in parentheses never become an
    identifier placeholder. *)
Theorem X1_paren_index_is_masked (pre D post : jsstring) :
  trigger_free pre = true -> trigger_free post = true ->
  forallb is_digit D = true -> D <> [] ->
  normalizeErrorPattern (JString (pre ++ str "(" ++ D ++ str ")" ++ post))
  = pre ++ str "(*)" ++ post.
Proof. intros. apply paren_index_masked; assumption. Qed.

Lemma X1_paren_index_is_masked_witness :
  normalizeErrorPattern (JString (str ".agreement(1234567) is null"))
  = str ".agreement(*) is null".
Proof.
  apply (X1_paren_index_is_masked (str ".agreement") (str "1234567") (str " is null"));
    [reflexivity | reflexivity | reflexivity | discriminate].
Defined.

(** X2: an index in square brackets is masked as a star whatever its
    length, in any text that has no digit and none of the characters
    - \x22 @ \ / = ; parentheses in the text are left as they are by the
    rule for indices in parentheses, which runs first. *)
Theorem X2_bracket_index_is_masked (pre D post : jsstring) :
  trigger_free pre = true -> trigger_free post = true ->
  forallb is_digit D = true -> D <> [] ->
  normalizeErrorPattern (JString (pre ++ str "[" ++ D ++ str "]" ++ post))
  = pre ++ str "[*]" ++ post.
Proof. intros. apply bracket_index_masked; assumption. Qed.

Lemma X2_bracket_index_is_masked_witness :
  normalizeErrorPattern (JString (str "items[1234567] (first) missing"))
  = str "items[*] (first) missing".
Proof.
  apply (X2_bracket_index_is_masked (str "items") (str "1234567") (str " (first) missing"));
    [reflexivity | reflexivity | reflexivity | discriminate].
Defined.

(** * Dates (normalizer) *)

Section DateRules.

Variables (pre post : jsstring).

Hypothesis Hpre : forallb plain pre = true.

Hypothesis Hpost : forallb plain post = true.

Lemma plain_not_digit c : plain c = true -> is_digit c = false.
Proof. unfold plain. intros H. charb. Qed.

Lemma plain_no_digits (s : jsstring) :
  forallb plain s = true -> occ is_digit s = O.
Proof. apply occ_zero_forallb. exact plain_not_digit. Qed.

Lemma digits_class (W : jsstring) :
  forallb is_digit W = true ->
  Forall (fun c => class_mem false [CDigit] c = true) W.
Proof. apply forallb_Forall_impl. exact digit_class. Qed.

(** The rules after the date rules leave the masked text alone. *)
Lemma date_masked_fixed (rs : list (regex * jsstring)) :
  forallb (fun rt =>
             existsb (fun qb => Nat.ltb (snd qb) (min_count (fst qb) (fst rt)))
                     [(q_late, O); (q_hyphen, O)])
          rs = true ->
  apply_rules rs (date_masked pre post) = date_masked pre post.
Proof.
  intros Hrs. apply (apply_rules_quiet [(q_late, O); (q_hyphen, O)]); [|exact Hrs].
  unfold date_masked.
  constructor; [|constructor; [|constructor]]; cbn [fst snd]; rewrite !occ_app.
  - rewrite (occ_zero_forallb q_late plain pre), (occ_zero_forallb q_late plain post);
      [reflexivity | | assumption | | assumption];
      intros c; unfold plain, q_late, is_upper; intros H; charb.
  - rewrite (occ_zero_forallb q_hyphen plain pre), (occ_zero_forallb q_hyphen plain post);
      [reflexivity | | assumption | | assumption];
      intros c; unfold plain, q_hyphen, is_upper; intros H; charb.
Qed.

(** A rule that begins with a digit and needs one: it replaces a match
    standing between [pre] and [post]. *)
Lemma digit_rule_masks (r : regex) (tmpl w : jsstring) :
  nullable r = false ->
  (forall c, firstc r c = true -> is_digit c = true) ->
  (0 < min_count is_digit r)%nat ->
  (forall w' cs, expand (ngroups r) tmpl w' cs = tmpl) ->
  w <> [] ->
  (forall p, exists y, exec r p (w ++ post) = Some y /\ rest y = post) ->
  replace_all r tmpl (pre ++ w ++ post) = pre ++ tmpl ++ post.
Proof.
  intros Hn Hfirst Hcount Htmpl Hw Hexec. unfold replace_all.
  rewrite scan_by_first; [| exact Hn |].
  2:{ eapply forallb_Forall_impl; [|exact Hpre]. intros c Hc.
      destruct (firstc r c) eqn:E; [|reflexivity].
      pose proof (Hfirst c E) as Hd. rewrite (plain_not_digit c Hc) in Hd.
      discriminate Hd. }
  f_equal. destruct (Hexec (prev_after None pre)) as (y & He & Hy).
  rewrite (scan_match _ _ _ _ y w He); [| rewrite Hy; reflexivity | exact Hw].
  rewrite Htmpl. f_equal. rewrite Hy. apply (scan_by_count is_digit).
  rewrite (plain_no_digits post Hpost). exact Hcount.
Qed.

Section Iso.

Variables (Y M D : jsstring).

Hypothesis HY : forallb is_digit Y = true.

Hypothesis HYlen : length Y = 4%nat.

Hypothesis HM : forallb is_digit M = true.

Hypothesis HMlen : length M = 2%nat.

Hypothesis HD : forallb is_digit D = true.

Hypothesis HDlen : length D = 2%nat.

Lemma iso_date_exec p :
  exists y, exec Rules.iso_date p ((Y ++ [45] ++ M ++ [45] ++ D) ++ post) = Some y
            /\ rest y = post.
Proof.
  set (st := {| prev := p; rest := (Y ++ [45] ++ M ++ [45] ++ D) ++ post; caps := [] |}).
  assert (Hf : first_match Rules.iso_date st
                 (after_word st (Y ++ [45] ++ M ++ [45] ++ D) post)).
  { unfold Rules.iso_date, exactly, digit, cls. cbn [cat lit str list_ascii_of_string
      map lit_chars].
    eapply first_seq.
    { apply (first_exactly false [CDigit] 4 Y st ([45] ++ M ++ [45] ++ D ++ post) HYlen
               (digits_class Y HY)).
      cbn [st rest]. rewrite <- !app_assoc. reflexivity. }
    eapply first_seq.
    { apply (first_char _ _ (M ++ [45] ++ D ++ post)). reflexivity. }
    eapply first_seq.
    { apply (first_exactly false [CDigit] 2 M _ ([45] ++ D ++ post) HMlen
               (digits_class M HM)).
      reflexivity. }
    eapply first_seq.
    { apply (first_char _ _ (D ++ post)). reflexivity. }
    match goal with
    | |- first_match _ ?s (after_word _ ?w _) =>
        replace (after_word st w post) with (after_word s D post)
    end.
    - apply (first_exactly false [CDigit] 2 D _ post HDlen (digits_class D HD)).
      reflexivity.
    - unfold after_word. cbn [prev caps eat]. f_equal.
      unfold prev_after. rewrite !fold_left_app. reflexivity. }
  destruct Hf as [l Hf]. eexists. split; [eapply exec_head; exact Hf | reflexivity].
Qed.

Lemma iso_date_masked :
  normalizeErrorPattern (JString (date_subject pre Y M D post)) = date_masked pre post.
Proof.
  assert (HYne : exists c t, Y = c :: t) by (destruct Y; [discriminate | eauto]).
  assert (E : exists x t, date_subject pre Y M D post = x :: t).
  { unfold date_subject. destruct HYne as (c & t & ->). destruct pre; simpl; eauto. }
  destruct E as (x & t & E). rewrite E, normalize_of_string, <- E.
  unfold normalize_string.
  change rules with (firstn 4 rules ++ [(Rules.iso_date, str "[DATE]")] ++ skipn 5 rules).
  rewrite !apply_rules_app.
  assert (Hearly : apply_rules (firstn 4 rules) (date_subject pre Y M D post)
                   = date_subject pre Y M D post).
  { apply (apply_rules_quiet [(q_early, O)]); [|vm_compute; reflexivity].
    constructor; [|constructor]. cbn [fst snd]. unfold date_subject.
    rewrite !occ_app.
    rewrite (occ_zero_forallb q_early plain pre), (occ_zero_forallb q_early plain post),
      (occ_zero_forallb q_early is_digit Y), (occ_zero_forallb q_early is_digit M),
      (occ_zero_forallb q_early is_digit D); try assumption; try reflexivity;
      intros c; unfold plain, q_early, is_upper; intros H; charb. }
  rewrite Hearly, apply_rules_cons. change (apply_rules [] ?a) with a.
  replace (date_subject pre Y M D post) with (pre ++ (Y ++ [45] ++ M ++ [45] ++ D) ++ post)
    by (unfold date_subject; rewrite <- !app_assoc; reflexivity).
  rewrite (digit_rule_masks Rules.iso_date (str "[DATE]")).
  - apply date_masked_fixed. vm_compute. reflexivity.
  - reflexivity.
  - intros c. change (firstc Rules.iso_date c) with (class_mem false [CDigit] c || false).
    rewrite orb_false_r, digit_mem. trivial.
  - vm_compute. lia.
  - reflexivity.
  - destruct HYne as (c0 & t0 & ->). discriminate.
  - exact iso_date_exec.
Qed.

End Iso.

Section Slash.

Variables (A B Y : jsstring).

Hypothesis HA : forallb is_digit A = true.

Hypothesis HAlen : length A = 2%nat.

Hypothesis HB : forallb is_digit B = true.

Hypothesis HBlen : length B = 2%nat.

Hypothesis HY : forallb is_digit Y = true.

Hypothesis HYlen : length Y = 4%nat.

Lemma slash_date_exec p :
  exists y, exec Rules.slash_date p ((A ++ [47] ++ B ++ [47] ++ Y) ++ post) = Some y
            /\ rest y = post.
Proof.
  set (st := {| prev := p; rest := (A ++ [47] ++ B ++ [47] ++ Y) ++ post; caps := [] |}).
  assert (Hf : first_match Rules.slash_date st
                 (after_word st (A ++ [47] ++ B ++ [47] ++ Y) post)).
  { unfold Rules.slash_date, exactly, digit, cls. cbn [cat lit str list_ascii_of_string
      map lit_chars].
    eapply first_seq.
    { apply (first_exactly false [CDigit] 2 A st ([47] ++ B ++ [47] ++ Y ++ post) HAlen
               (digits_class A HA)).
      cbn [st rest]. rewrite <- !app_assoc. reflexivity. }
    eapply first_seq.
    { apply (first_char _ _ (B ++ [47] ++ Y ++ post)). reflexivity. }
    eapply first_seq.
    { apply (first_exactly false [CDigit] 2 B _ ([47] ++ Y ++ post) HBlen
               (digits_class B HB)).
      reflexivity. }
    eapply first_seq.
    { apply (first_char _ _ (Y ++ post)). reflexivity. }
    match goal with
    | |- first_match _ ?s (after_word _ ?w _) =>
        replace (after_word st w post) with (after_word s Y post)
    end.
    - apply (first_exactly false [CDigit] 4 Y _ post HYlen (digits_class Y HY)).
      reflexivity.
    - unfold after_word. cbn [prev caps eat]. f_equal.
      unfold prev_after. rewrite !fold_left_app. reflexivity. }
  destruct Hf as [l Hf]. eexists. split; [eapply exec_head; exact Hf | reflexivity].
Qed.

Lemma slash_date_masked :
  normalizeErrorPattern (JString (slash_subject pre A B Y post)) = date_masked pre post.
Proof.
  assert (HAne : exists c t, A = c :: t) by (destruct A; [discriminate | eauto]).
  assert (E : exists x t, slash_subject pre A B Y post = x :: t).
  { unfold slash_subject. destruct HAne as (c & t & ->). destruct pre; simpl; eauto. }
  destruct E as (x & t & E). rewrite E, normalize_of_string, <- E.
  unfold normalize_string.
  change rules with (firstn 5 rules ++ [(Rules.slash_date, str "[DATE]")] ++ skipn 6 rules).
  rewrite !apply_rules_app.
  assert (Hearly : apply_rules (firstn 5 rules) (slash_subject pre A B Y post)
                   = slash_subject pre A B Y post).
  { apply (apply_rules_quiet [(q_open, O)]); [|vm_compute; reflexivity].
    constructor; [|constructor]. cbn [fst snd]. unfold slash_subject.
    rewrite !occ_app.
    rewrite (occ_zero_forallb q_open plain pre), (occ_zero_forallb q_open plain post),
      (occ_zero_forallb q_open is_digit A), (occ_zero_forallb q_open is_digit B),
      (occ_zero_forallb q_open is_digit Y); try assumption; try reflexivity;
      intros c; unfold plain, q_open, is_upper; intros H; charb. }
  rewrite Hearly, apply_rules_cons. change (apply_rules [] ?a) with a.
  replace (slash_subject pre A B Y post) with (pre ++ (A ++ [47] ++ B ++ [47] ++ Y) ++ post)
    by (unfold slash_subject; rewrite <- !app_assoc; reflexivity).
  rewrite (digit_rule_masks Rules.slash_date (str "[DATE]")).
  - apply date_masked_fixed. vm_compute. reflexivity.
  - reflexivity.
  - intros c. change (firstc Rules.slash_date c) with (class_mem false [CDigit] c || false).
    rewrite orb_false_r, digit_mem. trivial.
  - vm_compute. lia.
  - reflexivity.
  - destruct HAne as (c0 & t0 & ->). discriminate.
  - exact slash_date_exec.
Qed.

End Slash.

End DateRules.

(** X3: a date written year-month-day (four, two and two digits) is
    replaced by the date placeholder, in any text that has no upper-case
    letter, no digit and none of ( [ - / : @ = : the digits are not taken
    for a case identifier or a long number. *)
Theorem X3_iso_date_is_masked (pre Y M D post : jsstring) :
  forallb plain pre = true -> forallb plain post = true ->
  forallb is_digit Y = true -> length Y = 4%nat ->
  forallb is_digit M = true -> length M = 2%nat ->
  forallb is_digit D = true -> length D = 2%nat ->
  normalizeErrorPattern (JString (pre ++ Y ++ str "-" ++ M ++ str "-" ++ D ++ post))
  = pre ++ str "[DATE]" ++ post.
Proof. intros. apply iso_date_masked; assumption. Qed.

Lemma X3_iso_date_is_masked_witness :
  normalizeErrorPattern (JString (str "run of 2025-04-18 failed"))
  = str "run of [DATE] failed".
Proof.
  apply (X3_iso_date_is_masked (str "run of ") (str "2025") (str "04") (str "18")
           (str " failed")); reflexivity.
Defined.

(** X4: a date written with slashes (two, two and four digits) is
    replaced by the date placeholder in such a text: the date rule runs
    before the rule for Unix paths, which would take the text from the
    first slash on. *)
Theorem X4_slash_date_is_masked (pre A B Y post : jsstring) :
  forallb plain pre = true -> forallb plain post = true ->
  forallb is_digit A = true -> length A = 2%nat ->
  forallb is_digit B = true -> length B = 2%nat ->
  forallb is_digit Y = true -> length Y = 4%nat ->
  normalizeErrorPattern (JString (pre ++ A ++ str "/" ++ B ++ str "/" ++ Y ++ post))
  = pre ++ str "[DATE]" ++ post.
Proof. intros. apply slash_date_masked; assumption. Qed.

Lemma X4_slash_date_is_masked_witness :
  normalizeErrorPattern (JString (str "due 04/18/2025, late"))
  = str "due [DATE], late".
Proof.
  apply (X4_slash_date_is_masked (str "due ") (str "04") (str "18") (str "2025")
           (str ", late")); reflexivity.
Defined.

(** * Case identifiers and addresses (normalizer) *)

Lemma apply_rules_one (r : regex) (tmpl s : jsstring) :
  apply_rules [(r, tmpl)] s = replace_all r tmpl s.
Proof. reflexivity. Qed.

(** ** Runs of code units *)

Section Runs.

Implicit Types (r : regex) (st y z : mstate) (w s a u v t tl : jsstring)
  (f : char -> bool).

Lemma leading_behind f s : s = leading f s ++ behind f s.
Proof.
  induction s as [|c t IH]; [reflexivity|]. cbn [leading behind].
  destruct (f c); [cbn [app]; f_equal; exact IH | reflexivity].
Qed.

Lemma leading_all f s : Forall (fun c => f c = true) (leading f s).
Proof.
  induction s as [|c t IH]; cbn [leading]; [constructor|].
  destruct (f c) eqn:E; [constructor; assumption | constructor].
Qed.

Lemma behind_head f s :
  match behind f s with
  | [] => True
  | c :: _ => f c = false
  end.
Proof.
  induction s as [|c t IH]; cbn [behind]; [exact I|].
  destruct (f c) eqn:E; [exact IH | exact E].
Qed.

Lemma leading_app f w : forall u,
  Forall (fun c => f c = true) w ->
  leading f (w ++ u) = w ++ leading f u /\ behind f (w ++ u) = behind f u.
Proof.
  induction w as [|c w IH]; intros u Hw; [split; reflexivity|].
  inversion Hw as [|? ? Hc Hw']; subst. cbn [app leading behind]. rewrite Hc.
  destruct (IH u Hw') as [-> ->]. split; reflexivity.
Qed.

(** Where a run of class members ends, and on what, is determined by
    the text. *)
Lemma run_stop_unique (P : char -> Prop) (x1 x2 : char) :
  forall k1 k2 u v : jsstring,
  Forall P k1 -> Forall P k2 -> ~ P x1 -> ~ P x2 ->
  k1 ++ x1 :: u = k2 ++ x2 :: v -> k1 = k2 /\ x1 = x2 /\ u = v.
Proof.
  induction k1 as [|c a IH]; intros b u v Ha Hb Hx1 Hx2 E.
  - destruct b as [|d b]; simpl in E.
    + injection E as -> ->. repeat split.
    + injection E as -> _. inversion Hb; subst. contradiction.
  - inversion Ha as [|? ? Hc Ha']; subst.
    destruct b as [|d b]; simpl in E.
    + injection E as -> _. contradiction.
    + injection E as -> E. inversion Hb as [|? ? _ Hb']; subst.
      destruct (IH _ _ _ Ha' Hb' Hx1 Hx2 E) as (-> & -> & ->). repeat split.
Qed.

Lemma m_seq_nil r1 r2 st :
  (forall z, In z (m r1 st) -> m r2 z = []) -> m (RSeq r1 r2) st = [].
Proof.
  intros Hz. cbn [m]. induction (m r1 st) as [|z l IH]; [reflexivity|].
  cbn [flat_map]. rewrite (Hz z) by (left; reflexivity).
  apply IH. intros z' Hz'. apply Hz. right. exact Hz'.
Qed.

Lemma m_boundary_seq_nil r st : m r st = [] -> m (RSeq RWordB r) st = [].
Proof.
  intros E. apply m_seq_nil. intros z Hz. cbn [m] in Hz.
  destruct (at_boundary st); [|destruct Hz]. destruct Hz as [<-|[]]. exact E.
Qed.

(** The states that a repeated class can reach: it has read a run of
    members, and nothing else has changed. *)
Lemma rep_opt_states neg items : forall fuel max st y,
  In y (rep_opt (class_step neg items) fuel max st) ->
  exists w, rest st = w ++ rest y
            /\ Forall (fun c => class_mem neg items c = true) w
            /\ y = after_word st w (rest y).
Proof.
  assert (Hst : forall st, st = after_word st [] (rest st)).
  { intros [p rs cs]. reflexivity. }
  induction fuel as [|f IH]; intros max st y Hy.
  - assert (y = st) as ->.
    { destruct max as [[|k]|]; simpl in Hy; destruct Hy as [->|[]]; reflexivity. }
    exists []. repeat split; [constructor | apply Hst].
  - assert (Hcases :
      In y (flat_map
              (fun z => if Nat.ltb (length (rest z)) (length (rest st))
                        then rep_opt (class_step neg items) f (dec_max max) z
                        else [])
              (class_step neg items st) ++ [st]) \/ y = st).
    { destruct max as [[|k]|]; simpl in Hy;
        [right; destruct Hy as [->|[]]; reflexivity | left; exact Hy | left; exact Hy]. }
    destruct Hcases as [Hin | ->].
    2:{ exists []. repeat split; [constructor | apply Hst]. }
    apply in_app_iff in Hin. destruct Hin as [Hin | [->|[]]].
    2:{ exists []. repeat split; [constructor | apply Hst]. }
    apply in_flat_map in Hin. destruct Hin as (z & Hz & Hyz).
    destruct (Nat.ltb _ _); [| destruct Hyz].
    unfold class_step in Hz. destruct (rest st) as [|c t] eqn:Er; [destruct Hz|].
    destruct (class_mem neg items c) eqn:Hc; [|destruct Hz].
    destruct Hz as [<-|[]].
    destruct (IH _ _ _ Hyz) as (w & Hw & HF & Ey).
    cbn [eat rest] in Hw. exists (c :: w). repeat split.
    + cbn [app]. rewrite Hw. reflexivity.
    + constructor; assumption.
    + rewrite Ey at 1. reflexivity.
Qed.

Lemma rep_min_states neg items : forall min max st y,
  In y (rep_min (class_step neg items) min max st) ->
  exists w, rest st = w ++ rest y
            /\ Forall (fun c => class_mem neg items c = true) w
            /\ (min <= length w)%nat
            /\ y = after_word st w (rest y).
Proof.
  induction min as [|k IH]; intros max st y Hy; cbn [rep_min] in Hy.
  - destruct (rep_opt_states _ _ _ _ _ _ Hy) as (w & Hw & HF & Ey).
    exists w. repeat split; [assumption | assumption | lia | assumption].
  - apply in_flat_map in Hy. destruct Hy as (z & Hz & Hyz).
    unfold class_step in Hz. destruct (rest st) as [|c t] eqn:Er; [destruct Hz|].
    destruct (class_mem neg items c) eqn:Hc; [|destruct Hz].
    destruct Hz as [<-|[]].
    destruct (IH _ _ _ Hyz) as (w & Hw & HF & Hlen & Ey).
    cbn [eat rest] in Hw. exists (c :: w). repeat split.
    + cbn [app]. rewrite Hw. reflexivity.
    + constructor; assumption.
    + cbn [length]. lia.
    + rewrite Ey at 1. reflexivity.
Qed.

Lemma m_rep_class_states neg items min max st y :
  In y (m (RRep min max (RClass neg items)) st) ->
  exists w, rest st = w ++ rest y
            /\ Forall (fun c => class_mem neg items c = true) w
            /\ (min <= length w)%nat
            /\ y = after_word st w (rest y).
Proof. apply rep_min_states. Qed.

(** A run of class members that ends on a code unit other than [x]
    cannot begin a match of the class repeated and then [x]. *)
Lemma run_then_char_blocked neg items min max x r st a c u :
  rest st = a ++ c :: u ->
  Forall (fun d => class_mem neg items d = true) a ->
  class_mem neg items c = false -> c <> x ->
  class_mem neg items x = false ->
  m (RSeq (RRep min max (RClass neg items)) (RSeq (RChar x) r)) st = [].
Proof.
  intros Hr Ha Hc Hcx Hx. apply m_seq_nil. intros z Hz.
  destruct (m_rep_class_states _ _ _ _ _ _ Hz) as (w & Hw & HF & _ & _).
  apply m_seq_nil. intros z' Hz'. exfalso.
  cbn [m] in Hz'. destruct (rest z) as [|d t] eqn:Ez; [destruct Hz'|].
  destruct (N.eqb_spec d x) as [->|]; [|destruct Hz'].
  rewrite Hr in Hw.
  destruct (run_stop_unique (fun d => class_mem neg items d = true) c x
              a w u t Ha HF) as (_ & E & _);
    [congruence | congruence | exact Hw | contradiction].
Qed.

Lemma leading_app_inside f s tl :
  behind f s <> [] ->
  leading f (s ++ tl) = leading f s /\ behind f (s ++ tl) = behind f s ++ tl.
Proof.
  induction s as [|c s IH]; intros Hb; [cbn in Hb; congruence|].
  cbn [app leading behind] in *. destruct (f c).
  - destruct (IH Hb) as [-> ->]. split; reflexivity.
  - split; reflexivity.
Qed.

Lemma leading_app_stop f s tl :
  head_is f tl = false ->
  leading f (s ++ tl) = leading f s /\ behind f (s ++ tl) = behind f s ++ tl.
Proof.
  intros Ht. induction s as [|c s IH].
  - cbn [app leading behind]. destruct tl as [|d tl']; [split; reflexivity|].
    cbn [head_is head] in Ht. cbn [leading behind]. rewrite Ht. split; reflexivity.
  - cbn [app leading behind]. destruct (f c).
    + destruct IH as [-> ->]. split; reflexivity.
    + split; reflexivity.
Qed.

Lemma leading_stop f s : head_is f s = false -> leading f s = [] /\ behind f s = s.
Proof.
  destruct s as [|c s]; [split; reflexivity|].
  cbn [head_is head leading behind]. intros ->. split; reflexivity.
Qed.

Lemma last_is_suffix f u s :
  s <> [] -> last_is f (u ++ s) = last_is f s.
Proof.
  intros Hs. unfold last_is. destruct (exists_last Hs) as (s' & x & ->).
  rewrite app_assoc, !last_snoc. reflexivity.
Qed.

Lemma last_is_all f s :
  s <> [] -> Forall (fun c => f c = true) s -> last_is f s = true.
Proof.
  intros Hs Hf. unfold last_is. destruct (exists_last Hs) as (s' & x & ->).
  rewrite last_snoc. apply Forall_app in Hf as [_ Hx]. inversion Hx; assumption.
Qed.

End Runs.

Section Words.

Implicit Types (r : regex) (st y z : mstate) (w s a u v t tmpl : jsstring)
  (p : option char).

Lemma hex_mem c :
  class_mem false [Rules.num; rng "a" "f"; rng "A" "F"] c = is_hex c.
Proof.
  unfold class_mem, is_hex, is_digit.
  change Rules.num with (CRange 48 57). change (rng "a" "f") with (CRange 97 102).
  change (rng "A" "F") with (CRange 65 70).
  cbn [existsb item_mem xorb]. rewrite orb_false_r, orb_assoc. reflexivity.
Qed.

Lemma hex_is_word c : is_hex c = true -> is_word c = true.
Proof. unfold is_hex. intros H. charb. Qed.

Lemma digit_word c : is_digit c = true -> is_word c = true.
Proof. intros H. charb. Qed.

Lemma prev_after_last (P : char -> Prop) : forall w p,
  w <> [] -> Forall P w -> exists c, prev_after p w = Some c /\ P c.
Proof.
  induction w as [|c w IH]; intros p Hne Hw; [congruence|].
  inversion Hw as [|? ? Hc Hw']; subst.
  destruct w as [|d w'].
  - exists c. split; [reflexivity | exact Hc].
  - destruct (IH (Some c)) as (e & He & HP); [discriminate | exact Hw' |].
    exists e. split; [exact He | exact HP].
Qed.

Lemma first_boundary st : at_boundary st = true -> first_match RWordB st st.
Proof. intros H. exists []. cbn [m]. rewrite H. reflexivity. Qed.

Lemma first_rep_class neg items min w st tl :
  rest st = w ++ tl ->
  Forall (fun c => class_mem neg items c = true) w ->
  stops neg items tl ->
  (min <= length w)%nat ->
  first_match (RRep min None (RClass neg items)) st (after_word st w tl).
Proof. apply m_rep_class_greedy. Qed.

Lemma first_exec r p s y :
  first_match r {| prev := p; rest := s; caps := [] |} y -> exec r p s = Some y.
Proof. intros [l E]. eapply exec_head, E. Qed.

End Words.

(** ** Replacements without captures *)

Section Rewriting.

Implicit Types (r : regex) (st y z : mstate) (w s o u v t tmpl : jsstring) (a b x : char)
  (p : option char).

Lemma expand_plain ng tmpl w cs :
  existsb (N.eqb 36) tmpl = false -> expand ng tmpl w cs = tmpl.
Proof.
  induction tmpl as [|c t IH]; intros H; [reflexivity|].
  cbn [existsb] in H. apply orb_false_iff in H as [Hc Ht].
  cbn [expand]. rewrite N.eqb_sym, Hc, (IH Ht). reflexivity.
Qed.

Lemma match_consumes r p s y :
  nullable r = false -> exec r p s = Some y ->
  exists w, s = w ++ rest y /\ w <> [].
Proof.
  intros Hn He. unfold exec in He.
  destruct (m r {| prev := p; rest := s; caps := [] |}) as [|y0 l] eqn:Em;
    [discriminate|].
  injection He as ->.
  destruct (m_lang r {| prev := p; rest := s; caps := [] |} y) as (w & E & L).
  { rewrite Em. left. reflexivity. }
  exists w. split; [exact E|]. intros ->.
  pose proof (lang_first _ _ L) as Hs. simpl in Hs. congruence.
Qed.

(** A global replacement without captures rewrites stretches of the
    subject to the replacement text. *)
Lemma scan_rewritten r tmpl :
  nullable r = false -> existsb (N.eqb 36) tmpl = false ->
  forall (n : nat) s p, (length s <= n)%nat -> Rewritten tmpl s (scan r tmpl O p s).
Proof.
  intros Hn Ht. induction n as [|n IH]; intros s p Hlen.
  - destruct s; [|simpl in Hlen; lia]. rewrite scan_nil by exact Hn. constructor.
  - destruct s as [|c t]; [rewrite scan_nil by exact Hn; constructor|].
    destruct (exec r p (c :: t)) as [y|] eqn:He.
    + destruct (match_consumes _ _ _ _ Hn He) as (w & E & Hw).
      rewrite (scan_match _ _ _ _ _ w He E Hw), expand_plain by exact Ht.
      rewrite E at 1. apply rw_repl; [exact Hw|]. apply IH.
      assert (Hl : length (c :: t) = length (w ++ rest y)) by (rewrite <- E; reflexivity).
      rewrite length_app in Hl. destruct w; [congruence|]. simpl in *. lia.
    + rewrite scan_fail by exact He. apply rw_copy, IH. simpl in Hlen. lia.
Qed.

Lemma rewritten_chars (q : char -> bool) tmpl s o :
  Rewritten tmpl s o -> forallb q tmpl = true -> forallb q s = true ->
  forallb q o = true.
Proof.
  intros H Ht. induction H as [|c s o _ IH|w s o _ _ IH]; intros Hs.
  - reflexivity.
  - cbn [forallb] in *. apply andb_true_iff in Hs as [Hc Hs].
    rewrite Hc, (IH Hs). reflexivity.
  - rewrite forallb_app in Hs. apply andb_true_iff in Hs as [_ Hs].
    rewrite forallb_app, Ht, (IH Hs). reflexivity.
Qed.

Lemma no_pair_cons a b x s :
  no_pair a b (x :: s) = true <->
  no_pair a b s = true /\ (x = a -> head s <> Some b).
Proof.
  destruct s as [|y s']; cbn [no_pair head].
  - split; [intros _; split; [reflexivity | discriminate] | reflexivity].
  - rewrite andb_true_iff, negb_true_iff, andb_false_iff. split.
    + intros [Hxy Hs]. split; [exact Hs|]. intros -> E. injection E as ->.
      rewrite !N.eqb_refl in Hxy. destruct Hxy; discriminate.
    + intros [Hs Hxy]. split; [|exact Hs].
      destruct (N.eqb_spec x a) as [->|]; [|left; reflexivity].
      right. destruct (N.eqb_spec y b) as [->|]; [|reflexivity].
      exfalso. apply Hxy; reflexivity.
Qed.

Lemma no_pair_app a b u : forall v,
  no_pair a b (u ++ v) = true <->
  no_pair a b u = true /\ no_pair a b v = true
  /\ (last u = Some a -> head v <> Some b).
Proof.
  induction u as [|x u IH]; intros v.
  - cbn [app last]. split; [intros H; repeat split; [exact H | discriminate] | tauto].
  - cbn [app]. rewrite !no_pair_cons, IH.
    destruct u as [|y u'].
    + cbn [app head last no_pair]. split.
      * intros ((_ & Hv & _) & Hx). repeat split; try assumption; try discriminate.
        intros E. injection E as ->. apply Hx. reflexivity.
      * intros ((_ & _) & Hv & Hx). repeat split; try assumption; try discriminate.
        intros ->. apply Hx. reflexivity.
    + change (last (x :: y :: u')) with (last (y :: u')).
      cbn [app head]. tauto.
Qed.

Lemma rewritten_no_pair a b tmpl s o :
  Rewritten tmpl s o ->
  no_pair a b tmpl = true -> tmpl <> [] ->
  head tmpl <> Some b -> last tmpl <> Some a ->
  no_pair a b s = true ->
  no_pair a b o = true
  /\ (head o = head s \/ head o = head tmpl \/ o = []).
Proof.
  intros H Ht Hne Hh Hl.
  induction H as [|c s o _ IH|w s o _ _ IH]; intros Hs.
  - split; [reflexivity | right; right; reflexivity].
  - apply no_pair_cons in Hs as [Hs Hc]. destruct (IH Hs) as [Ho Hhead].
    split; [|left; reflexivity].
    apply no_pair_cons. split; [exact Ho|]. intros ->.
    destruct Hhead as [E|[E|E]]; rewrite E; [apply Hc; reflexivity | exact Hh | discriminate].
  - apply no_pair_app in Hs as (_ & Hs & _). destruct (IH Hs) as [Ho _].
    split.
    + apply no_pair_app. repeat split; [exact Ht | exact Ho |]. intros E. contradiction.
    + right. left. destruct tmpl; [congruence | reflexivity].
Qed.

Lemma contains_pair a b n : forall s,
  no_pair a b s = true -> contains (a :: b :: n) s = false.
Proof.
  induction s as [|x s IH]; intros H; [reflexivity|].
  apply no_pair_cons in H as [Hs Hx]. cbn [contains starts_with].
  rewrite (IH Hs), orb_false_r.
  destruct (N.eqb_spec a x) as [<-|]; [|reflexivity]. cbn [andb].
  destruct s as [|y s']; [reflexivity|].
  destruct (N.eqb_spec b y) as [<-|]; [|reflexivity].
  exfalso. apply Hx; reflexivity.
Qed.

Lemma tidy_occ (q : char -> bool) t :
  (forall c, text_char c = true -> q c = false) ->
  tidy t = true -> occ q t = O.
Proof.
  intros Hq Ht. apply andb_true_iff in Ht as [Hc _].
  apply (occ_zero_forallb q text_char); assumption.
Qed.

Lemma placeholder_plain tmpl :
  placeholder tmpl = true -> existsb (N.eqb 36) tmpl = false.
Proof.
  unfold placeholder. rewrite !andb_true_iff. intros (((Hc & _) & _) & _).
  apply not_true_is_false. intros H. apply existsb_exists in H as (c & Hin & Hc').
  apply N.eqb_eq in Hc'. subst c.
  rewrite forallb_forall in Hc. specialize (Hc _ Hin). discriminate Hc.
Qed.

(** A rule that is [rule_ok] keeps a tidy text tidy. *)
Lemma scan_tidy r tmpl p t :
  rule_ok (r, tmpl) = true -> tidy t = true ->
  tidy (scan r tmpl O p t) = true.
Proof.
  intros Hok Ht. unfold rule_ok in Hok. cbn [fst snd] in Hok.
  apply orb_true_iff in Hok as [Hc|Hp].
  - rewrite (scan_by_count q_outside); [exact Ht|].
    apply Nat.ltb_lt in Hc. rewrite tidy_occ; [exact Hc | | exact Ht].
    intros c H. unfold q_outside. rewrite H. reflexivity.
  - apply andb_true_iff in Hp as [Hn Hp]. apply negb_true_iff in Hn.
    pose proof (placeholder_plain _ Hp) as Hd.
    pose proof (scan_rewritten r tmpl Hn Hd (length t) t p (le_n _)) as HR.
    unfold placeholder in Hp. rewrite !andb_true_iff in Hp.
    destruct Hp as (((Hc & Hnp) & Hh) & Hl).
    apply andb_true_iff in Ht as [Htc Htp].
    unfold tidy. apply andb_true_iff. split.
    + apply (rewritten_chars _ _ _ _ HR Hc Htc).
    + apply (rewritten_no_pair 91 69 _ _ _ HR); try assumption.
      * destruct tmpl; [discriminate | discriminate].
      * destruct tmpl as [|c tm]; [discriminate|]. cbn [head].
        apply N.eqb_eq in Hh. subst c. discriminate.
      * destruct (last tmpl) as [c|]; [|discriminate].
        apply N.eqb_eq in Hl. subst c. discriminate.
Qed.

Lemma scans_tidy p (rs : list (regex * jsstring)) : forall t,
  forallb rule_ok rs = true -> tidy t = true -> tidy (scans p rs t) = true.
Proof.
  induction rs as [|[r tmpl] rs IH]; intros t Hrs Ht; [exact Ht|].
  cbn [forallb] in Hrs. apply andb_true_iff in Hrs as [Hr Hrs].
  unfold scans. cbn [fold_left fst snd]. apply IH; [exact Hrs|].
  apply scan_tidy; assumption.
Qed.

Lemma tidy_behind f t : tidy t = true -> tidy (behind f t) = true.
Proof.
  intros Ht. rewrite (leading_behind f t) in Ht. unfold tidy in *.
  apply andb_true_iff in Ht as [Hc Hp].
  rewrite forallb_app in Hc. apply andb_true_iff in Hc as [_ Hc].
  apply no_pair_app in Hp as (_ & Hp & _). rewrite Hc, Hp. reflexivity.
Qed.

End Rewriting.

(** ** Case identifiers (C6) *)

Section CaseIdRule.

Implicit Types (r : regex) (st y z : mstate) (w s t tl u pre post : jsstring)
  (p : option char).

Local Abbreviation T := (str "[CASE_ID]").

Lemma case_id_shape :
  Rules.case_id
  = RSeq (RRep 1 None (RClass false [Rules.upper]))
         (RSeq (RChar 45) (RRep 1 None (RClass false [CDigit]))).
Proof. reflexivity. Qed.

Lemma upper_all s :
  Forall (fun c => class_mem false [Rules.upper] c = true) (leading is_upper s).
Proof.
  eapply Forall_impl; [apply leading_all|]. intros c Hc. apply upper_class, Hc.
Qed.

Lemma digit_all s :
  Forall (fun c => class_mem false [CDigit] c = true) (leading is_digit s).
Proof.
  eapply Forall_impl; [apply leading_all|]. intros c Hc. apply digit_class, Hc.
Qed.

Lemma behind_stops_upper s : stops false [Rules.upper] (behind is_upper s).
Proof.
  unfold stops. pose proof (behind_head is_upper s) as H.
  destruct (behind is_upper s); [exact I|]. rewrite upper_mem. exact H.
Qed.

Lemma behind_stops_digit s : stops false [CDigit] (behind is_digit s).
Proof.
  unfold stops. pose proof (behind_head is_digit s) as H.
  destruct (behind is_digit s); [exact I|]. rewrite digit_mem. exact H.
Qed.

(** The case-id rule at a position: [case_id_at] says whether it
    matches and what it takes, whatever precedes the position. *)
Lemma exec_case_id p s :
  match case_id_at s with
  | Some (w, t) =>
      exists y, exec Rules.case_id p s = Some y /\ rest y = t /\ caps y = []
                /\ s = w ++ t /\ w <> []
  | None => exec Rules.case_id p s = None
  end.
Proof.
  unfold case_id_at.
  pose proof (leading_behind is_upper s) as Es.
  pose proof (upper_all s) as HU.
  pose proof (behind_stops_upper s) as HsU.
  pose proof (behind_head is_upper s) as HbU.
  set (st := {| prev := p; rest := s; caps := [] |}).
  destruct (leading is_upper s) as [|c0 U0] eqn:EU.
  { apply exec_none, m_nil_by_first; [reflexivity|]. cbn [rest st].
    clear Es HU HsU HbU. destruct s as [|c t]; [exact I|].
    rewrite case_id_first, upper_mem. cbn [leading] in EU.
    destruct (is_upper c); [discriminate EU | reflexivity]. }
  set (U := c0 :: U0) in *.
  destruct (behind is_upper s) as [|c s2] eqn:Eb.
  { apply exec_none, (m_nil_by_count q_hyphen). cbn [rest]. rewrite Es, app_nil_r.
    rewrite occ_none; [vm_compute; lia|].
    eapply Forall_impl; [exact HU|]. intros d Hd. cbv beta in Hd.
    rewrite upper_mem in Hd. unfold q_hyphen, is_upper in *. charb. }
  destruct (N.eqb_spec c 45) as [->|Hc].
  2:{ apply exec_none. rewrite case_id_shape.
      apply (run_then_char_blocked _ _ _ _ _ _ st U c s2);
        [exact Es | exact HU | rewrite upper_mem; exact HbU | exact Hc | reflexivity]. }
  pose proof (leading_behind is_digit s2) as Es2.
  pose proof (digit_all s2) as HDs.
  pose proof (behind_stops_digit s2) as HsD.
  set (y1 := after_word st U (45 :: s2)).
  set (y2 := eat 45 s2 y1).
  assert (F1 : first_match (RRep 1 None (RClass false [Rules.upper])) st y1).
  { apply first_rep_class; [exact Es | exact HU | exact HsU | unfold U; simpl; lia]. }
  assert (F2 : first_match (RChar 45) y1 y2) by (apply first_char; reflexivity).
  destruct (leading is_digit s2) as [|d0 D0] eqn:ED.
  { apply exec_none. rewrite case_id_shape. apply m_seq_nil. intros z Hz.
    destruct (m_rep_class_states _ _ _ _ _ _ Hz) as (w & Hw & HF & _ & _).
    apply m_seq_nil. intros z1 Hz1.
    cbn [m] in Hz1. destruct (rest z) as [|d t'] eqn:Ez; [destruct Hz1|].
    destruct (N.eqb_spec d 45) as [->|]; [|destruct Hz1].
    destruct Hz1 as [<-|[]].
    cbn [rest st] in Hw. rewrite Es in Hw.
    destruct (run_split_unique (fun d => class_mem false [Rules.upper] d = true) 45
                U w s2 t' HU HF) as [_ <-]; [discriminate | exact Hw |].
    apply m_nil_by_first; [reflexivity|]. cbn [rest eat].
    cbn [app] in Es2. pose proof (behind_head is_digit s2) as Hh.
    rewrite <- Es2 in Hh. destruct s2 as [|e s3]; [exact I|].
    change (firstc (RRep 1 None (RClass false [CDigit])) e)
      with (class_mem false [CDigit] e).
    rewrite digit_mem. exact Hh. }
  set (Ds := d0 :: D0) in *.
  set (y3 := after_word y2 Ds (behind is_digit s2)).
  assert (F3 : first_match (RRep 1 None (RClass false [CDigit])) y2 y3).
  { apply first_rep_class; [exact Es2 | exact HDs | exact HsD | unfold Ds; simpl; lia]. }
  exists y3. repeat split.
  - apply first_exec. rewrite case_id_shape.
    apply (first_seq _ _ _ y1); [exact F1|].
    apply (first_seq _ _ _ y2); [exact F2 | exact F3].
  - rewrite Es at 1. rewrite Es2 at 1. rewrite <- app_assoc. reflexivity.
  - discriminate.
Qed.

(** The scan of the case-id rule does not look behind its position. *)
Lemma scan_case_id_prev s p p' :
  scan Rules.case_id T O p s = scan Rules.case_id T O p' s.
Proof.
  pose proof (exec_case_id p s) as H1. pose proof (exec_case_id p' s) as H2.
  destruct (case_id_at s) as [[w t]|].
  - destruct H1 as (y & He & Hr & _ & Es & Hw).
    destruct H2 as (y' & He' & Hr' & _ & _ & _).
    rewrite (scan_match _ _ _ _ _ w He), (scan_match _ _ _ _ _ w He');
      try assumption; try (rewrite Hr; exact Es); try (rewrite Hr'; exact Es).
    rewrite !expand_plain by reflexivity. rewrite Hr, Hr'. f_equal.
    destruct (exists_last Hw) as (w' & x & ->).
    rewrite !prev_after_app. reflexivity.
  - destruct s as [|c t]; [rewrite !scan_nil by reflexivity; reflexivity|].
    rewrite !scan_fail by assumption. reflexivity.
Qed.

Lemma case_id_at_app pre tl :
  pre <> [] -> last_is is_upper pre = false -> head_is is_upper tl = true ->
  case_id_at (pre ++ tl)
  = match case_id_at pre with
    | Some (w, t) => Some (w, t ++ tl)
    | None => None
    end.
Proof.
  intros Hne Hl Hh. unfold case_id_at.
  assert (Hb : behind is_upper pre <> []).
  { intros Hb. pose proof (leading_behind is_upper pre) as E.
    rewrite Hb, app_nil_r in E.
    rewrite (last_is_all is_upper pre Hne) in Hl; [discriminate|].
    rewrite E. apply leading_all. }
  destruct (leading_app_inside is_upper pre tl Hb) as [-> ->].
  destruct (leading is_upper pre) as [|c0 U0]; [reflexivity|].
  destruct (behind is_upper pre) as [|c s2]; [congruence|].
  cbn [app]. destruct (c =? 45); [|reflexivity].
  assert (Hd : head_is is_digit tl = false).
  { destruct tl as [|d tl']; [reflexivity|]. cbn [head_is head] in *.
    unfold is_upper, is_digit in *. charb. }
  destruct (leading_app_stop is_digit s2 tl Hd) as [-> ->].
  destruct (leading is_digit s2); reflexivity.
Qed.

(** A text that does not end in an upper-case letter is scanned on its
    own when upper-case letters follow it. *)
Lemma scan_case_id_app tl : forall (n : nat) pre p,
  (length pre <= n)%nat ->
  last_is is_upper pre = false -> head_is is_upper tl = true ->
  scan Rules.case_id T O p (pre ++ tl)
  = scan Rules.case_id T O p pre ++ scan Rules.case_id T O None tl.
Proof.
  induction n as [|n IH]; intros pre p Hlen Hl Hh.
  - destruct pre; [|simpl in Hlen; lia]. rewrite scan_nil by reflexivity.
    apply scan_case_id_prev.
  - destruct pre as [|c a]; [rewrite scan_nil by reflexivity; apply scan_case_id_prev|].
    pose proof (exec_case_id p (c :: a)) as H1.
    pose proof (exec_case_id p ((c :: a) ++ tl)) as H2.
    rewrite case_id_at_app in H2 by (first [discriminate | assumption]).
    destruct (case_id_at (c :: a)) as [[w t]|].
    + destruct H1 as (y & He & Hr & _ & Es & Hw).
      destruct H2 as (y' & He' & Hr' & _ & Es' & _).
      rewrite (scan_match _ _ _ _ _ w He), (scan_match _ _ _ _ _ w He');
        try assumption; try (rewrite Hr; exact Es); try (rewrite Hr'; exact Es').
      rewrite !expand_plain by reflexivity. rewrite Hr, Hr', <- app_assoc. f_equal.
      apply IH; [| |exact Hh].
      * assert (E : length (c :: a) = length (w ++ t)) by (rewrite <- Es; reflexivity).
        rewrite length_app in E. destruct w; [congruence|]. simpl in *. lia.
      * destruct t as [|d t']; [reflexivity|].
        rewrite Es in Hl. rewrite last_is_suffix in Hl by discriminate. exact Hl.
    + change ((c :: a) ++ tl) with (c :: (a ++ tl)).
      rewrite !scan_fail by assumption. cbn [app]. f_equal.
      apply IH; [simpl in Hlen; lia | | exact Hh].
      destruct a as [|d a']; [reflexivity|].
      change (c :: d :: a') with ([c] ++ d :: a') in Hl.
      rewrite last_is_suffix in Hl by discriminate. exact Hl.
Qed.

Lemma case_id_at_identifier L D post :
  forallb is_upper L = true -> L <> [] ->
  forallb is_digit D = true -> D <> [] ->
  head_is is_digit post = false ->
  case_id_at (L ++ 45 :: D ++ post) = Some (L ++ 45 :: D, post).
Proof.
  intros HL HLne HD HDne Hp. unfold case_id_at.
  destruct (leading_app is_upper L (45 :: D ++ post) (forallb_Forall_true _ _ HL))
    as [-> ->].
  cbn [leading behind]. change (is_upper 45) with false. rewrite app_nil_r.
  destruct L as [|l0 L0]; [congruence|].
  rewrite N.eqb_refl.
  destruct (leading_app is_digit D post (forallb_Forall_true _ _ HD)) as [-> ->].
  destruct (leading_stop is_digit post Hp) as [-> ->]. rewrite app_nil_r.
  destruct D as [|d0 D0]; [congruence|]. reflexivity.
Qed.

(** The case-id rule on a text around an identifier. *)
Lemma case_id_rule_general pre L D post :
  forallb is_upper L = true -> L <> [] ->
  forallb is_digit D = true -> D <> [] ->
  last_is is_upper pre = false -> head_is is_digit post = false ->
  replace_all Rules.case_id T (case_subject pre L D post)
  = replace_all Rules.case_id T pre ++ T ++ replace_all Rules.case_id T post.
Proof.
  intros HL HLne HD HDne Hpre Hpost. unfold replace_all, case_subject.
  rewrite (scan_case_id_app _ (length pre)); [|lia | exact Hpre |].
  2:{ destruct L as [|l0 L0]; [congruence|]. cbn [app head_is head].
      cbn [forallb] in HL. apply andb_true_iff in HL as [Hl0 _]. exact Hl0. }
  f_equal.
  pose proof (exec_case_id None (L ++ [45] ++ D ++ post)) as H.
  change (L ++ [45] ++ D ++ post) with (L ++ 45 :: D ++ post) in *.
  rewrite case_id_at_identifier in H by assumption.
  destruct H as (y & He & Hr & _ & Es & Hw).
  rewrite (scan_match _ _ _ _ _ (L ++ 45 :: D) He); [| rewrite Hr; exact Es | exact Hw].
  rewrite expand_plain by reflexivity. rewrite Hr. f_equal.
  apply scan_case_id_prev.
Qed.

End CaseIdRule.

Section CaseIdClaim.

Variables (pre L D post : jsstring).

Hypothesis HL : forallb is_upper L = true.

Hypothesis HLne : L <> [].

Hypothesis HD : forallb is_digit D = true.

Hypothesis HDne : D <> [].

Hypothesis Hpre : last_is is_upper pre = false.

Hypothesis Hpost : head_is is_digit post = false.

Local Abbreviation T := (str "[CASE_ID]").

Local Abbreviation subject := (case_subject pre L D post).

Local Abbreviation rewritten :=
  (replace_all Rules.case_id T pre ++ T ++ replace_all Rules.case_id T post).

Lemma case_id_stage (x : jsstring) :
  apply_rules (firstn 8 rules) x = subject ->
  apply_rules (firstn 9 rules) x = rewritten
  /\ normalizeErrorPattern (JString x) = apply_rules (skipn 9 rules) rewritten.
Proof.
  intros Hx.
  assert (E9 : apply_rules (firstn 9 rules) x = rewritten).
  { change (firstn 9 rules) with (firstn 8 rules ++ [(Rules.case_id, T)]).
    rewrite apply_rules_app, Hx, apply_rules_one.
    apply case_id_rule_general; assumption. }
  split; [exact E9|].
  destruct x as [|c t].
  { exfalso.
    assert (E0 : apply_rules (firstn 8 rules) [] = []) by (vm_compute; reflexivity).
    rewrite E0 in Hx. unfold case_subject in Hx. symmetry in Hx.
    apply app_eq_nil in Hx as [_ Hx]. apply app_eq_nil in Hx as [Hx _].
    exact (HLne Hx). }
  rewrite normalize_of_string. unfold normalize_string.
  change rules with (firstn 9 rules ++ skipn 9 rules) at 1.
  rewrite apply_rules_app, E9. reflexivity.
Qed.

End CaseIdClaim.

Section Maximal.

Implicit Types (s pre post : jsstring) (f : char -> bool).

Lemma before_trailing f s : s = before f s ++ trailing f s.
Proof.
  unfold before, trailing. rewrite <- rev_app_distr, <- leading_behind.
  symmetry. apply rev_involutive.
Qed.

Lemma trailing_all f s : forallb f (trailing f s) = true.
Proof.
  unfold trailing. apply forallb_forall. intros c Hc. apply in_rev in Hc.
  pose proof (leading_all f (rev s)) as H. rewrite List.Forall_forall in H.
  apply H, Hc.
Qed.

Lemma before_last f s : last_is f (before f s) = false.
Proof.
  unfold before, last_is. pose proof (behind_head f (rev s)) as H.
  destruct (behind f (rev s)) as [|c t]; [reflexivity|].
  cbn [rev]. rewrite last_snoc. exact H.
Qed.

Lemma behind_first f s : head_is f (behind f s) = false.
Proof.
  unfold head_is. pose proof (behind_head f s) as H.
  destruct (behind f s) as [|c t]; [reflexivity | exact H].
Qed.

Lemma before_all s f : last_is f s = false -> before f s = s.
Proof.
  intros H. unfold before, last_is in *.
  destruct s as [|c t] using rev_ind; [reflexivity|].
  rewrite last_snoc in H. rewrite rev_app_distr. cbn [rev app behind].
  rewrite H. cbn [rev]. rewrite rev_involutive. reflexivity.
Qed.

Lemma behind_all s f : head_is f s = false -> behind f s = s.
Proof. intros H. apply leading_stop, H. Qed.

End Maximal.

Section CaseIdAny.

Variables (pre L D post : jsstring).

Hypothesis HL : forallb is_upper L = true.

Hypothesis HLne : L <> [].

Hypothesis HD : forallb is_digit D = true.

Hypothesis HDne : D <> [].

Local Abbreviation T := (str "[CASE_ID]").

Local Abbreviation subject := (case_subject pre L D post).

Local Abbreviation rewritten :=
  (replace_all Rules.case_id T (before is_upper pre) ++ T
   ++ replace_all Rules.case_id T (behind is_digit post)).

(** The identifier with the upper-case letters directly before it and
    the digits directly after it. *)
Lemma subject_maximal :
  subject
  = case_subject (before is_upper pre) (trailing is_upper pre ++ L)
                 (D ++ leading is_digit post) (behind is_digit post).
Proof.
  unfold case_subject.
  rewrite (before_trailing is_upper pre) at 1.
  rewrite (leading_behind is_digit post) at 1.
  rewrite <- !app_assoc. reflexivity.
Qed.

Lemma case_id_stage_any (x : jsstring) :
  apply_rules (firstn 8 rules) x = subject ->
  apply_rules (firstn 9 rules) x = rewritten
  /\ normalizeErrorPattern (JString x) = apply_rules (skipn 9 rules) rewritten.
Proof.
  rewrite subject_maximal. apply case_id_stage.
  - rewrite forallb_app, trailing_all, HL. reflexivity.
  - intros E. apply app_eq_nil in E as [_ E]. exact (HLne E).
  - rewrite forallb_app, HD. cbn [andb]. apply forallb_forall.
    intros c Hc. pose proof (leading_all is_digit post) as H.
    rewrite List.Forall_forall in H. apply H, Hc.
  - intros E. apply app_eq_nil in E as [E _]. exact (HDne E).
  - apply before_last.
  - apply behind_first.
Qed.

End CaseIdAny.

Section HexLiteral.

Implicit Types (st y : mstate) (w s t tmpl : jsstring) (p : option char).

(** A hexadecimal literal begins with 0x. *)
Lemma hex_literal_start st :
  match rest st with
  | c :: d :: _ => c <> 48 \/ d <> 120
  | _ => True
  end ->
  m Rules.hex_literal st = [].
Proof.
  intros Hr. apply no_results. intros y Hy.
  destruct (m_lang _ _ _ Hy) as (w & E & L).
  change Rules.hex_literal
    with (RSeq RWordB (RSeq (RSeq (RChar 48) (RChar 120))
                            (RSeq (plus Rules.hexdigit) RWordB))) in L.
  cbn [Lang] in L.
  destruct L as (w1 & w2 & -> & -> & w3 & w4 & -> & (a & b & -> & -> & ->) & _).
  rewrite E in Hr. cbn [app] in Hr. destruct Hr as [Hr|Hr]; congruence.
Qed.

Lemma scan_no_0x tmpl : forall s p,
  no_pair 48 120 s = true -> scan Rules.hex_literal tmpl O p s = s.
Proof.
  induction s as [|c t IH]; intros p Hs; [apply scan_nil; reflexivity|].
  apply no_pair_cons in Hs as [Ht Hc].
  rewrite scan_fail; [f_equal; apply IH, Ht|].
  apply exec_none, hex_literal_start. cbn [rest].
  destruct t as [|d t']; [exact I|].
  destruct (N.eq_dec c 48) as [->|Hne]; [|left; exact Hne].
  right. intros ->. apply Hc; reflexivity.
Qed.

End HexLiteral.

Section CaseIdContext.

Variables (pre L D post : jsstring).

Hypothesis HL : forallb is_upper L = true.

Hypothesis HLne : L <> [].

Hypothesis HD : forallb is_digit D = true.

Hypothesis HDne : D <> [].

Hypothesis Hpre : last_is is_upper pre = false.

Hypothesis Hpost : head_is is_digit post = false.

Hypothesis Hmarks : occ q_marks (pre ++ post) = O.

Hypothesis Hdigits : (occ is_digit (pre ++ post) <= 5)%nat.

Hypothesis Hdots : (occ q_dot (pre ++ post) <= 2)%nat.

Hypothesis Hpre0x : no_pair 48 120 pre = true.

Hypothesis Hpost0x : no_pair 48 120 post = true.

Local Abbreviation T := (str "[CASE_ID]").

Local Abbreviation subject := (case_subject pre L D post).

Lemma occ_weaker (q q' : char -> bool) (s : jsstring) :
  (forall c, q c = true -> q' c = true) -> occ q' s = O -> occ q s = O.
Proof.
  intros Hq. induction s as [|c t IH]; intros H0; [reflexivity|].
  cbn [occ] in *. destruct (q c) eqn:Ec.
  - rewrite (Hq c Ec) in H0. discriminate H0.
  - apply IH. destruct (q' c); [discriminate H0 | exact H0].
Qed.

Lemma marks_occ (q : char -> bool) :
  (forall c, q c = true -> q_marks c = true) ->
  occ q pre = O /\ occ q post = O.
Proof.
  intros Hq. pose proof (occ_weaker q q_marks (pre ++ post) Hq Hmarks) as H0.
  rewrite occ_app in H0. lia.
Qed.

Lemma context_before_case_id : apply_rules (firstn 8 rules) subject = subject.
Proof.
  apply (apply_rules_quiet [(q_early, O); (q_hyphen, 1%nat)]).
  - unfold case_subject.
    constructor; [|constructor; [|constructor]]; cbn [fst snd]; rewrite !occ_app.
    + destruct (marks_occ q_early) as [-> ->].
      { intros c. unfold q_early, q_marks. cbn [existsb]. intros H. charb. }
      rewrite (occ_zero_forallb q_early is_upper L), (occ_zero_forallb q_early is_digit D);
        [reflexivity | | assumption | | assumption];
        intros c; unfold q_early, is_upper; intros H; charb.
    + destruct (marks_occ q_hyphen) as [-> ->].
      { intros c. unfold q_hyphen, q_marks. cbn [existsb]. intros H. charb. }
      rewrite (occ_zero_forallb q_hyphen is_upper L), (occ_zero_forallb q_hyphen is_digit D);
        [simpl; lia | | assumption | | assumption];
        intros c; unfold q_hyphen, is_upper; intros H; charb.
  - vm_compute. reflexivity.
Qed.

Lemma context_kept :
  replace_all Rules.case_id T pre ++ T ++ replace_all Rules.case_id T post
  = case_masked pre post.
Proof.
  destruct (marks_occ q_hyphen) as [H1 H2].
  { intros c. unfold q_hyphen, q_marks. cbn [existsb]. intros H. charb. }
  rewrite !(replace_all_by_count q_hyphen) by (rewrite ?H1, ?H2; vm_compute; lia).
  reflexivity.
Qed.

Lemma context_after_case_id :
  apply_rules (skipn 9 rules) (case_masked pre post) = case_masked pre post.
Proof.
  change (skipn 9 rules)
    with (firstn 13 (skipn 9 rules) ++ [(Rules.hex_literal, str "[HEX]")]).
  rewrite apply_rules_app, apply_rules_one.
  assert (E : apply_rules (firstn 13 (skipn 9 rules)) (case_masked pre post)
              = case_masked pre post).
  { apply (apply_rules_quiet [(q_links, O); (is_digit, 5%nat); (q_dot, 2%nat)]).
    - unfold case_masked.
      constructor; [|constructor; [|constructor; [|constructor]]]; cbn [fst snd];
        rewrite !occ_app.
      + destruct (marks_occ q_links) as [-> ->]; [|reflexivity].
        intros c. unfold q_links, q_marks. cbn [existsb]. intros H. charb.
      + rewrite occ_app in Hdigits.
        change (occ is_digit (str "[CASE_ID]")) with O. lia.
      + rewrite occ_app in Hdots.
        change (occ q_dot (str "[CASE_ID]")) with O. lia.
    - vm_compute. reflexivity. }
  rewrite E. unfold replace_all. apply scan_no_0x.
  unfold case_masked. apply no_pair_app. split; [exact Hpre0x|]. split.
  - apply no_pair_app. split; [reflexivity|]. split; [exact Hpost0x|].
    intros E'. discriminate E'.
  - intros _. discriminate.
Qed.

Lemma case_id_in_context :
  normalizeErrorPattern (JString subject) = case_masked pre post.
Proof.
  destruct (case_id_stage pre L D post HL HLne HD HDne Hpre Hpost subject
              context_before_case_id) as [_ ->].
  rewrite context_kept. apply context_after_case_id.
Qed.

End CaseIdContext.

(** C6, as stated for every such substring, fails: inside a UUID the
    last two groups [ABCD-123456789012] have the shape of a case
    identifier, but the UUID rule runs first and takes them. *)
Lemma C6_case_id_inside_uuid :
  let pre := str "12345678-1234-1234-" in
  let L := str "ABCD" in
  let D := str "123456789012" in
  forallb is_upper L = true /\ forallb is_digit D = true /\
  (6 <= length D)%nat /\
  normalizeErrorPattern (JString (pre ++ L ++ str "-" ++ D)) = str "[UUID]" /\
  contains (str "[CASE_ID]")
           (normalizeErrorPattern (JString (pre ++ L ++ str "-" ++ D))) = false.
Proof. vm_compute. repeat split; lia. Qed.

(** After the case-id rule, later rules can still rewrite the text
    around the placeholder, and the placeholder with it. *)
Example case_id_inside_path :
  apply_rules (firstn 9 rules) (str "/var/CO-1234567") = str "/var/[CASE_ID]" /\
  normalizeErrorPattern (JString (str "/var/CO-1234567")) = str "[FILE_PATH]".
Proof. vm_compute. split; reflexivity. Qed.

(** C6 (amended): take upper-case letters, a hyphen and digits in a
    text that reaches the case-id rule, that is, let the eight rules
    before it turn the input [x] into [pre], the letters, the hyphen,
    the digits and [post].  Then the case-id rule replaces them by
    [CASE_ID], together with the upper-case letters that stand directly
    before them and the digits that stand directly after them: its
    result is the rest of [pre] and the rest of [post], each with its
    own case identifiers replaced, around [CASE_ID]; and the normalizer
    returns what the long-number rule and the rules after it make of
    that text, in which the digits of the identifier are gone.  When
    [pre] does not end in an upper-case letter and [post] does not
    begin with a digit, the rest of [pre] is [pre] and the rest of
    [post] is [post]; if moreover [pre] and [post] have none of
    ( [ - / : @ =, at most five digits and two dots between them, and
    nowhere 0x (letters of either case are allowed), then the input
    [pre], identifier, [post] normalizes to [pre], [CASE_ID], [post],
    and not to the letters followed by -[ID]. *)
Theorem C6_case_id_before_long_number (x pre L D post : jsstring) :
  forallb is_upper L = true -> L <> [] ->
  forallb is_digit D = true -> D <> [] ->
  let subject := pre ++ L ++ str "-" ++ D ++ post in
  let rewritten :=
    replace_all Rules.case_id (str "[CASE_ID]") (before is_upper pre)
    ++ str "[CASE_ID]"
    ++ replace_all Rules.case_id (str "[CASE_ID]") (behind is_digit post) in
  (apply_rules (firstn 8 rules) x = subject ->
   apply_rules (firstn 9 rules) x = rewritten
   /\ normalizeErrorPattern (JString x) = apply_rules (skipn 9 rules) rewritten)
  /\ (last_is is_upper pre = false -> head_is is_digit post = false ->
      (before is_upper pre = pre /\ behind is_digit post = post)
      /\ (occ q_marks (pre ++ post) = O ->
          (occ is_digit (pre ++ post) <= 5)%nat ->
          (occ q_dot (pre ++ post) <= 2)%nat ->
          no_pair 48 120 pre = true -> no_pair 48 120 post = true ->
          normalizeErrorPattern (JString subject) = pre ++ str "[CASE_ID]" ++ post
          /\ normalizeErrorPattern (JString subject)
             <> pre ++ L ++ str "-[ID]" ++ post)).
Proof.
  intros HL HLne HD HDne subject rewritten. split.
  - apply case_id_stage_any; assumption.
  - intros Hpre Hpost.
    split; [split; [apply before_all, Hpre | apply behind_all, Hpost]|].
    intros Hm Hd Hdot H1 H2.
    assert (E : normalizeErrorPattern (JString subject) = pre ++ str "[CASE_ID]" ++ post)
      by (apply case_id_in_context; assumption).
    split; [exact E|]. rewrite E. intros Habs.
    apply app_inv_head in Habs.
    destruct L as [|c t]; [congruence|].
    simpl in HL. apply andb_true_iff in HL as [Hc _].
    injection Habs as Hc' _. subst c. discriminate Hc.
Qed.

Lemma C6_case_id_before_long_number_witness :
  let x := str "On 2025-01-01 ERR-42: case XCO-12345678 at step 12" in
  let pre := str "On [DATE] ERR-42: case X" in
  let L := str "CO" in
  let D := str "123456" in
  let post := str "78 at step 12" in
  let pre' := str "Error 42 processing case " in
  let post' := str " at step 10." in
  (forallb is_upper L = true /\ L <> [] /\ forallb is_digit D = true /\ D <> []) /\
  (apply_rules (firstn 8 rules) x = pre ++ L ++ str "-" ++ D ++ post /\
   before is_upper pre = str "On [DATE] ERR-42: case " /\
   behind is_digit post = str " at step 12" /\
   apply_rules (firstn 9 rules) x
   = str "On [DATE] [CASE_ID]: case [CASE_ID] at step 12" /\
   normalizeErrorPattern (JString x)
   = str "On [DATE] [CASE_ID]: case [CASE_ID] at step 12") /\
  ((last_is is_upper pre' = false /\ head_is is_digit post' = false
    /\ occ q_marks (pre' ++ post') = O /\ (occ is_digit (pre' ++ post') <= 5)%nat
    /\ (occ q_dot (pre' ++ post') <= 2)%nat
    /\ no_pair 48 120 pre' = true /\ no_pair 48 120 post' = true) /\
   normalizeErrorPattern
     (JString (str "Error 42 processing case CO-123456 at step 10."))
   = str "Error 42 processing case [CASE_ID] at step 10.").
Proof.
  split; [repeat split; first [reflexivity | discriminate]|].
  split.
  - assert (Hx : apply_rules (firstn 8 rules)
                   (str "On 2025-01-01 ERR-42: case XCO-12345678 at step 12")
                 = str "On [DATE] ERR-42: case X" ++ str "CO" ++ str "-"
                   ++ str "123456" ++ str "78 at step 12")
      by (vm_compute; reflexivity).
    split; [exact Hx|].
    split; [vm_compute; reflexivity|]. split; [vm_compute; reflexivity|].
    destruct (C6_case_id_before_long_number
                (str "On 2025-01-01 ERR-42: case XCO-12345678 at step 12")
                (str "On [DATE] ERR-42: case X") (str "CO") (str "123456")
                (str "78 at step 12"))
      as [[E9 En] _];
      [reflexivity | discriminate | reflexivity | discriminate | exact Hx |].
    split; [rewrite E9 | rewrite En]; vm_compute; reflexivity.
  - split; [repeat split; vm_compute; first [reflexivity | lia]|].
    destruct (C6_case_id_before_long_number []
                (str "Error 42 processing case ") (str "CO") (str "123456")
                (str " at step 10."))
      as [_ [_ [E _]]];
      [reflexivity | discriminate | reflexivity | discriminate
      | vm_compute; reflexivity | vm_compute; reflexivity
      | vm_compute; reflexivity | vm_compute; lia | vm_compute; lia
      | vm_compute; reflexivity | vm_compute; reflexivity |].
    exact E.
Defined.

(** ** Digits before an at-sign (C10) *)

Section LocalPart.

Implicit Types (r : regex) (st y z : mstate) (w s a u v t tmpl : jsstring)
  (p : option char).

(** ** The long-number rule on the local part *)

Lemma long_number_on_digits D t :
  forallb is_digit D = true -> (6 <= length D)%nat ->
  replace_all Rules.long_number (str "[ID]") (D ++ 64 :: t)
  = str "[ID]@" ++ scan Rules.long_number (str "[ID]") O (Some 64) t.
Proof.
  intros HD HDlen.
  assert (HDne : D <> []) by (destruct D; [simpl in HDlen; lia | discriminate]).
  assert (HF : Forall (fun c => is_digit c = true) D)
    by (apply forallb_Forall_true, HD).
  set (st := {| prev := None; rest := D ++ 64 :: t; caps := [] |}).
  assert (Hf : first_match Rules.long_number st (after_word st D (64 :: t))).
  { change Rules.long_number
      with (RSeq RWordB (RSeq (RRep 6 None (RClass false [CDigit])) RWordB)).
    apply (first_seq _ _ _ st); [|apply (first_seq _ _ _ (after_word st D (64 :: t)))].
    - apply first_boundary. unfold at_boundary, st. cbn [prev rest opt_word xorb].
      destruct D as [|d D']; [congruence|]. cbn [app head opt_word].
      inversion HF; subst. apply digit_word. assumption.
    - apply first_rep_class; [reflexivity | | reflexivity | exact HDlen].
      eapply Forall_impl; [exact HF|]. intros c Hc. apply digit_class, Hc.
    - apply first_boundary. unfold at_boundary, after_word, st. cbn [prev rest head].
      destruct (prev_after_last (fun c => is_digit c = true) D None HDne HF)
        as (c & -> & Hc).
      cbn [opt_word]. rewrite (digit_word _ Hc). reflexivity. }
  unfold replace_all.
  rewrite (scan_match _ _ _ _ _ D (first_exec _ _ _ _ Hf)); [|reflexivity | exact HDne].
  change (expand (ngroups Rules.long_number) (str "[ID]") D
                 (caps (after_word st D (64 :: t)))) with (str "[ID]").
  cbn [rest after_word].
  change (64 :: t) with ([64] ++ t).
  rewrite (scan_by_first _ _ [64]); [reflexivity | reflexivity |].
  constructor; [reflexivity | constructor].
Qed.

(** ** The email rule after the placeholder *)

Lemma email_shape :
  Rules.email
  = RSeq RWordB (RSeq (RRep 1 None (RClass false local_class))
                      (RSeq (RChar 64) email_tail)).
Proof. reflexivity. Qed.

Lemma email_blocked st a c u :
  rest st = a ++ c :: u ->
  Forall (fun d => class_mem false local_class d = true) a ->
  class_mem false local_class c = false -> c <> 64 ->
  m Rules.email st = [].
Proof.
  intros Hr Ha Hc Hne. rewrite email_shape. apply m_boundary_seq_nil.
  apply (run_then_char_blocked _ _ _ _ _ _ _ a c u); try assumption. reflexivity.
Qed.

(** The bracket before the at-sign is not part of a local part, so no
    address begins in the placeholder. *)
Lemma email_after_id tmpl t :
  scan Rules.email tmpl O None (str "[ID]@" ++ t)
  = str "[ID]@" ++ scan Rules.email tmpl O (Some 64) t.
Proof.
  change (str "[ID]@" ++ t) with (91 :: 73 :: 68 :: 93 :: 64 :: t).
  rewrite scan_fail.
  2:{ apply exec_none, (email_blocked _ [] 91 (73 :: 68 :: 93 :: 64 :: t));
        [reflexivity | constructor | reflexivity | discriminate]. }
  rewrite scan_fail.
  2:{ apply exec_none, (email_blocked _ [73; 68] 93 (64 :: t));
        [reflexivity | repeat constructor | reflexivity | discriminate]. }
  rewrite scan_fail.
  2:{ apply exec_none, (email_blocked _ [68] 93 (64 :: t));
        [reflexivity | repeat constructor | reflexivity | discriminate]. }
  rewrite scan_fail.
  2:{ apply exec_none, (email_blocked _ [] 93 (64 :: t));
        [reflexivity | constructor | reflexivity | discriminate]. }
  rewrite scan_fail.
  2:{ apply exec_none, m_nil_by_first; reflexivity. }
  reflexivity.
Qed.

Lemma email_skips_id tmpl t :
  occ (N.eqb 64) t = O ->
  replace_all Rules.email tmpl (str "[ID]@" ++ t) = str "[ID]@" ++ t.
Proof.
  intros Ht. unfold replace_all. rewrite email_after_id. f_equal.
  apply (scan_by_count (N.eqb 64)). rewrite Ht. vm_compute. lia.
Qed.

(** ** The object-reference rule after the placeholder *)

Lemma object_ref_shape :
  Rules.object_ref
  = RSeq (RRep 1 None (RClass false ref_class)) (RSeq (RChar 64) hex_tail).
Proof. reflexivity. Qed.

(** After the at-sign the rule asks for hexadecimal digits that end at
    a word boundary. *)
Lemma hex_tail_blocked z t :
  rest z = t -> hex_start t = false -> m hex_tail z = [].
Proof.
  intros Hr Hs. unfold hex_tail. apply m_seq_nil. intros z2 Hz2.
  destruct (m_rep_class_states _ _ _ _ _ _ Hz2) as (h & Hh & HF & Hlen & Ez).
  assert (HF' : Forall (fun c => is_hex c = true) h).
  { eapply Forall_impl; [exact HF|]. intros c Hc. cbv beta in Hc.
    rewrite hex_mem in Hc. exact Hc. }
  assert (Hne : h <> []) by (destruct h; [simpl in Hlen; lia | discriminate]).
  cbn [m]. replace (at_boundary z2) with false; [reflexivity|].
  symmetry. unfold at_boundary. rewrite Ez. cbn [after_word prev rest].
  destruct (prev_after_last _ h (prev z) Hne HF') as (c & -> & Hc).
  cbn [opt_word]. rewrite (hex_is_word _ Hc). cbn [xorb].
  apply negb_false_iff.
  rewrite Hr in Hh. unfold hex_start in Hs. rewrite Hh in Hs.
  destruct (leading_app is_hex h (rest z2) HF') as [El Eb]. rewrite El, Eb in Hs.
  rewrite length_app in Hs.
  destruct (rest z2) as [|d r'] eqn:Er.
  - exfalso. cbn [leading behind head opt_word negb length] in Hs.
    rewrite andb_true_r in Hs. apply Nat.leb_gt in Hs. lia.
  - cbn [head opt_word]. cbn [leading behind] in Hs.
    destruct (is_hex d) eqn:Hd; [apply hex_is_word, Hd|].
    cbn [head opt_word length] in Hs.
    apply andb_false_iff in Hs as [Hs|Hs].
    + apply Nat.leb_gt in Hs. lia.
    + apply negb_false_iff in Hs. exact Hs.
Qed.

Lemma object_ref_blocked st a t :
  rest st = a ++ 64 :: t ->
  Forall (fun d => class_mem false ref_class d = true) a ->
  hex_start t = false ->
  m Rules.object_ref st = [].
Proof.
  intros Hr Ha Hs. rewrite object_ref_shape. apply m_seq_nil. intros z Hz.
  destruct (m_rep_class_states _ _ _ _ _ _ Hz) as (w & Hw & HF & _ & _).
  apply m_seq_nil. intros z1 Hz1.
  cbn [m] in Hz1. destruct (rest z) as [|d t'] eqn:Ez; [destruct Hz1|].
  destruct (N.eqb_spec d 64) as [->|]; [|destruct Hz1].
  destruct Hz1 as [<-|[]].
  rewrite Hr in Hw.
  destruct (run_split_unique (fun d => class_mem false ref_class d = true) 64
              a w t t' Ha HF) as [_ <-]; [discriminate | exact Hw |].
  apply (hex_tail_blocked _ t); [reflexivity | exact Hs].
Qed.

Lemma object_ref_keeps_id tmpl t :
  hex_start t = false -> occ (N.eqb 64) t = O ->
  replace_all Rules.object_ref tmpl (str "[ID]@" ++ t) = str "[ID]@" ++ t.
Proof.
  intros Hs Ht. unfold replace_all.
  change (str "[ID]@" ++ t) with (91 :: 73 :: 68 :: 93 :: 64 :: t).
  rewrite scan_fail.
  2:{ apply exec_none, (object_ref_blocked _ [91; 73; 68; 93] t);
        [reflexivity | repeat constructor | exact Hs]. }
  rewrite scan_fail.
  2:{ apply exec_none, (object_ref_blocked _ [73; 68; 93] t);
        [reflexivity | repeat constructor | exact Hs]. }
  rewrite scan_fail.
  2:{ apply exec_none, (object_ref_blocked _ [68; 93] t);
        [reflexivity | repeat constructor | exact Hs]. }
  rewrite scan_fail.
  2:{ apply exec_none, (object_ref_blocked _ [93] t);
        [reflexivity | repeat constructor | exact Hs]. }
  rewrite scan_fail.
  2:{ apply exec_none, m_nil_by_first; reflexivity. }
  do 5 f_equal.
  apply (scan_by_count (N.eqb 64)). rewrite Ht. vm_compute. lia.
Qed.

Lemma object_ref_takes_id t :
  hex_start t = true -> occ (N.eqb 64) t = O ->
  replace_all Rules.object_ref (str "[OBJECT_REF]") (str "[ID]@" ++ t)
  = str "[OBJECT_REF]" ++ behind is_hex t.
Proof.
  intros Hs Ht. unfold hex_start in Hs. apply andb_true_iff in Hs as [Hlen Hb].
  apply Nat.leb_le in Hlen. apply negb_true_iff in Hb.
  set (h := leading is_hex t) in *. set (b := behind is_hex t) in *.
  assert (Et : t = h ++ b) by apply leading_behind.
  assert (HF : Forall (fun c => is_hex c = true) h) by apply leading_all.
  assert (Hne : h <> []) by (destruct h; [simpl in Hlen; lia | discriminate]).
  set (st := {| prev := None; rest := str "[ID]@" ++ t; caps := [] |}).
  set (y1 := after_word st (str "[ID]") (64 :: t)).
  set (y2 := eat 64 t y1).
  set (y3 := after_word y2 h b).
  assert (Hf : first_match Rules.object_ref st y3).
  { rewrite object_ref_shape.
    apply (first_seq _ _ _ y1); [|apply (first_seq _ _ _ y2)].
    - apply first_rep_class; [reflexivity | repeat constructor | reflexivity |].
      vm_compute. lia.
    - apply first_char. reflexivity.
    - unfold hex_tail. apply (first_seq _ _ _ y3).
      + apply first_rep_class; [exact Et | | | exact Hlen].
        * eapply Forall_impl; [exact HF|]. intros c Hc. cbv beta.
          rewrite hex_mem. exact Hc.
        * unfold stops. pose proof (behind_head is_hex t) as Hh. fold b in Hh.
          destruct b as [|c b']; [exact I|]. rewrite hex_mem. exact Hh.
      + apply first_boundary. unfold at_boundary, y3, after_word.
        cbn [prev rest].
        destruct (prev_after_last _ h (prev y2) Hne HF) as (c & -> & Hc).
        cbn [opt_word]. rewrite (hex_is_word _ Hc), Hb. reflexivity. }
  unfold replace_all.
  rewrite (scan_match _ _ _ _ _ (str "[ID]@" ++ h) (first_exec _ _ _ _ Hf)).
  - change (expand (ngroups Rules.object_ref) (str "[OBJECT_REF]") (str "[ID]@" ++ h)
                   (caps y3)) with (str "[OBJECT_REF]").
    f_equal. cbn [rest y3 after_word].
    apply (scan_by_count (N.eqb 64)).
    assert (Hb0 : occ (N.eqb 64) b = O).
    { rewrite Et, occ_app in Ht. lia. }
    rewrite Hb0. vm_compute. lia.
  - cbn [rest y3 after_word]. rewrite Et at 1. rewrite <- app_assoc. reflexivity.
  - discriminate.
Qed.

End LocalPart.

Section Blocks.

Implicit Types (r : regex) (st y z : mstate) (w s o u v t d tmpl : jsstring)
  (p : option char) (rs : list (regex * jsstring)).

Lemma prefix_before (x : char) : forall w d t u,
  Forall (fun c => c <> x) w -> d ++ x :: t = w ++ u -> exists d', d = w ++ d'.
Proof.
  induction w as [|c w IH]; intros d t u Hw E; [exists d; reflexivity|].
  inversion Hw as [|? ? Hc Hw']; subst.
  destruct d as [|c' d]; cbn [app] in E.
  - injection E as E _. congruence.
  - injection E as -> E. destruct (IH _ _ _ Hw' E) as (d' & ->).
    exists d'. reflexivity.
Qed.

(** No match begins in a run of digits that ends on an at-sign, for a
    pattern that needs a code unit other than a digit and cannot read
    an at-sign. *)
Lemma digits_block_exec r d t p :
  uses r 64 = false ->
  (0 < min_count (fun c => negb (is_digit c)) r)%nat ->
  forallb is_digit d = true ->
  exec r p (d ++ 64 :: t) = None.
Proof.
  intros Hu Hm Hd. apply exec_none, no_results. intros y Hy.
  destruct (m_lang _ _ _ Hy) as (w & E & L). cbn [rest] in E.
  assert (Hw : Forall (fun c => c <> 64) w).
  { eapply Forall_impl; [apply (lang_uses _ _ L)|]. cbv beta.
    intros c Hc ->. congruence. }
  destruct (prefix_before 64 _ _ _ _ Hw E) as (d' & ->).
  pose proof (lang_min_count (fun c => negb (is_digit c)) _ _ L) as Hle.
  assert (H0 : occ (fun c => negb (is_digit c)) (w ++ d') = O).
  { apply (occ_zero_forallb _ is_digit); [|exact Hd].
    intros c ->. reflexivity. }
  rewrite occ_app in H0. lia.
Qed.

Lemma digits_block r tmpl D t :
  uses r 64 = false ->
  (0 < min_count (fun c => negb (is_digit c)) r)%nat ->
  forallb is_digit D = true ->
  replace_all r tmpl (D ++ 64 :: t) = D ++ 64 :: scan r tmpl O (Some 64) t.
Proof.
  intros Hu Hm HD. unfold replace_all.
  change (D ++ 64 :: t) with (D ++ [64] ++ t). rewrite app_assoc.
  rewrite scan_pass.
  - rewrite prev_after_app. rewrite <- app_assoc. reflexivity.
  - intros a1 a2 E Hne.
    destruct (exists_last Hne) as (a2' & x & ->).
    rewrite app_assoc in E. apply app_inj_tail in E as [ED <-].
    rewrite <- app_assoc. apply digits_block_exec; [exact Hu | exact Hm |].
    rewrite ED, forallb_app in HD. apply andb_true_iff in HD as [_ HD]. exact HD.
Qed.

Lemma scans_app p rs1 rs2 t :
  scans p (rs1 ++ rs2) t = scans p rs2 (scans p rs1 t).
Proof. apply fold_left_app. Qed.

Lemma apply_rules_block D rs : forall t,
  forallb is_digit D = true ->
  forallb (fun rt => negb (uses (fst rt) 64)
                     && Nat.ltb 0 (min_count (fun c => negb (is_digit c)) (fst rt)))
          rs = true ->
  apply_rules rs (D ++ 64 :: t) = D ++ 64 :: scans (Some 64) rs t.
Proof.
  induction rs as [|[r tmpl] rs IH]; intros t HD Hrs; [reflexivity|].
  cbn [forallb fst] in Hrs. apply andb_true_iff in Hrs as [Hr Hrs].
  apply andb_true_iff in Hr as [Hu Hm].
  apply negb_true_iff in Hu. apply Nat.ltb_lt in Hm.
  rewrite apply_rules_cons, digits_block by assumption.
  rewrite IH by assumption. reflexivity.
Qed.

Lemma scans_by_count (q : char -> bool) p rs : forall t,
  forallb (fun rt => Nat.ltb 0 (min_count q (fst rt))) rs = true ->
  occ q t = O -> scans p rs t = t.
Proof.
  induction rs as [|[r tmpl] rs IH]; intros t Hrs Ht; [reflexivity|].
  cbn [forallb fst] in Hrs. apply andb_true_iff in Hrs as [Hr Hrs].
  apply Nat.ltb_lt in Hr.
  unfold scans. cbn [fold_left fst snd].
  rewrite (scan_by_count q) by lia. apply IH; assumption.
Qed.

End Blocks.

Section TidyText.

Implicit Types (t v : jsstring).

Lemma tidy_no_at t : tidy t = true -> occ (N.eqb 64) t = O.
Proof.
  apply tidy_occ. intros c Hc.
  destruct (N.eqb_spec 64 c) as [<-|]; [discriminate Hc | reflexivity].
Qed.

Lemma tidy_outside t : tidy t = true -> occ q_outside (str "[ID]@" ++ t) = O.
Proof.
  intros Ht. rewrite occ_app. rewrite (tidy_occ q_outside t); [reflexivity | | exact Ht].
  intros c Hc. unfold q_outside. rewrite Hc. reflexivity.
Qed.

(** The email and the IPv4 rule, and the rules up to the query-string
    rule, leave the placeholder and the at-sign in place. *)
Lemma domain_after_query_string : forall t,
  tidy t = true ->
  apply_rules (firstn 11 (skipn 10 rules)) (str "[ID]@" ++ t)
  = str "[ID]@" ++ scans (Some 64) (firstn 11 (skipn 10 rules)) t
  /\ tidy (scans (Some 64) (firstn 11 (skipn 10 rules)) t) = true.
Proof.
  intros t Ht.
  change (firstn 11 (skipn 10 rules))
    with ([(Rules.email, str "[EMAIL]")] ++ [(Rules.ipv4, str "[IP]")]
          ++ firstn 9 (skipn 12 rules)).
  rewrite !apply_rules_app, !scans_app,
    (apply_rules_one Rules.email), (apply_rules_one Rules.ipv4).
  rewrite (email_skips_id _ t (tidy_no_at t Ht)).
  assert (Ee : scans (Some 64) [(Rules.email, str "[EMAIL]")] t = t).
  { apply (scans_by_count (N.eqb 64)); [vm_compute; reflexivity | apply tidy_no_at, Ht]. }
  rewrite Ee.
  change (scans (Some 64) [(Rules.ipv4, str "[IP]")] t)
    with (scan Rules.ipv4 (str "[IP]") O (Some 64) t).
  set (t' := scan Rules.ipv4 (str "[IP]") O (Some 64) t).
  assert (Ht' : tidy t' = true) by (apply scan_tidy; [vm_compute; reflexivity | exact Ht]).
  assert (Eq : scans (Some 64) (firstn 9 (skipn 12 rules)) t' = t').
  { apply (scans_by_count q_outside); [vm_compute; reflexivity|].
    apply tidy_occ; [|exact Ht']. intros c Hc. unfold q_outside. rewrite Hc. reflexivity. }
  rewrite Eq. split; [|exact Ht'].
  unfold replace_all.
  rewrite (scan_by_first _ _ (str "[ID]@")); [|reflexivity | repeat constructor].
  change (prev_after None (str "[ID]@")) with (Some 64). fold t'.
  apply (apply_rules_quiet [(q_outside, O)]).
  - constructor; [|constructor]. cbn [fst snd]. rewrite (tidy_outside _ Ht'). lia.
  - vm_compute. reflexivity.
Qed.

(** The last two rules: the object-reference rule takes the
    placeholder, the at-sign and the hexadecimal digits after it, or
    nothing. *)
Lemma domain_last_rules : forall t,
  tidy t = true ->
  apply_rules (skipn 21 rules) (str "[ID]@" ++ t)
  = if hex_start t
    then str "[OBJECT_REF]"
         ++ scan Rules.hex_literal (str "[HEX]") O (Some 93) (behind is_hex t)
    else str "[ID]@" ++ scan Rules.hex_literal (str "[HEX]") O (Some 64) t.
Proof.
  intros t Ht.
  change (skipn 21 rules)
    with ([(Rules.object_ref, str "[OBJECT_REF]")]
          ++ [(Rules.hex_literal, str "[HEX]")]).
  rewrite apply_rules_app, (apply_rules_one Rules.object_ref),
    (apply_rules_one Rules.hex_literal).
  destruct (hex_start t) eqn:Hs.
  - rewrite (object_ref_takes_id t Hs (tidy_no_at t Ht)).
    unfold replace_all.
    rewrite (scan_by_first _ _ (str "[OBJECT_REF]")); [|reflexivity | repeat constructor].
    reflexivity.
  - rewrite (object_ref_keeps_id _ t Hs (tidy_no_at t Ht)).
    unfold replace_all.
    rewrite (scan_by_first _ _ (str "[ID]@")); [|reflexivity | repeat constructor].
    reflexivity.
Qed.

Lemma tidy_no_email (P v : jsstring) :
  no_pair 91 69 P = true -> last P <> Some 91 -> tidy v = true ->
  contains (str "[EMAIL]") (P ++ v) = false.
Proof.
  intros HP Hl Hv. apply (contains_pair 91 69). apply no_pair_app.
  apply andb_true_iff in Hv as [_ Hv]. repeat split; try assumption.
  intros E. contradiction.
Qed.

End TidyText.

Section DomainText.

Variables D dom : jsstring.

Hypothesis HD : forallb is_digit D = true.

Hypothesis HDlen : (6 <= length D)%nat.

Hypothesis Hdom : forallb domain_char dom = true.

Lemma domain_tidy : tidy dom = true.
Proof.
  clear HD HDlen. unfold tidy. apply andb_true_iff. split.
  - apply forallb_forall. intros c Hc. unfold text_char.
    rewrite forallb_forall in Hdom. rewrite (Hdom c Hc). reflexivity.
  - induction dom as [|x t IH]; [reflexivity|].
    cbn [forallb] in Hdom. apply andb_true_iff in Hdom as [Hx Ht].
    apply no_pair_cons. split; [apply IH, Ht|].
    intros ->. discriminate Hx.
Qed.

(** The text after the at-sign when the long-number rule has run. *)
Lemma tidy_after_long_number :
  tidy (scans (Some 64) (firstn 10 rules) dom) = true.
Proof.
  change (firstn 10 rules) with (firstn 4 rules ++ firstn 6 (skipn 4 rules)).
  rewrite scans_app.
  rewrite (scans_by_count q_foreign _ (firstn 4 rules)).
  - apply scans_tidy; [vm_compute; reflexivity | apply domain_tidy].
  - vm_compute. reflexivity.
  - apply (occ_zero_forallb q_foreign domain_char); [|exact Hdom].
    intros c Hc. unfold q_foreign. rewrite Hc. reflexivity.
Qed.

Lemma domain_after_long_number :
  apply_rules (firstn 10 rules) (address D dom)
  = str "[ID]@" ++ scans (Some 64) (firstn 10 rules) dom.
Proof.
  change (firstn 10 rules)
    with (firstn 9 rules ++ [(Rules.long_number, str "[ID]")]).
  rewrite apply_rules_app, scans_app. unfold address.
  rewrite (apply_rules_block D) by (first [exact HD | vm_compute; reflexivity]).
  rewrite apply_rules_one. apply long_number_on_digits; assumption.
Qed.

Lemma tidy_before_object_ref :
  tidy (scans (Some 64) (firstn 21 rules) dom) = true.
Proof.
  change (firstn 21 rules) with (firstn 10 rules ++ firstn 11 (skipn 10 rules)).
  rewrite scans_app.
  apply (domain_after_query_string _ tidy_after_long_number).
Qed.

Lemma digit_address_domain :
  normalizeErrorPattern (JString (address D dom)) = address_result dom.
Proof.
  assert (E : normalizeErrorPattern (JString (address D dom))
              = normalize_string (address D dom)).
  { unfold address. destruct D; [simpl in HDlen; lia | reflexivity]. }
  rewrite E. unfold normalize_string, address_result.
  change rules with (firstn 10 rules ++ firstn 11 (skipn 10 rules) ++ skipn 21 rules)
    at 1.
  rewrite !apply_rules_app, domain_after_long_number.
  destruct (domain_after_query_string _ tidy_after_long_number) as [-> Ht'].
  rewrite <- scans_app.
  change (firstn 10 rules ++ firstn 11 (skipn 10 rules)) with (firstn 21 rules).
  apply domain_last_rules, tidy_before_object_ref.
Qed.

Lemma address_result_no_email :
  contains (str "[EMAIL]") (address_result dom) = false.
Proof.
  unfold address_result. pose proof tidy_before_object_ref as Ht.
  destruct (hex_start _).
  - apply tidy_no_email; [reflexivity | discriminate |].
    apply scan_tidy; [vm_compute; reflexivity | apply tidy_behind, Ht].
  - apply tidy_no_email; [reflexivity | discriminate |].
    apply scan_tidy; [vm_compute; reflexivity | exact Ht].
Qed.

End DomainText.

Section QuietDomain.

Implicit Types (t : jsstring) (p : option char) (rs : list (regex * jsstring)).

Lemma scans_quiet (qbs : list ((char -> bool) * nat)) p rs : forall t,
  Forall (fun qb => (occ (fst qb) t <= snd qb)%nat) qbs ->
  forallb (fun rt =>
             existsb (fun qb => Nat.ltb (snd qb) (min_count (fst qb) (fst rt))) qbs)
          rs = true ->
  scans p rs t = t.
Proof.
  induction rs as [|[r tmpl] rs IH]; intros t Hq Hall; [reflexivity|].
  cbn [forallb fst] in Hall. apply andb_true_iff in Hall as [Hr Hrs].
  apply existsb_exists in Hr as ([q b] & Hin & Hlt). cbn [fst snd] in Hlt.
  apply Nat.ltb_lt in Hlt.
  rewrite List.Forall_forall in Hq. pose proof (Hq _ Hin) as Hb. cbn [fst snd] in Hb.
  unfold scans. cbn [fold_left fst snd].
  rewrite (scan_by_count q) by lia.
  apply IH; [apply List.Forall_forall; exact Hq | exact Hrs].
Qed.

Variable dom : jsstring.

Hypothesis Hdom : forallb domain_char dom = true.

Hypothesis Hdigits : (occ is_digit dom <= 3)%nat.

Hypothesis Hhyphens : (occ q_hyphen dom <= 3)%nat.

Hypothesis Hcase :
  occ is_upper dom = O \/ occ q_hyphen dom = O \/ occ is_digit dom = O.

Hypothesis H0x : no_pair 48 120 dom = true.

Lemma domain_foreign : occ q_foreign dom = O.
Proof.
  apply (occ_zero_forallb q_foreign domain_char); [|exact Hdom].
  intros c Hc. unfold q_foreign. rewrite Hc. reflexivity.
Qed.

Lemma domain_no_at : occ (N.eqb 64) dom = O.
Proof.
  apply (occ_zero_forallb _ domain_char); [|exact Hdom].
  intros c Hc. destruct (N.eqb_spec 64 c) as [<-|]; [discriminate Hc | reflexivity].
Qed.

(** No rule before the object-reference rule fires in the domain. *)
Lemma quiet_domain_scans : scans (Some 64) (firstn 21 rules) dom = dom.
Proof.
  pose proof domain_foreign as Hf. pose proof domain_no_at as Ha.
  destruct Hcase as [Hc|[Hc|Hc]].
  - apply (scans_quiet [(q_foreign, O); (N.eqb 64, O); (is_digit, 3%nat);
                        (q_hyphen, 3%nat); (is_upper, O)]).
    + repeat (apply List.Forall_cons; [cbn [fst snd]; lia|]). apply List.Forall_nil.
    + vm_compute. reflexivity.
  - apply (scans_quiet [(q_foreign, O); (N.eqb 64, O); (is_digit, 3%nat);
                        (q_hyphen, O)]).
    + repeat (apply List.Forall_cons; [cbn [fst snd]; lia|]). apply List.Forall_nil.
    + vm_compute. reflexivity.
  - apply (scans_quiet [(q_foreign, O); (N.eqb 64, O); (is_digit, O);
                        (q_hyphen, 3%nat)]).
    + repeat (apply List.Forall_cons; [cbn [fst snd]; lia|]). apply List.Forall_nil.
    + vm_compute. reflexivity.
Qed.

Lemma quiet_domain_result :
  address_result dom
  = if hex_start dom then str "[OBJECT_REF]" ++ behind is_hex dom
    else str "[ID]@" ++ dom.
Proof.
  unfold address_result. rewrite quiet_domain_scans.
  destruct (hex_start dom).
  - rewrite scan_no_0x; [reflexivity|].
    rewrite (leading_behind is_hex dom) in H0x.
    apply no_pair_app in H0x as (_ & Hb & _). exact Hb.
  - rewrite scan_no_0x; [reflexivity | exact H0x].
Qed.

End QuietDomain.

Lemma name_domain_quiet (dom : jsstring) :
  forallb name_char dom = true ->
  forallb domain_char dom = true /\ occ is_digit dom = O
  /\ occ q_hyphen dom = O /\ no_pair 48 120 dom = true.
Proof.
  intros Hn.
  assert (Hq : forall q : char -> bool,
             (forall c, name_char c = true -> q c = false) -> occ q dom = O).
  { intros q Hq. apply (occ_zero_forallb q name_char); assumption. }
  split; [|split; [|split]].
  - rewrite forallb_forall in *. intros c Hc. specialize (Hn c Hc).
    unfold name_char, domain_char in *.
    apply orb_true_iff in Hn as [Hn|Hn]; [rewrite Hn; reflexivity|].
    rewrite Hn, !orb_true_r. reflexivity.
  - apply Hq. intros c H. unfold name_char, is_upper, is_lower in H. charb.
  - apply Hq. intros c H. unfold name_char, is_upper, is_lower, q_hyphen in *. charb.
  - clear Hq. induction dom as [|x t IH]; [reflexivity|].
    cbn [forallb] in Hn. apply andb_true_iff in Hn as [Hx Ht].
    apply no_pair_cons. split; [apply IH, Ht|].
    intros ->. discriminate Hx.
Qed.

(** C10, as stated for every such address, fails: the domain may begin
    with four or more hexadecimal digits that end at a word boundary,
    as in [face.com]; the object-reference rule then takes [ID]@ and
    these digits, and the result is not [ID]@ followed by the domain. *)
Lemma C10_hex_domain_is_object_ref :
  let D := str "1234567" in
  let dom := str "face.com" in
  forallb is_digit D = true /\ (6 <= length D)%nat /\
  forallb name_char dom = true /\
  normalizeErrorPattern (JString (D ++ str "@" ++ dom)) = str "[OBJECT_REF].com" /\
  normalizeErrorPattern (JString (D ++ str "@" ++ dom)) <> str "[ID]@" ++ dom.
Proof. vm_compute. repeat split; first [lia | discriminate]. Qed.

(** C10 (amended): for an address whose local part is a run of six or
    more digits and whose domain is made of letters, digits, dots and
    hyphens, the result never contains [EMAIL].  It is [ID]@ followed
    by the domain as the rules rewrite it after an at-sign, unless that
    text begins with four or more hexadecimal digits that end at a word
    boundary: then the object-reference rule replaces [ID]@ and these
    digits by [OBJECT_REF].  For a domain in which no other rule finds
    anything (at most three digits and three hyphens; no upper-case
    letter, or no hyphen, or no digit; nowhere 0x), as is every domain
    of letters and dots, the result is [ID]@ and the domain exactly
    when the domain does not begin in this way; otherwise it is
    [OBJECT_REF] and what follows the hexadecimal digits. *)
Theorem C10_digit_local_part (D dom : jsstring) :
  forallb is_digit D = true -> (6 <= length D)%nat ->
  forallb domain_char dom = true ->
  let out := normalizeErrorPattern (JString (D ++ str "@" ++ dom)) in
  contains (str "[EMAIL]") out = false
  /\ out = address_result dom
  /\ ((occ is_digit dom <= 3)%nat -> (occ q_hyphen dom <= 3)%nat ->
      occ is_upper dom = O \/ occ q_hyphen dom = O \/ occ is_digit dom = O ->
      no_pair 48 120 dom = true ->
      out = (if hex_start dom then str "[OBJECT_REF]" ++ behind is_hex dom
             else str "[ID]@" ++ dom)
      /\ (out = str "[ID]@" ++ dom <-> hex_start dom = false))
  /\ (forallb name_char dom = true ->
      occ is_digit dom = O /\ occ q_hyphen dom = O /\ no_pair 48 120 dom = true).
Proof.
  intros HD HDlen Hdom out.
  assert (E : out = address_result dom)
    by (apply (digit_address_domain D dom); assumption).
  split; [rewrite E; apply address_result_no_email; exact Hdom|].
  split; [exact E|].
  split.
  - intros Hd Hh Hc H0.
    assert (En : out = if hex_start dom then str "[OBJECT_REF]" ++ behind is_hex dom
                       else str "[ID]@" ++ dom)
      by (rewrite E; apply quiet_domain_result; assumption).
    split; [exact En|]. rewrite En.
    destruct (hex_start dom); split; try reflexivity; try discriminate.
  - intros Hn. apply name_domain_quiet, Hn.
Qed.

Lemma C10_digit_local_part_witness :
  let D := str "1234567" in
  let dom := str "example.com" in
  let dom' := str "mail-1.example.com" in
  (forallb is_digit D = true /\ (6 <= length D)%nat
   /\ forallb domain_char dom = true /\ forallb name_char dom = true
   /\ hex_start dom = false
   /\ forallb domain_char dom' = true /\ hex_start dom' = false) /\
  (normalizeErrorPattern (JString (D ++ str "@" ++ dom)) = str "[ID]@example.com" /\
   contains (str "[EMAIL]") (normalizeErrorPattern (JString (D ++ str "@" ++ dom)))
   = false) /\
  normalizeErrorPattern (JString (D ++ str "@" ++ dom'))
  = str "[ID]@mail-1.example.com".
Proof.
  split; [repeat split; first [reflexivity | (vm_compute; lia)]|].
  split.
  - destruct (C10_digit_local_part (str "1234567") (str "example.com"))
      as (Hno & _ & _ & Hname);
      [reflexivity | vm_compute; lia | reflexivity |].
    destruct (C10_digit_local_part (str "1234567") (str "example.com"))
      as (_ & _ & Hq & _);
      [reflexivity | vm_compute; lia | reflexivity |].
    destruct (Hname eq_refl) as (Hd & Hh & H0).
    destruct Hq as [E _];
      [rewrite Hd; lia | rewrite Hh; lia | right; left; exact Hh | exact H0 |].
    split; [exact E | exact Hno].
  - destruct (C10_digit_local_part (str "1234567") (str "mail-1.example.com"))
      as (_ & _ & Hq & _);
      [reflexivity | vm_compute; lia | reflexivity |].
    destruct Hq as [E _];
      [vm_compute; lia | vm_compute; lia | left; reflexivity | reflexivity |].
    exact E.
Defined.

(** * String methods *)

Section StringFacts.

Import JsString.

Implicit Types (s u v w sep chunk : jsstring) (x c : char).

Lemma trimStart_anchor u x v :
  is_space x = false -> trimStart (u ++ x :: v) = trimStart u ++ x :: v.
Proof.
  intros Hx. induction u as [|c u IH]; simpl.
  - rewrite Hx. reflexivity.
  - destruct (is_space c); [exact IH | reflexivity].
Qed.

Lemma trimEnd_anchor u x v :
  is_space x = false -> trimEnd (u ++ x :: v) = u ++ x :: trimEnd v.
Proof.
  intros Hx.
  assert (Hv : trimEnd (x :: v) = x :: trimEnd v).
  { simpl. destruct (trimEnd v); [rewrite Hx|]; reflexivity. }
  induction u as [|c u IH]; [exact Hv|].
  cbn [app trimEnd]. rewrite IH. destruct u; reflexivity.
Qed.

Lemma trim_anchor u x v :
  is_space x = false -> trim (u ++ x :: v) = trimStart u ++ x :: trimEnd v.
Proof.
  intros Hx. unfold trim. rewrite trimStart_anchor by exact Hx.
  apply trimEnd_anchor, Hx.
Qed.

Lemma trimEnd_idem s : trimEnd (trimEnd s) = trimEnd s.
Proof.
  induction s as [|c t IH]; [reflexivity|].
  cbn [trimEnd]. destruct (trimEnd t) as [|d t'] eqn:E.
  - destruct (is_space c) eqn:Hc; [reflexivity|]. simpl. rewrite Hc. reflexivity.
  - cbn [trimEnd]. cbn [trimEnd] in IH. rewrite IH. reflexivity.
Qed.

Lemma trimStart_trimEnd s : trimStart (trimEnd s) = trimEnd (trimStart s).
Proof.
  induction s as [|c t IH]; [reflexivity|].
  cbn [trimStart trimEnd]. destruct (is_space c) eqn:Hc.
  - rewrite <- IH. destruct (trimEnd t) as [|d t'] eqn:E; [reflexivity|].
    cbn [trimStart]. rewrite Hc. reflexivity.
  - destruct (trimEnd t) as [|d t'] eqn:E; cbn [trimStart trimEnd];
      rewrite Hc, ?E; reflexivity.
Qed.

Lemma trimStart_idem s : trimStart (trimStart s) = trimStart s.
Proof.
  induction s as [|c t IH]; [reflexivity|].
  cbn [trimStart]. destruct (is_space c) eqn:Hc; [exact IH|].
  cbn [trimStart]. rewrite Hc. reflexivity.
Qed.

Lemma trim_idem s : trim (trim s) = trim s.
Proof.
  unfold trim. rewrite trimStart_trimEnd, trimStart_idem. apply trimEnd_idem.
Qed.

Lemma trim_trimEnd s : trim (trimEnd s) = trim s.
Proof. unfold trim. rewrite trimStart_trimEnd. apply trimEnd_idem. Qed.

Lemma trim_trimStart s : trim (trimStart s) = trim s.
Proof. unfold trim. rewrite trimStart_idem. reflexivity. Qed.

Lemma trimEnd_free x s : free_of x s = true -> free_of x (trimEnd s) = true.
Proof.
  unfold free_of. induction s as [|c t IH]; [reflexivity|].
  cbn [forallb trimEnd]. intros H. apply andb_true_iff in H as [Hc Ht].
  specialize (IH Ht). destruct (trimEnd t) as [|d t'].
  - destruct (is_space c); [reflexivity|]. simpl. rewrite Hc. reflexivity.
  - cbn [forallb] in *. rewrite Hc. exact IH.
Qed.

Lemma trimStart_free x s : free_of x s = true -> free_of x (trimStart s) = true.
Proof.
  unfold free_of. induction s as [|c t IH]; [reflexivity|].
  cbn [forallb trimStart]. intros H. destruct (is_space c).
  - apply IH. apply andb_true_iff in H as [_ Ht]. exact Ht.
  - exact H.
Qed.

Lemma free_of_app x u v :
  free_of x (u ++ v) = free_of x u && free_of x v.
Proof. apply forallb_app. Qed.

(** *** split *)

Lemma startsWith_app sep s : startsWith (sep ++ s) sep = true.
Proof.
  induction sep as [|a sep IH]; [destruct s; reflexivity|].
  simpl. rewrite N.eqb_refl. exact IH.
Qed.

Lemma split_from_skip sep w : forall chunk s,
  split_from sep (length w) chunk (w ++ s) = split_from sep O chunk s.
Proof.
  induction w as [|c w IH]; intros chunk s.
  - simpl. destruct s; reflexivity.
  - simpl. apply IH.
Qed.

(** A separator at the current position ends the chunk. *)
Lemma split_from_found sep chunk s :
  sep <> [] ->
  split_from sep O chunk (sep ++ s) = chunk :: split_from sep O [] s.
Proof.
  intros Hsep. destruct sep as [|a sep']; [congruence|].
  change ((a :: sep') ++ s) with (a :: (sep' ++ s)).
  cbn [split_from].
  change (a :: (sep' ++ s)) with ((a :: sep') ++ s).
  rewrite startsWith_app. cbn [length Nat.pred].
  rewrite split_from_skip. reflexivity.
Qed.

Lemma split_from_pass sep tl : forall a chunk,
  no_start sep a tl ->
  split_from sep O chunk (a ++ tl) = split_from sep O (chunk ++ a) tl.
Proof.
  induction a as [|c a IH]; intros chunk Hns.
  - rewrite app_nil_r. reflexivity.
  - change ((c :: a) ++ tl) with (c :: (a ++ tl)). cbn [split_from].
    change (c :: (a ++ tl)) with ((c :: a) ++ tl).
    rewrite (Hns [] (c :: a)) by (reflexivity || discriminate).
    rewrite IH.
    + rewrite <- app_assoc. reflexivity.
    + intros a1 a2 E Hne. apply (Hns (c :: a1) a2); [|exact Hne].
      rewrite E. reflexivity.
Qed.

Lemma no_start_char x a tl :
  free_of x a = true -> no_start [x] a tl.
Proof.
  intros Hf a1 a2 -> Hne. destruct a2 as [|c a2]; [congruence|].
  unfold free_of in Hf. rewrite forallb_app in Hf.
  apply andb_true_iff in Hf as [_ Hf]. simpl in Hf.
  apply andb_true_iff in Hf as [Hc _]. apply negb_true_iff in Hc.
  simpl. rewrite Hc. reflexivity.
Qed.

(** An arrow cannot begin inside a text without [>] that an arrow or
    nothing follows. *)
Lemma no_start_arrow a tl :
  free_of (ch ">") a = true ->
  match tl with
  | [] => True
  | c :: _ => (c =? ch ">") = false
  end ->
  no_start (str "->") a tl.
Proof.
  intros Hf Htl a1 a2 -> Hne. destruct a2 as [|c a2]; [congruence|].
  unfold free_of in Hf. rewrite forallb_app in Hf.
  apply andb_true_iff in Hf as [_ Hf]. cbn [forallb] in Hf.
  apply andb_true_iff in Hf as [_ Hf].
  change (str "->") with [ch "-"; ch ">"].
  change ((c :: a2) ++ tl) with (c :: (a2 ++ tl)). cbn [startsWith].
  destruct (c =? ch "-"); [|reflexivity]. cbn [andb].
  destruct a2 as [|d a2].
  - destruct tl as [|e tl]; [reflexivity|].
    cbn [app startsWith]. cbv beta iota in Htl. rewrite Htl. reflexivity.
  - cbn [forallb] in Hf. apply andb_true_iff in Hf as [Hd _].
    apply negb_true_iff in Hd. cbn [app startsWith]. rewrite Hd. reflexivity.
Qed.

Lemma split_no_sep sep a :
  sep <> [] -> no_start sep a [] -> split a sep = [a].
Proof.
  intros Hsep Hns. unfold split. destruct sep as [|x sep']; [congruence|].
  rewrite <- (app_nil_r a) at 1. rewrite split_from_pass by exact Hns.
  reflexivity.
Qed.

Lemma split_first sep a b :
  sep <> [] -> no_start sep a (sep ++ b) ->
  split (a ++ sep ++ b) sep = a :: split b sep.
Proof.
  intros Hsep Hns. unfold split. destruct sep as [|x sep'] eqn:E; [congruence|].
  rewrite <- E in *. rewrite split_from_pass by exact Hns.
  rewrite split_from_found by exact Hsep. reflexivity.
Qed.

Lemma includes_char x s : includes s [x] = negb (free_of x s).
Proof.
  unfold free_of. induction s as [|c t IH]; [reflexivity|].
  cbn [includes startsWith forallb]. rewrite IH.
  destruct t; cbn [startsWith]; rewrite andb_true_r, negb_andb, negb_involutive;
    reflexivity.
Qed.

Lemma split_join x : forall parts : list jsstring,
  parts <> [] ->
  forallb (free_of x) parts = true ->
  split (join [x] parts) [x] = parts.
Proof.
  induction parts as [|a parts IH]; intros Hne Hf; [congruence|].
  cbn [forallb] in Hf. apply andb_true_iff in Hf as [Ha Hp].
  destruct parts as [|b parts].
  - cbn [join]. apply split_no_sep; [discriminate|]. apply no_start_char, Ha.
  - change (join [x] (a :: b :: parts)) with (a ++ [x] ++ join [x] (b :: parts)).
    rewrite split_first; [| discriminate | apply no_start_char, Ha].
    f_equal. apply IH; [discriminate | exact Hp].
Qed.

Lemma join_free x : forall parts : list jsstring,
  forallb (free_of x) parts = true ->
  free_of x (join [x] parts) = bool_decide (length parts <= 1)%nat.
Proof.
  induction parts as [|a parts IH]; intros Hf; [reflexivity|].
  cbn [forallb] in Hf. apply andb_true_iff in Hf as [Ha Hp].
  destruct parts as [|b parts]; [simpl; exact Ha|].
  change (join [x] (a :: b :: parts)) with (a ++ [x] ++ join [x] (b :: parts)).
  rewrite !free_of_app. unfold free_of at 2. cbn [forallb]. rewrite N.eqb_refl.
  rewrite andb_false_r. simpl. reflexivity.
Qed.

Lemma split_from_nonempty sep : forall s skip chunk,
  split_from sep skip chunk s <> [].
Proof.
  induction s as [|c t IH]; intros skip chunk; [discriminate|].
  cbn [split_from]. destruct skip; [|apply IH].
  destruct (startsWith (c :: t) sep); [discriminate | apply IH].
Qed.

(** A separator in the subject gives at least two parts. *)
Lemma split_from_two x : forall s chunk,
  free_of x s = false -> exists a b l, split_from [x] O chunk s = a :: b :: l.
Proof.
  induction s as [|c t IH]; intros chunk H; [discriminate|].
  cbn [split_from startsWith]. destruct (c =? x) eqn:Hc.
  - cbn [andb length Nat.pred].
    destruct (split_from [x] O [] t) as [|b l] eqn:E.
    + exfalso. exact (split_from_nonempty _ _ _ _ E).
    + eauto.
  - cbn [andb]. apply IH. unfold free_of in *. cbn [forallb] in H.
    rewrite Hc in H. exact H.
Qed.

Lemma split_length_includes x s :
  includes s [x] = true -> exists a b l, split s [x] = a :: b :: l.
Proof.
  rewrite includes_char. intros H. apply negb_true_iff in H.
  apply split_from_two, H.
Qed.

End StringFacts.

(** * The rule sequence of a signature *)

Section RuleSequenceFacts.

Import JsString RuleSequence.

Lemma colon_not_space : is_space (ch ":") = false.
Proof. reflexivity. Qed.

Lemma gt_not_space : is_space (ch ">") = false.
Proof. reflexivity. Qed.

(** The fields of a well-formed step, read back. *)
Lemma tokens_of_fields a b c :
  free_of (ch ">") a = true -> free_of (ch ">") b = true ->
  free_of (ch ">") c = true ->
  split (a ++ str "->" ++ b ++ str "->" ++ c) (str "->") = [a; b; c].
Proof.
  intros Ha Hb Hc.
  rewrite split_first; [| discriminate | apply no_start_arrow; [exact Ha | reflexivity]].
  rewrite split_first; [| discriminate | apply no_start_arrow; [exact Hb | reflexivity]].
  rewrite split_no_sep; [reflexivity | discriminate |].
  apply no_start_arrow; [exact Hc | exact I].
Qed.

Lemma parse_fields a b c :
  free_of (ch ">") a = true -> free_of (ch ">") b = true ->
  free_of (ch ">") c = true ->
  free_of (ch ":") a = true -> free_of (ch ":") b = true ->
  free_of (ch ":") c = true ->
  forall i : option jsstring,
  match i with
  | Some t => free_of (ch ":") t = true
  | None => True
  end ->
  parse_part (match i with
              | Some t => t ++ str ":"
              | None => []
              end ++ a ++ str "->" ++ b ++ str "->" ++ c)
  = Some (Some {| type := trim a; name := trim b; class := trim c |}).
Proof.
  intros Ha Hb Hc Ha' Hb' Hc' i Hi.
  assert (Hend : trimEnd (a ++ str "->" ++ b ++ str "->" ++ c)
                 = a ++ str "->" ++ b ++ str "->" ++ trimEnd c).
  { change (a ++ str "->" ++ b ++ str "->" ++ c)
      with (a ++ [ch "-"] ++ [ch ">"] ++ b ++ [ch "-"] ++ [ch ">"] ++ c).
    replace (a ++ [ch "-"] ++ [ch ">"] ++ b ++ [ch "-"] ++ [ch ">"] ++ c)
      with ((a ++ [ch "-"] ++ [ch ">"] ++ b ++ [ch "-"]) ++ ch ">" :: c)
      by (rewrite <- !app_assoc; reflexivity).
    rewrite trimEnd_anchor by reflexivity.
    rewrite <- !app_assoc. reflexivity. }
  assert (Hfree : free_of (ch ":") (a ++ str "->" ++ b ++ str "->" ++ trimEnd c) = true).
  { rewrite !free_of_app, Ha', Hb', (trimEnd_free _ _ Hc'). reflexivity. }
  assert (Htok : forall y, trimEnd (a ++ str "->" ++ b ++ str "->" ++ c) = y ->
            (let tokens := split y (str "->") in
             Some (match tokens with
                   | t0 :: t1 :: t2 :: _ =>
                       Some {| type := trim t0; name := trim t1; class := trim t2 |}
                   | _ => None
                   end))
            = Some (Some {| type := trim a; name := trim b; class := trim c |})).
  { intros y <-. rewrite Hend. cbv zeta.
    rewrite tokens_of_fields by (try assumption; apply trimEnd_free, Hc).
    rewrite trim_trimEnd. reflexivity. }
  unfold parse_part. change (str ":") with [ch ":"]. destruct i as [t|].
  - (* with an index *)
    replace (trim ((t ++ [ch ":"]) ++ a ++ str "->" ++ b ++ str "->" ++ c))
      with (trimStart t ++ [ch ":"] ++ trimEnd (a ++ str "->" ++ b ++ str "->" ++ c)).
    2:{ rewrite <- app_assoc. symmetry. apply trim_anchor. reflexivity. }
    rewrite includes_char, !free_of_app. unfold free_of at 2. cbn [forallb].
    rewrite N.eqb_refl, andb_false_r. cbn [negb andb].
    change (str ":") with [ch ":"].
    rewrite split_first;
      [| discriminate | apply no_start_char, trimStart_free, Hi].
    rewrite split_no_sep;
      [| discriminate | apply no_start_char; rewrite Hend; exact Hfree].
    cbn [lookup list_lookup mbind option_bind].
    apply Htok. reflexivity.
  - (* without *)
    cbn [app].
    assert (Hs : trimStart (a ++ str "->" ++ b ++ str "->" ++ c)
                 = trimStart a ++ str "->" ++ b ++ str "->" ++ c).
    { change (a ++ str "->" ++ b ++ str "->" ++ c)
        with (a ++ ch "-" :: (str ">" ++ b ++ str "->" ++ c)).
      rewrite trimStart_anchor by reflexivity. reflexivity. }
    assert (Hend' : trimEnd (trimStart a ++ str "->" ++ b ++ str "->" ++ c)
                    = trimStart a ++ str "->" ++ b ++ str "->" ++ trimEnd c).
    { change (trimStart a ++ str "->" ++ b ++ str "->" ++ c)
        with (trimStart a ++ [ch "-"] ++ [ch ">"] ++ b ++ [ch "-"] ++ [ch ">"] ++ c).
      replace (trimStart a ++ [ch "-"] ++ [ch ">"] ++ b ++ [ch "-"] ++ [ch ">"] ++ c)
        with ((trimStart a ++ [ch "-"] ++ [ch ">"] ++ b ++ [ch "-"]) ++ ch ">" :: c)
        by (rewrite <- !app_assoc; reflexivity).
      rewrite trimEnd_anchor by reflexivity.
      rewrite <- !app_assoc. reflexivity. }
    assert (Ht : trim (a ++ str "->" ++ b ++ str "->" ++ c)
                 = trimStart a ++ str "->" ++ b ++ str "->" ++ trimEnd c).
    { unfold trim. rewrite Hs, Hend'. reflexivity. }
    rewrite Ht.
    rewrite includes_char, !free_of_app, (trimStart_free _ _ Ha'), Hb',
      (trimEnd_free _ _ Hc').
    change (free_of (ch ":") (str "->")) with true. cbn [negb andb].
    cbn [mbind option_bind]. cbv zeta.
    rewrite tokens_of_fields by (try assumption; try apply trimEnd_free;
                                 try apply trimStart_free; assumption).
    rewrite trim_trimStart, trim_trimEnd. reflexivity.
Qed.

Lemma parse_step (s : Step) :
  step_ok s = true -> parse_part (step_text s) = Some (Some (node_of s)).
Proof.
  unfold step_ok, step_text, node_of. intros H.
  apply andb_true_iff in H as [H1 H2].
  rewrite forallb_app in H1. apply andb_true_iff in H1 as [Hi H1].
  cbn [forallb] in H1, H2.
  repeat (apply andb_true_iff in H1 as [?H H1]).
  repeat (apply andb_true_iff in H2 as [?H H2]).
  repeat match goal with
         | X : _ && _ = true |- _ => apply andb_true_iff in X as [? ?]
         end.
  apply parse_fields; try assumption.
  destruct (index_text s) as [t|]; [|exact I].
  cbn [forallb] in Hi. apply andb_true_iff in Hi as [Hi _].
  apply andb_true_iff in Hi as [_ Hi]. exact Hi.
Qed.

Lemma step_text_free (s : Step) :
  step_ok s = true -> free_of (ch "|") (step_text s) = true.
Proof.
  unfold step_ok, step_text. intros H.
  apply andb_true_iff in H as [H1 _].
  rewrite forallb_app in H1. apply andb_true_iff in H1 as [Hi H1].
  cbn [forallb] in H1.
  repeat (apply andb_true_iff in H1 as [?H H1]).
  repeat match goal with
         | X : _ && _ = true |- _ => apply andb_true_iff in X as [? ?]
         end.
  rewrite !free_of_app.
  repeat match goal with
         | X : free_of (ch "|") _ = true |- _ => rewrite X; clear X
         end.
  destruct (index_text s) as [t|]; [|reflexivity].
  cbn [forallb] in Hi. apply andb_true_iff in Hi as [Hi _].
  apply andb_true_iff in Hi as [Hi _]. rewrite free_of_app, Hi. reflexivity.
Qed.

Lemma step_text_nonempty (s : Step) : step_text s <> [].
Proof.
  unfold step_text. intros E.
  apply (f_equal (existsb (N.eqb (ch ">")))) in E.
  rewrite !existsb_app in E. simpl in E.
  rewrite !orb_true_r in E. discriminate.
Qed.

End RuleSequenceFacts.

Section RuleSequenceTheorems.

Import JsString RuleSequence.

Lemma parse_part_total (part : jsstring) : is_Some (parse_part part).
Proof.
  unfold parse_part. change (str ":") with [ch ":"].
  destruct (includes (trim part) [ch ":"]) eqn:E.
  - destruct (split_length_includes _ _ E) as (a & b & l & ->).
    cbn [lookup list_lookup mbind option_bind]. eauto.
  - cbn [mbind option_bind]. eauto.
Qed.

(** X5: the parser of RuleSequenceViewer never fails: the element at
    index 1 of the split at the colon is read only when the part has a
    colon, so it is never undefined. *)
Theorem X5_rules_never_fail (signature : jsstring) :
  exists nodes, rules signature = Some nodes.
Proof.
  unfold rules.
  destruct (negb (truthy (JString signature)) || negb (includes signature (str "|")));
    [eauto|].
  destruct (mapM_is_Some_2 parse_part (split signature (str "|"))) as [ps E].
  { apply List.Forall_forall. intros p _. apply parse_part_total. }
  rewrite E. cbn [mbind option_bind]. eauto.
Qed.

(** X6: a signature written as steps [index:Type->Name->Class] joined by
    bars is read back as the list of its steps, each field trimmed; the
    index is optional.  A signature of fewer than two steps has no bar
    and gives no node at all. *)
Theorem X6_rules_of_steps (steps : list Step) :
  forallb step_ok steps = true ->
  rules (join (str "|") (map step_text steps))
  = Some (if Nat.ltb (length steps) 2 then [] else map node_of steps).
Proof.
  intros Hok. change (str "|") with [ch "|"].
  assert (Hfree : forallb (free_of (ch "|")) (map step_text steps) = true).
  { rewrite forallb_forall in *. intros t Ht. apply in_map_iff in Ht as (s & <- & Hs).
    apply step_text_free, Hok, Hs. }
  unfold rules. change (str "|") with [ch "|"].
  rewrite includes_char, (join_free _ _ Hfree), length_map.
  destruct steps as [|s1 [|s2 steps]].
  - reflexivity.
  - cbn [length]. rewrite bool_decide_true by lia.
    rewrite orb_true_r. reflexivity.
  - rewrite bool_decide_false by (cbn [length]; lia).
    assert (Hne : truthy (JString (join [ch "|"] (map step_text (s1 :: s2 :: steps))))
                  = true).
    { cbn [map join].
      destruct (step_text s1) as [|c t] eqn:E; [|reflexivity].
      exfalso. exact (step_text_nonempty _ E). }
    rewrite Hne. cbn [negb orb].
    rewrite split_join; [| discriminate | exact Hfree].
    rewrite (mapM_Some_2 parse_part (map step_text (s1 :: s2 :: steps))
               (map (fun s => Some (node_of s)) (s1 :: s2 :: steps))).
    + cbn [mbind option_bind]. f_equal.
      change (Nat.ltb (length (s1 :: s2 :: steps)) 2) with false. cbv iota.
      generalize (s1 :: s2 :: steps). intros l.
      induction l as [|s l IH]; [reflexivity|]. cbn. f_equal. exact IH.
    + rewrite forallb_forall in Hok. revert Hok.
      generalize (s1 :: s2 :: steps). intros l Hl.
      induction l as [|s l IH]; [constructor|].
      cbn [map]. constructor.
      * apply parse_step, Hl. left. reflexivity.
      * apply IH. intros x Hx. apply Hl. right. exact Hx.
Qed.

Lemma X6_rules_of_steps_witness :
  let steps :=
    [ {| index_text := Some (str "1"); type_text := str "Activity";
         name_text := str "LoadCase"; class_text := str "Work-Case " |};
      {| index_text := Some (str " 2"); type_text := str "Data Transform";
         name_text := str " Prepare "; class_text := str "NA" |} ] in
  forallb step_ok steps = true /\
  rules (str "1:Activity->LoadCase->Work-Case | 2:Data Transform-> Prepare ->NA")
  = Some [ {| type := str "Activity"; name := str "LoadCase";
              class := str "Work-Case" |};
           {| type := str "Data Transform"; name := str "Prepare";
              class := str "NA" |} ].
Proof.
  split; [reflexivity|].
  exact (X6_rules_of_steps
           [ {| index_text := Some (str "1"); type_text := str "Activity";
                name_text := str "LoadCase"; class_text := str "Work-Case " |};
             {| index_text := Some (str " 2"); type_text := str "Data Transform";
                name_text := str " Prepare "; class_text := str "NA" |} ]
           eq_refl).
Defined.

(** X7: no field of a node that the parser returns has white space at
    either end. *)
Theorem X7_rules_fields_trimmed (signature : jsstring) (nodes : list RuleNode) :
  rules signature = Some nodes -> Forall trimmed nodes.
Proof.
  unfold rules.
  destruct (negb (truthy (JString signature)) || negb (includes signature (str "|"))).
  { intros [= <-]. constructor. }
  destruct (mapM parse_part (split signature (str "|"))) as [ps|] eqn:E;
    [|discriminate].
  cbn [mbind option_bind]. intros [= <-].
  apply mapM_Some_1 in E.
  induction E as [|p o parts ps Hp _ IH]; [constructor|].
  cbn [omap]. destruct o as [n|]; cbn [id]; [|exact IH].
  constructor; [|exact IH].
  unfold parse_part in Hp.
  destruct (if includes (trim p) (str ":") then split (trim p) (str ":") !! 1%nat
            else Some (trim p)) as [content|]; [|discriminate].
  cbn [mbind option_bind] in Hp.
  destruct (split content (str "->")) as [|t0 [|t1 [|t2 ?]]]; try discriminate.
  injection Hp as <-. unfold trimmed. cbn [type name class].
  rewrite !trim_idem. repeat split.
Qed.

Lemma X7_rules_fields_trimmed_witness :
  exists nodes,
    rules (str " 1: Activity -> A -> B | 2:Flow->C->D ") = Some nodes
    /\ Forall trimmed nodes.
Proof.
  eexists. split; [vm_compute; reflexivity|].
  apply (X7_rules_fields_trimmed (str " 1: Activity -> A -> B | 2:Flow->C->D ")).
  vm_compute. reflexivity.
Defined.

(** X8: in a part with two colons only the text between the first and
    the second is read: what follows the second colon is dropped. *)
Theorem X8_second_colon_cuts (i y z : jsstring) :
  free_of (ch ":") i = true ->
  free_of (ch ":") y = true ->
  trimEnd y = y ->
  parse_part (i ++ str ":" ++ y ++ str ":" ++ z) = parse_part (i ++ str ":" ++ y).
Proof.
  intros Hi Hy Hend. unfold parse_part. change (str ":") with [ch ":"].
  assert (T1 : trim (i ++ [ch ":"] ++ y ++ [ch ":"] ++ z)
               = trimStart i ++ [ch ":"] ++ y ++ [ch ":"] ++ trimEnd z).
  { change (i ++ [ch ":"] ++ y ++ [ch ":"] ++ z) with (i ++ ch ":" :: (y ++ ch ":" :: z)).
    rewrite trim_anchor by reflexivity.
    rewrite trimEnd_anchor by reflexivity. reflexivity. }
  assert (T2 : trim (i ++ [ch ":"] ++ y) = trimStart i ++ [ch ":"] ++ y).
  { change (i ++ [ch ":"] ++ y) with (i ++ ch ":" :: y).
    rewrite trim_anchor by reflexivity. rewrite Hend. reflexivity. }
  rewrite T1, T2, !includes_char, !free_of_app.
  unfold free_of at 2 6. cbn [forallb]. rewrite N.eqb_refl, !andb_false_r.
  cbn [negb andb].
  pose proof (trimStart_free _ _ Hi) as Hi'.
  rewrite (split_first [ch ":"] (trimStart i) (y ++ [ch ":"] ++ trimEnd z));
    [| discriminate | apply no_start_char, Hi'].
  rewrite (split_first [ch ":"] y (trimEnd z));
    [| discriminate | apply no_start_char, Hy].
  rewrite (split_first [ch ":"] (trimStart i) y);
    [| discriminate | apply no_start_char, Hi'].
  rewrite (split_no_sep [ch ":"] y);
    [| discriminate | apply no_start_char, Hy].
  reflexivity.
Qed.

Lemma X8_second_colon_cuts_witness :
  parse_part (str "1:Activity->Load->Work:Case")
  = parse_part (str "1:Activity->Load->Work").
Proof.
  apply (X8_second_colon_cuts (str "1") (str "Activity->Load->Work") (str "Case"));
    reflexivity.
Defined.

End RuleSequenceTheorems.

(** * The sections of a report *)

Section ReportFacts.

Import JsString Report.

Implicit Types (r : regex) (s w h tl : jsstring) (st y : mstate).

Lemma ci_cases c :
  ci c = RChar c \/ exists items, ci c = RClass false items.
Proof.
  unfold ci. destruct (in_range 65 90 c); [right; eexists; reflexivity|].
  destruct (in_range 97 122 c); [right; eexists; reflexivity|].
  left. reflexivity.
Qed.

(** One pattern character takes one code unit, in one way. *)
Lemma ci_first c st x tl :
  Lang (ci c) x -> rest st = x ++ tl ->
  m (ci c) st = [after_word st x tl] /\ exists a, x = [a] /\ firstc (ci c) a = true.
Proof.
  intros HL Hr. destruct (ci_cases c) as [E|[items E]]; rewrite E in *.
  - cbn [Lang] in HL. subst x. cbn [m]. rewrite Hr. cbn [app]. rewrite N.eqb_refl.
    split; [reflexivity|]. exists c. split; [reflexivity|]. apply N.eqb_refl.
  - cbn [Lang] in HL. destruct HL as (a & -> & Ha). cbn [m]. rewrite Hr. cbn [app].
    rewrite Ha. split; [reflexivity|]. exists a. split; [reflexivity | exact Ha].
Qed.

Lemma ilit_first : forall (l : list char) st x tl,
  l <> [] -> Lang (ilit_chars l) x -> rest st = x ++ tl ->
  m (ilit_chars l) st = [after_word st x tl].
Proof.
  induction l as [|c l IH]; intros st x tl Hne HL Hr; [congruence|].
  destruct l as [|d l].
  - cbn [ilit_chars] in *. apply (ci_first c st x tl HL Hr).
  - change (ilit_chars (c :: d :: l)) with (RSeq (ci c) (ilit_chars (d :: l))) in *.
    cbn [Lang] in HL. destruct HL as (x1 & x2 & -> & H1 & H2).
    rewrite <- app_assoc in Hr.
    destruct (ci_first c st x1 (x2 ++ tl) H1 Hr) as [E1 _].
    cbn [m]. rewrite E1. cbn [flat_map]. rewrite app_nil_r.
    rewrite (IH (after_word st x1 (x2 ++ tl)) x2 tl); [| discriminate | exact H2 | reflexivity].
    rewrite after_word_app. reflexivity.
Qed.

(** A visible ASCII character stands for no white space, in any case. *)
Lemma ci_not_space c a :
  in_range 33 126 c = true -> firstc (ci c) a = true -> is_space a = false.
Proof.
  unfold ci. intros Hc.
  assert (Hs : forall b, in_range 33 126 b = true -> is_space b = false).
  { intros b Hb. unfold is_space, in_range in *.
    repeat rewrite ?andb_true_iff, ?orb_false_iff, ?andb_false_iff,
      ?N.eqb_neq, ?N.leb_le, ?N.leb_gt in *.
    lia. }
  destruct (in_range 65 90 c) eqn:E1; [|destruct (in_range 97 122 c) eqn:E2].
  - cbn [firstc cls class_mem existsb item_mem xorb]. intros H.
    apply Hs. unfold in_range in *.
    repeat rewrite ?andb_true_iff, ?orb_true_iff, ?N.eqb_eq, ?N.leb_le in *.
    lia.
  - cbn [firstc cls class_mem existsb item_mem xorb]. intros H.
    apply Hs. unfold in_range in *.
    repeat rewrite ?andb_true_iff, ?orb_true_iff, ?N.eqb_eq, ?N.leb_le in *.
    lia.
  - cbn [firstc]. intros H. apply N.eqb_eq in H. subst a. apply Hs, Hc.
Qed.

Lemma ilit_head (l : list char) x :
  visible l = true -> Lang (ilit_chars l) x ->
  exists a x', x = a :: x' /\ is_space a = false.
Proof.
  destruct l as [|c l]; [discriminate|]. cbn [visible forallb].
  intros Hv HL. apply andb_true_iff in Hv as [Hc _].
  destruct l as [|d l].
  - cbn [ilit_chars] in HL.
    destruct (ci_first c {| prev := None; rest := x ++ []; caps := [] |} x [] HL eq_refl)
      as (_ & a & -> & Ha).
    exists a, []. split; [reflexivity|]. exact (ci_not_space c a Hc Ha).
  - change (ilit_chars (c :: d :: l)) with (RSeq (ci c) (ilit_chars (d :: l))) in HL.
    cbn [Lang] in HL. destruct HL as (x1 & x2 & -> & H1 & _).
    destruct (ci_first c {| prev := None; rest := x1 ++ []; caps := [] |} x1 [] H1 eq_refl)
      as (_ & a & -> & Ha).
    exists a, x2. split; [reflexivity|]. exact (ci_not_space c a Hc Ha).
Qed.

Lemma words_head : forall (ws : list jsstring) x,
  ws <> [] -> forallb visible ws = true -> Lang (words_regex ws) x ->
  exists a x', x = a :: x' /\ is_space a = false.
Proof.
  intros [|w ws] x Hne Hv HL; [congruence|].
  cbn [forallb] in Hv. apply andb_true_iff in Hv as [Hw _].
  destruct ws as [|w2 ws].
  - cbn [words_regex] in HL. exact (ilit_head w x Hw HL).
  - change (words_regex (w :: w2 :: ws))
      with (RSeq (ilit_chars w) (RSeq (plus space) (words_regex (w2 :: ws)))) in HL.
    cbn [Lang] in HL. destruct HL as (x1 & x2 & -> & H1 & _).
    destruct (ilit_head w x1 Hw H1) as (a & x' & -> & Ha).
    exists a, (x' ++ x2). split; [reflexivity | exact Ha].
Qed.

Lemma space_class c : class_mem false [CSpace] c = is_space c.
Proof. unfold class_mem. cbn [existsb item_mem xorb]. apply orb_false_r. Qed.

Lemma stops_at_word x tl :
  (exists a x', x = a :: x' /\ is_space a = false) ->
  stops false [CSpace] (x ++ tl).
Proof. intros (a & x' & -> & Ha). cbn [app stops]. rewrite space_class. exact Ha. Qed.

(** A run of white space in the text, as the class repetition takes it. *)
Lemma spaces_first min x st tl :
  Lang (RRep min None space) x ->
  rest st = x ++ tl ->
  stops false [CSpace] tl ->
  first_match (RRep min None space) st (after_word st x tl).
Proof.
  intros HL Hr Hs.
  pose proof (lang_rep_class _ _ _ _ _ HL) as Hall.
  apply m_rep_class_greedy; try assumption.
  cbn [Lang] in HL. destruct HL as (ws & -> & Hws & Hlen).
  clear -Hws Hlen. revert min Hlen.
  induction Hws as [|w ws Hw _ IH]; intros min Hlen; [simpl in *; lia|].
  destruct Hw as (c & -> & _). cbn [concat app length].
  destruct min as [|k]; [lia|]. specialize (IH k). cbn [length] in Hlen. lia.
Qed.

Lemma words_first : forall (ws : list jsstring) st x tl,
  ws <> [] -> forallb visible ws = true ->
  Lang (words_regex ws) x -> rest st = x ++ tl ->
  first_match (words_regex ws) st (after_word st x tl).
Proof.
  induction ws as [|w ws IH]; intros st x tl Hne Hv HL Hr; [congruence|].
  cbn [forallb] in Hv. apply andb_true_iff in Hv as [Hw Hv].
  assert (Hwne : w <> []) by (destruct w; [discriminate | discriminate]).
  destruct ws as [|w2 ws].
  - cbn [words_regex] in *. exists []. apply ilit_first; assumption.
  - change (words_regex (w :: w2 :: ws))
      with (RSeq (ilit_chars w) (RSeq (plus space) (words_regex (w2 :: ws)))) in *.
    cbn [Lang] in HL.
    destruct HL as (x1 & x23 & -> & H1 & x2 & x3 & -> & H2 & H3).
    rewrite <- !app_assoc in Hr.
    eapply first_seq.
    { exists []. apply (ilit_first w st x1 (x2 ++ x3 ++ tl)); assumption. }
    eapply first_seq.
    { apply (spaces_first 1 x2 _ (x3 ++ tl)); [exact H2 | reflexivity |].
      apply stops_at_word. apply (words_head (w2 :: ws)); [discriminate | exact Hv | exact H3]. }
    replace (after_word st (x1 ++ x2 ++ x3) tl)
      with (after_word (after_word (after_word st x1 (x2 ++ x3 ++ tl)) x2 (x3 ++ tl))
                       x3 tl)
      by (rewrite !after_word_app; reflexivity).
    apply IH; [discriminate | exact Hv | exact H3 | reflexivity].
Qed.

(** The first_match match of a heading pattern takes exactly a text of its
    language, whatever follows. *)
Lemma heading_first n (ws : list jsstring) st h tl :
  ws <> [] -> forallb visible ws = true ->
  Lang (heading_regex n ws) h -> rest st = h ++ tl ->
  first_match (heading_regex n ws) st (after_word st h tl).
Proof.
  intros Hne Hv HL Hr. unfold heading_regex in *. cbn [Lang] in HL.
  destruct HL as (x0 & x12 & -> & (a & b & -> & -> & ->) & x1 & x2 & -> & H1 & H2).
  cbn [app] in Hr.
  eapply first_seq.
  { exists []. cbn [m]. rewrite Hr, N.eqb_refl. cbn [flat_map eat rest].
    rewrite N.eqb_refl. reflexivity. }
  eapply first_seq.
  { apply (spaces_first 0 x1 _ (x2 ++ tl)); [exact H1 | |].
    - cbn [eat rest]. rewrite <- app_assoc. reflexivity.
    - apply stops_at_word. apply (words_head ws); assumption. }
  match goal with
  | |- first_match _ ?s (after_word _ ?h _) =>
      replace (after_word st h tl) with (after_word s x2 tl)
  end.
  - apply words_first; [exact Hne | exact Hv | exact H2 | reflexivity].
  - unfold after_word. cbn [prev caps eat]. f_equal.
    unfold prev_after. cbn [app fold_left]. rewrite !fold_left_app.
    reflexivity.
Qed.

(** A match of a heading pattern begins with its digit and a period. *)
Lemma heading_lang_start n (ws : list jsstring) h :
  Lang (heading_regex n ws) h -> exists h', h = n :: 46 :: h'.
Proof.
  unfold heading_regex. cbn [Lang].
  intros (x0 & x12 & -> & (a & b & -> & -> & ->) & _). eexists. reflexivity.
Qed.

Lemma matches_whole_lang r h : matches_whole r h = true -> Lang r h.
Proof.
  unfold matches_whole. intros H. apply existsb_exists in H as (y & Hin & Hy).
  destruct (m_lang _ _ _ Hin) as (w & Hw & HL). cbn [rest] in Hw.
  destruct (rest y); [|discriminate]. rewrite app_nil_r in Hw. subst. exact HL.
Qed.

(** *** test *)

Lemma test_from_by_count q r : forall s p,
  (occ q s < min_count q r)%nat -> test_from r p s = false.
Proof.
  induction s as [|c t IH]; intros p Hlt.
  - cbn [test_from]. rewrite exec_none; [reflexivity|].
    apply (m_nil_by_count q). exact Hlt.
  - cbn [test_from]. rewrite exec_none.
    + apply IH. simpl in Hlt. lia.
    + apply (m_nil_by_count q). exact Hlt.
Qed.

Lemma test_first r s y : first_match r {| prev := None; rest := s; caps := [] |} y ->
  test r s = true.
Proof.
  intros [l E]. unfold test. destruct s; cbn [test_from]; unfold exec; rewrite E;
    reflexivity.
Qed.

(** *** split with a pattern *)

Lemma split_scan_skip r w : forall chunk p s,
  split_scan r (length w) chunk p (w ++ s) = split_scan r O chunk (prev_after p w) s.
Proof.
  induction w as [|c w IH]; intros chunk p s.
  - destruct s; reflexivity.
  - cbn [length app split_scan]. apply IH.
Qed.

Lemma split_scan_fail r chunk p c t :
  exec r p (c :: t) = None ->
  split_scan r O chunk p (c :: t) = split_scan r O (chunk ++ [c]) (Some c) t.
Proof. intros E. cbn [split_scan]. rewrite E. reflexivity. Qed.

Lemma split_scan_match r chunk p s y w :
  exec r p s = Some y ->
  s = w ++ rest y ->
  w <> [] ->
  split_scan r O chunk p s
  = Some chunk :: captures r y ++ split_scan r O [] (prev_after p w) (rest y).
Proof.
  intros He Hs Hw. destruct w as [|c w']; [congruence|].
  assert (Hn : (length s - length (rest y) = S (length w'))%nat).
  { rewrite Hs. cbn [app length]. rewrite length_app. lia. }
  destruct s as [|c0 t]; [discriminate|]. injection Hs as -> ->.
  cbn [split_scan]. rewrite He, Hn. rewrite split_scan_skip. reflexivity.
Qed.

Lemma split_scan_pass r tl : forall a chunk p,
  (forall a1 a2, a = a1 ++ a2 -> a2 <> [] ->
                 exec r (prev_after p a1) (a2 ++ tl) = None) ->
  split_scan r O chunk p (a ++ tl) = split_scan r O (chunk ++ a) (prev_after p a) tl.
Proof.
  induction a as [|c a IH]; intros chunk p Hf.
  - rewrite app_nil_r. reflexivity.
  - change ((c :: a) ++ tl) with (c :: (a ++ tl)).
    rewrite split_scan_fail.
    + rewrite IH.
      * rewrite <- app_assoc. reflexivity.
      * intros a1 a2 E Hne. apply (Hf (c :: a1) a2); [|exact Hne].
        rewrite E. reflexivity.
    + apply (Hf [] (c :: a)); [reflexivity | discriminate].
Qed.

End ReportFacts.

Section ReportTheorems.

Import JsString Report.

Implicit Types (s w h tl : jsstring) (st y : mstate).

Lemma pattern_shape k mp :
  sectionsMapping !! k = Some mp ->
  exists ws, pattern mp = heading_regex (heading_digit k) (map str ws)
             /\ map str ws <> [] /\ forallb visible (map str ws) = true.
Proof.
  intros H.
  assert (Hw : exists ws, heading_words !! k = Some ws).
  { do 6 (destruct k as [|k]; [eexists; reflexivity|]). discriminate. }
  destruct Hw as [ws Hw]. exists ws.
  do 6 (destruct k as [|k];
        [injection H as <-; injection Hw as <-;
         split; [reflexivity | split; [discriminate | reflexivity]] |]).
  discriminate.
Qed.

Lemma mapping_index k mp : sectionsMapping !! k = Some mp -> (k < 6)%nat.
Proof. intros H. apply lookup_lt_Some in H. exact H. Qed.

Lemma lang_alts : forall (rs : list regex) w,
  Lang (alts rs) w -> exists r, In r rs /\ Lang r w.
Proof.
  induction rs as [|r rs IH]; intros w HL.
  - cbn [alts Lang] in HL. destruct HL as (c & _ & Hc). discriminate.
  - destruct rs as [|r2 rs].
    + exists r. split; [left; reflexivity | exact HL].
    + change (alts (r :: r2 :: rs)) with (RAlt r (alts (r2 :: rs))) in HL.
      cbn [Lang] in HL. destruct HL as [H|H].
      * exists r. split; [left; reflexivity | exact H].
      * destruct (IH w H) as (r' & Hin & Hl). exists r'.
        split; [right; exact Hin | exact Hl].
Qed.

(** Every match of the split pattern begins with a marker. *)
Lemma headers_lang_start w : Lang headers_pattern w -> marker_at w = true.
Proof.
  unfold headers_pattern. cbn [Lang]. intros HL.
  destruct (lang_alts _ _ HL) as (r & Hin & Hr).
  apply in_map_iff in Hin as (mp & <- & Hmp).
  apply list_elem_of_In, list_elem_of_lookup in Hmp as [k Hk].
  destruct (pattern_shape k mp Hk) as (ws & E & _ & _). rewrite E in Hr.
  destruct (heading_lang_start _ _ _ Hr) as [h' ->].
  pose proof (mapping_index _ _ Hk) as Hlt.
  unfold marker_at, heading_digit, in_range. rewrite N.eqb_refl, andb_true_r.
  apply andb_true_iff. rewrite !N.leb_le. lia.
Qed.

Lemma exec_no_marker p s : marker_at s = false -> exec headers_pattern p s = None.
Proof.
  intros Hm. unfold exec.
  destruct (m headers_pattern {| prev := p; rest := s; caps := [] |}) as [|y l] eqn:E;
    [reflexivity|].
  exfalso.
  assert (Hin : In y (m headers_pattern {| prev := p; rest := s; caps := [] |})).
  { rewrite E. left. reflexivity. }
  destruct (m_lang _ _ _ Hin) as (w & Hw & HL). cbn [rest] in Hw.
  apply headers_lang_start in HL. subst s.
  destruct w as [|c [|d w]]; try discriminate.
  cbn [app marker_at] in Hm. cbn [marker_at] in HL. congruence.
Qed.

Lemma no_marker_suffix a tl a1 a2 :
  has_marker a = false ->
  match tl with
  | [] => True
  | d :: _ => (d =? 46) = false
  end ->
  a = a1 ++ a2 -> a2 <> [] -> marker_at (a2 ++ tl) = false.
Proof.
  intros Hm Htl -> Hne. induction a1 as [|c a1 IH].
  - destruct a2 as [|c a2]; [congruence|]. cbn [app has_marker] in Hm.
    apply orb_false_iff in Hm as [Hm _].
    destruct a2 as [|d a2].
    + cbn [app marker_at]. destruct tl as [|d tl]; [reflexivity|].
      rewrite Htl. apply andb_false_r.
    + exact Hm.
  - apply IH. cbn [app has_marker] in Hm. apply orb_false_iff in Hm as [_ Hm].
    exact Hm.
Qed.

Lemma first_alts st y : forall (rs : list regex) k r,
  rs !! k = Some r ->
  (forall j rj, (j < k)%nat -> rs !! j = Some rj -> m rj st = []) ->
  first_match r st y -> first_match (alts rs) st y.
Proof.
  induction rs as [|r0 rs IH]; intros k r Hk Hbefore Hf; [discriminate|].
  destruct k as [|k].
  - injection Hk as ->. destruct rs as [|r1 rs]; [exact Hf|].
    apply first_alt_l, Hf.
  - cbn [lookup list_lookup] in Hk.
    destruct rs as [|r1 rs]; [discriminate|].
    change (alts (r0 :: r1 :: rs)) with (RAlt r0 (alts (r1 :: rs))).
    apply first_alt_r.
    + apply (Hbefore O r0); [lia | reflexivity].
    + apply (IH k r Hk); [|exact Hf].
      intros j rj Hj Hrj. apply (Hbefore (S j) rj); [lia | exact Hrj].
Qed.

(** A pattern of another section cannot begin at the digit of this one,
    and does not use it at all. *)
Lemma other_digit j k mj :
  sectionsMapping !! j = Some mj -> j <> k -> (k < 6)%nat ->
  nullable (pattern mj) = false
  /\ firstc (pattern mj) (heading_digit k) = false
  /\ uses (pattern mj) (heading_digit k) = false.
Proof.
  intros Hj Hjk Hk.
  do 6 (destruct j as [|j];
        [injection Hj as <-;
         do 6 (destruct k as [|k];
               [first [congruence | vm_compute; repeat split] |]);
         lia |]).
  discriminate.
Qed.

Lemma own_digit k mk :
  sectionsMapping !! k = Some mk ->
  min_count (fun c => c =? heading_digit k) (pattern mk) = 1%nat.
Proof.
  intros Hk.
  do 6 (destruct k as [|k]; [injection Hk as <-; vm_compute; reflexivity|]).
  discriminate.
Qed.

Lemma headers_groups : ngroups headers_pattern = 1%nat.
Proof. vm_compute. reflexivity. Qed.

(** At a heading the split pattern matches, takes exactly the heading
    and captures it. *)
Lemma exec_heading k mp h tl p :
  sectionsMapping !! k = Some mp ->
  Lang (pattern mp) h ->
  exists y, exec headers_pattern p (h ++ tl) = Some y
            /\ rest y = tl /\ captures headers_pattern y = [Some h].
Proof.
  intros Hk HL.
  set (st := {| prev := p; rest := h ++ tl; caps := [] |}).
  destruct (pattern_shape k mp Hk) as (ws & E & Hne & Hv).
  assert (Hf : first_match (alts (map pattern sectionsMapping)) st (after_word st h tl)).
  { apply (first_alts st _ _ k (pattern mp)).
    - rewrite list_lookup_fmap, Hk. reflexivity.
    - intros j rj Hj Hrj. rewrite list_lookup_fmap in Hrj.
      destruct (sectionsMapping !! j) as [mj|] eqn:Ej; [|discriminate].
      injection Hrj as <-.
      destruct (other_digit j k mj Ej) as (Hn & Hc & _);
        [lia | exact (mapping_index _ _ Hk) |].
      apply m_nil_by_first; [exact Hn|]. cbn [st rest].
      rewrite E in HL. destruct (heading_lang_start _ _ _ HL) as [h' ->].
      exact Hc.
    - rewrite E in *. apply heading_first; try assumption. reflexivity. }
  destruct Hf as [l Hf]. unfold exec, headers_pattern. fold st. cbn [m].
  rewrite Hf. cbn [map head].
  eexists. split; [reflexivity|]. split; [reflexivity|].
  unfold captures. fold headers_pattern. rewrite headers_groups.
  cbn [seq map set_cap after_word caps find_cap Nat.eqb st rest].
  rewrite length_app, Nat.add_sub, take_app_length. reflexivity.
Qed.

Lemma heading_nonempty k mp h :
  sectionsMapping !! k = Some mp -> Lang (pattern mp) h ->
  exists h', h = heading_digit k :: 46 :: h'.
Proof.
  intros Hk HL. destruct (pattern_shape k mp Hk) as (ws & E & _).
  rewrite E in HL. exact (heading_lang_start _ _ _ HL).
Qed.

Lemma written_ok_inv (w : Written) :
  written_ok w = true ->
  exists mp, sectionsMapping !! heading w = Some mp
             /\ Lang (pattern mp) (heading_text w)
             /\ has_marker (body w) = false.
Proof.
  unfold written_ok. destruct (sectionsMapping !! heading w) as [mp|]; [|discriminate].
  intros H. apply andb_true_iff in H as [H1 H2]. exists mp.
  split; [reflexivity|]. split; [apply matches_whole_lang, H1|].
  apply negb_true_iff, H2.
Qed.

(** The split of a report: the text before the first heading, then the
    heading and the body of each section. *)
Lemma split_report : forall (ws : list Written) a chunk p,
  has_marker a = false ->
  forallb written_ok ws = true ->
  split_scan headers_pattern O chunk p (a ++ flat_map written_text ws)
  = Some (chunk ++ a) :: written_parts ws.
Proof.
  induction ws as [|w ws IH]; intros a chunk p Ha Hok.
  - cbn [flat_map written_parts]. rewrite split_scan_pass.
    + reflexivity.
    + intros a1 a2 E Hne. apply exec_no_marker.
      apply (no_marker_suffix a [] a1 a2); [exact Ha | exact I | exact E | exact Hne].
  - cbn [forallb] in Hok. apply andb_true_iff in Hok as [Hw Hok].
    destruct (written_ok_inv w Hw) as (mp & Hk & HL & Hb).
    destruct (heading_nonempty _ _ _ Hk HL) as [h' Eh].
    cbn [flat_map]. unfold written_text at 1. rewrite <- app_assoc.
    rewrite split_scan_pass.
    2:{ intros a1 a2 E Hne. apply exec_no_marker.
        apply (no_marker_suffix a _ a1 a2); [exact Ha | | exact E | exact Hne].
        rewrite Eh. cbn [app]. unfold heading_digit.
        apply N.eqb_neq. lia. }
    destruct (exec_heading _ _ _ (body w ++ flat_map written_text ws)
                (prev_after p a) Hk HL) as (y & Hy & Hr & Hc).
    rewrite (split_scan_match _ _ _ _ y (heading_text w) Hy).
    + rewrite Hc, Hr. cbn [app]. rewrite (IH (body w) [] _ Hb Hok).
      reflexivity.
    + rewrite Hr. reflexivity.
    + rewrite Eh. discriminate.
Qed.

Lemma find_at {A : Type} (f : A -> bool) : forall (l : list A) k x,
  l !! k = Some x -> f x = true ->
  (forall j b, (j < k)%nat -> l !! j = Some b -> f b = false) ->
  List.find f l = Some x.
Proof.
  induction l as [|a l IH]; intros k x Hk Hx Hbefore; [discriminate|].
  destruct k as [|k].
  - injection Hk as ->. cbn [List.find]. rewrite Hx. reflexivity.
  - cbn [List.find]. rewrite (Hbefore O a) by (lia || reflexivity).
    apply (IH k x Hk Hx). intros j b Hj Hb. apply (Hbefore (S j) b); [lia | exact Hb].
Qed.

(** The heading found by the split is given the label of its own
    pattern. *)
Lemma find_mapping k mp h :
  sectionsMapping !! k = Some mp ->
  Lang (pattern mp) h ->
  List.find (fun mj => test (pattern mj) h) sectionsMapping = Some mp.
Proof.
  intros Hk HL. apply (find_at _ _ k mp Hk).
  - destruct (pattern_shape k mp Hk) as (ws & E & Hne & Hv).
    apply (test_first _ _ (after_word {| prev := None; rest := h; caps := [] |} h [])).
    rewrite E in *. apply heading_first; try assumption.
    cbn [rest]. rewrite app_nil_r. reflexivity.
  - intros j mj Hj Hmj. unfold test.
    apply (test_from_by_count (fun c => c =? heading_digit j)).
    rewrite (own_digit j mj Hmj).
    assert (Hz : occ (fun c => c =? heading_digit j) h = O).
    { apply occ_none. eapply Forall_impl; [apply lang_uses, HL|].
      cbv beta. intros c Hc. destruct (c =? heading_digit j) eqn:Ec; [|reflexivity].
      apply N.eqb_eq in Ec. subst c.
      destruct (other_digit k j mp Hk) as (_ & _ & Hu);
        [lia | exact (mapping_index _ _ Hmj) |].
      congruence. }
    rewrite Hz. lia.
Qed.

Lemma section_of_written (w : Written) :
  written_ok w = true ->
  section_of (Some (heading_text w)) (Some (Some (body w))) = shown w.
Proof.
  intros Hw. destruct (written_ok_inv w Hw) as (mp & Hk & HL & _).
  unfold section_of, shown. cbn [to_string mjoin option_join fmap option_fmap option_map].
  rewrite (find_mapping _ _ _ Hk HL), Hk. reflexivity.
Qed.

Lemma sections_of_written : forall ws : list Written,
  forallb written_ok ws = true ->
  sections_from (written_parts ws) = flat_map shown ws.
Proof.
  induction ws as [|w ws IH]; intros Hok; [reflexivity|].
  cbn [forallb] in Hok. apply andb_true_iff in Hok as [Hw Hok].
  cbn [written_parts flat_map app sections_from].
  rewrite (section_of_written w Hw). f_equal. apply IH, Hok.
Qed.

(** X9: a report made of headings, each spelled in any way its pattern
    accepts (any case of the letters, any white space between the
    words), and of bodies without a digit 1..6 followed by a period is
    shown section by section: each body is trimmed and put under the
    label of its heading, in the order of the text.  A section whose body
    is blank is left out, and so is the text before the first heading. *)
Theorem X9_parseReport_of_sections (pre : jsstring) (ws : list Written) :
  ws <> [] ->
  has_marker pre = false ->
  forallb written_ok ws = true ->
  parseReport (pre ++ flat_map written_text ws) = flat_map shown ws.
Proof.
  intros Hne Hpre Hok. unfold parseReport.
  assert (Htext : exists c t, pre ++ flat_map written_text ws = c :: t).
  { destruct pre as [|c pre]; [|eauto]. destruct ws as [|w ws]; [congruence|].
    cbn [forallb] in Hok. apply andb_true_iff in Hok as [Hw _].
    destruct (written_ok_inv w Hw) as (mp & Hk & HL & _).
    destruct (heading_nonempty _ _ _ Hk HL) as [h' Eh].
    cbn [app flat_map]. unfold written_text. rewrite Eh. cbn [app]. eauto. }
  destruct Htext as (c & t & E).
  assert (Hsplit : split_regex headers_pattern (pre ++ flat_map written_text ws)
                   = Some pre :: written_parts ws).
  { rewrite E. cbn [split_regex]. rewrite <- E.
    apply (split_report ws pre [] None Hpre Hok). }
  rewrite Hsplit. rewrite E at 1. cbn [truthy negb].
  destruct ws as [|w ws]; [congruence|].
  cbn [written_parts flat_map app length Nat.ltb Nat.leb tl].
  apply (sections_of_written (w :: ws) Hok).
Qed.

Lemma X9_parseReport_of_sections_witness :
  parseReport
    (str "Report for group 42: 1. Executive Summary  The job failed. "
     ++ str "3.ERROR   flow & point of failure " ++ str "4. ROOT CAUSE ANALYSIS a null value")
  = [ {| parsed_label := str "EXECUTIVE SUMMARY"; content := str "The job failed." |};
      {| parsed_label := str "ROOT CAUSE ANALYSIS"; content := str "a null value" |} ].
Proof.
  apply (X9_parseReport_of_sections (str "Report for group 42: ")
           [ {| heading := 0; heading_text := str "1. Executive Summary";
                body := str "  The job failed. " |};
             {| heading := 2; heading_text := str "3.ERROR   flow & point of failure";
                body := str " " |};
             {| heading := 3; heading_text := str "4. ROOT CAUSE ANALYSIS";
                body := str " a null value" |} ]);
    [discriminate | vm_compute; reflexivity | vm_compute; reflexivity].
Defined.

(** X10: a text without a digit 1..6 followed by a period has no
    heading: it is shown whole, untrimmed, as one section labelled
    Analysis Summary. *)
Theorem X10_parseReport_without_marker (text : jsstring) :
  text <> [] ->
  has_marker text = false ->
  parseReport text = [summary_of text].
Proof.
  intros Hne Hm. unfold parseReport. destruct text as [|c t]; [congruence|].
  cbn [truthy negb split_regex].
  pose proof (split_report [] (c :: t) [] None Hm eq_refl) as E.
  cbn [flat_map written_parts] in E. rewrite app_nil_r in E.
  rewrite E. reflexivity.
Qed.

Lemma X10_parseReport_without_marker_witness :
  parseReport (str " The batch failed at step 7. Retry it. ")
  = [summary_of (str " The batch failed at step 7. Retry it. ")].
Proof.
  apply (X10_parseReport_without_marker (str " The batch failed at step 7. Retry it. "));
    [discriminate | vm_compute; reflexivity].
Defined.

Lemma section_of_sound header next sec :
  In sec (section_of header next) ->
  content sec <> []
  /\ In (parsed_label sec) (map label sectionsMapping)
  /\ trim (content sec) = content sec.
Proof.
  unfold section_of. cbv zeta.
  destruct (List.find (fun mj => test (pattern mj) (to_string header)) sectionsMapping)
    as [mp|] eqn:Ef; [|intros []].
  destruct (trim <$> mjoin next) as [[|c t]|] eqn:Et; [intros [] | | intros []].
  intros [<-|[]]. cbn [content parsed_label].
  split; [discriminate|]. split.
  - apply in_map. apply find_some in Ef. apply Ef.
  - destruct (mjoin next) as [b|]; [|discriminate].
    cbn in Et. injection Et as Et. rewrite <- Et. apply trim_idem.
Qed.

Lemma sections_from_sound : forall (n : nat) (l : list (option jsstring)) sec,
  (length l <= n)%nat ->
  In sec (sections_from l) ->
  content sec <> []
  /\ In (parsed_label sec) (map label sectionsMapping)
  /\ trim (content sec) = content sec.
Proof.
  induction n as [|n IH]; intros l sec Hlen Hin.
  - destruct l; [destruct Hin | simpl in Hlen; lia].
  - destruct l as [|h [|c l]].
    + destruct Hin.
    + exact (section_of_sound _ _ _ Hin).
    + cbn [sections_from] in Hin. apply in_app_or in Hin as [Hin|Hin].
      * exact (section_of_sound _ _ _ Hin).
      * apply (IH l sec); [simpl in Hlen; lia | exact Hin].
Qed.

(** X11: whatever the report, a section that is shown has a content that
    is not empty; it is either the whole text under Analysis Summary, or
    a trimmed text under one of the six labels. *)
Theorem X11_parseReport_sound (text : jsstring) (sec : Parsed) :
  In sec (parseReport text) ->
  content sec <> []
  /\ (sec = summary_of text
      \/ In (parsed_label sec) (map label sectionsMapping)
         /\ trim (content sec) = content sec).
Proof.
  unfold parseReport. destruct text as [|c t]; [intros []|].
  cbn [truthy negb].
  destruct (Nat.ltb 1 (length (split_regex headers_pattern (c :: t)))).
  - intros Hin.
    destruct (sections_from_sound _ _ sec (Nat.le_refl _) Hin) as (H1 & H2 & H3).
    split; [exact H1|]. right. split; assumption.
  - intros [<-|[]]. split; [discriminate|]. left. reflexivity.
Qed.

Lemma X11_parseReport_sound_witness :
  let text := str "2. severity assessment  high  6. Step-by-step resolution" in
  let sec := {| parsed_label := str "SEVERITY ASSESSMENT"; content := str "high" |} in
  In sec (parseReport text) /\ content sec <> [].
Proof.
  split; [vm_compute; left; reflexivity|].
  apply (X11_parseReport_sound
           (str "2. severity assessment  high  6. Step-by-step resolution")
           {| parsed_label := str "SEVERITY ASSESSMENT"; content := str "high" |}).
  vm_compute. left. reflexivity.
Defined.

End ReportTheorems.

(** * API configuration *)

Section ApiFacts.

Import JsString Api.

Variable env : js_arg.

(** X13: the URL of a group determines the document, and is never the
    URL of a diagnosis request. *)
Theorem X13_document_urls_distinct (a b : jsstring) :
  (LOG_GROUP env a = LOG_GROUP env b -> a = b)
  /\ LOG_GROUP env a <> DIAGNOSE_SINGLE env b.
Proof.
  change (LOG_GROUP env a) with (API_URL env ++ str "/" ++ str "api/logs/group/" ++ a).
  change (LOG_GROUP env b) with (API_URL env ++ str "/" ++ str "api/logs/group/" ++ b).
  change (DIAGNOSE_SINGLE env b)
    with (API_URL env ++ str "/" ++ str "api/analysis/diagnose/" ++ b).
  split; intros E; do 2 apply app_inv_head in E.
  - apply app_inv_head in E. exact E.
  - discriminate E.
Qed.

End ApiFacts.

(** * The grouping studio *)

Section StudioFacts.

Import JsString Studio.

Implicit Types (S : list jsstring) (F rows : list LogGroup) (item : LogGroup)
  (id : jsstring).

Lemma includes_id_true S id : includes_id S id = true <-> In id S.
Proof.
  unfold includes_id. rewrite bool_decide_eq_true. apply list_elem_of_In.
Qed.

Lemma includes_id_false S id : includes_id S id = false <-> ~ In id S.
Proof.
  unfold includes_id. rewrite bool_decide_eq_false, list_elem_of_In. reflexivity.
Qed.

Lemma same_true (a b : jsstring) : same a b = true <-> a = b.
Proof. unfold same. apply bool_decide_eq_true. Qed.

Lemma includes_id_ext S S' id :
  (In id S <-> In id S') -> includes_id S id = includes_id S' id.
Proof.
  intros H. destruct (includes_id S' id) eqn:E.
  - apply includes_id_true, H, includes_id_true, E.
  - apply includes_id_false. rewrite H. apply includes_id_false, E.
Qed.

(** X14: a click on the box of a row toggles that row and no other:
    afterwards the row is selected exactly if it was not, and every
    other identifier is selected exactly if it was. *)
Theorem X14_click_row_toggles S item id :
  includes_id (click_row S item) id
  = if same id (doc_id item) then negb (includes_id S id) else includes_id S id.
Proof.
  unfold click_row, handleSelectOne, row_checked.
  destruct (same id (doc_id item)) eqn:Es.
  - apply same_true in Es. subst id.
    destruct (includes_id S (doc_id item)) eqn:E; cbn [negb].
    + apply includes_id_false. rewrite filter_In. intros [_ H].
      apply negb_true_iff in H. unfold same in H.
      rewrite bool_decide_eq_false in H. congruence.
    + apply includes_id_true, in_or_app. right. left. reflexivity.
  - assert (Hne : id <> doc_id item).
    { intros ->. unfold same in Es. rewrite bool_decide_eq_false in Es. congruence. }
    destruct (includes_id S (doc_id item)) eqn:E; cbn [negb];
      apply includes_id_ext.
    + rewrite filter_In. split; [intros [H _]; exact H|].
      intros H. split; [exact H|]. apply negb_true_iff. unfold same.
      apply bool_decide_eq_false. exact Hne.
    + rewrite in_app_iff. split; [|auto].
      intros [H|[H|[]]]; [exact H | congruence].
Qed.

Lemma NoDup_map_filter (f : LogGroup -> bool) rows :
  NoDup (ids rows) -> NoDup (ids (List.filter f rows)).
Proof.
  unfold ids. induction rows as [|r rows IH]; intros H; [constructor|].
  cbn [map] in H. apply NoDup_cons in H as [Hr H].
  cbn [List.filter]. destruct (f r); [|apply IH, H].
  cbn [map]. apply NoDup_cons. split; [|apply IH, H].
  rewrite list_elem_of_In in *. intros Hin. apply Hr.
  apply in_map_iff in Hin as (x & Ex & Hx). apply filter_In in Hx as [Hx _].
  apply in_map_iff. exists x. split; assumption.
Qed.

Lemma filter_map_stable {A : Type} (f : A -> bool) (g : A -> A) (l : list A) :
  (forall d, f (g d) = f d) ->
  List.filter f (map g l) = map g (List.filter f l).
Proof.
  intros H. induction l as [|d l IH]; [reflexivity|].
  cbn [map List.filter]. rewrite H, IH. destruct (f d); reflexivity.
Qed.

Lemma ids_change_status rows item newStatus :
  ids (change_status rows item newStatus) = ids rows.
Proof.
  unfold ids, change_status. rewrite map_map. apply map_ext.
  intros d. destruct (same (doc_id d) (doc_id item)); reflexivity.
Qed.

Section Component.

Variable toLowerCase : jsstring -> jsstring.

Lemma search_In q rows item :
  In item (search toLowerCase q rows) -> In item rows.
Proof.
  unfold search. destruct (nonempty q); [|trivial].
  intros H. apply filter_In in H as [H _]. exact H.
Qed.

Lemma search_NoDup q rows :
  NoDup (ids rows) -> NoDup (ids (search toLowerCase q rows)).
Proof.
  unfold search. destruct (nonempty q); [|trivial]. apply NoDup_map_filter.
Qed.

Lemma step_consistent (st : State) (e : Event) :
  is_load e = false -> consistent st -> consistent (step toLowerCase st e).
Proof.
  intros He (Hd & Hs & Hsub).
  destruct e as [rows | q | i | | i newStatus |]; cbn [step].
  - discriminate He.
  - exact (conj Hd (conj Hs Hsub)).
  - destruct (filteredData toLowerCase st !! i) as [item|] eqn:Ei;
      [|exact (conj Hd (conj Hs Hsub))].
    assert (Hitem : In (doc_id item) (ids (data st))).
    { apply in_map. apply (search_In (searchQuery st)).
      apply list_elem_of_In, list_elem_of_lookup. exists i. exact Ei. }
    unfold consistent. cbn [data selectedIds]. split; [exact Hd|].
    unfold click_row, handleSelectOne, row_checked.
    destruct (includes_id (selectedIds st) (doc_id item)) eqn:E; cbn [negb].
    + split.
      * apply NoDup_ListNoDup, List.NoDup_filter, NoDup_ListNoDup, Hs.
      * intros id Hin. apply filter_In in Hin as [Hin _]. apply Hsub, Hin.
    + apply includes_id_false in E. split.
      * apply NoDup_app. split; [exact Hs|]. split; [|apply NoDup_singleton].
        intros x Hx Hx'. apply list_elem_of_In in Hx.
        apply list_elem_of_singleton in Hx'. subst x. exact (E Hx).
      * intros id Hin. apply in_app_or in Hin as [Hin|[<-|[]]];
          [apply Hsub, Hin | exact Hitem].
  - unfold consistent. cbn [data selectedIds]. split; [exact Hd|].
    unfold click_header, handleSelectAll.
    destruct (negb (header_checked (selectedIds st) (filteredData toLowerCase st))).
    + split.
      * apply (search_NoDup (searchQuery st)), Hd.
      * intros id Hin. apply in_map_iff in Hin as (x & <- & Hx).
        apply in_map, (search_In (searchQuery st)), Hx.
    + split; [constructor | intros id []].
  - destruct (filteredData toLowerCase st !! i) as [item|];
      [|exact (conj Hd (conj Hs Hsub))].
    unfold consistent. cbn [data selectedIds]. rewrite ids_change_status.
    exact (conj Hd (conj Hs Hsub)).
  - unfold consistent. cbn [data selectedIds].
    split; [exact Hd|]. split; [constructor | intros id []].
Qed.

Lemma run_consistent (events : list Event) : forall st : State,
  forallb (fun e => negb (is_load e)) events = true ->
  consistent st -> consistent (run toLowerCase st events).
Proof.
  unfold run. induction events as [|e events IH]; intros st He H; [exact H|].
  cbn [forallb] in He. apply andb_true_iff in He as [He Hes].
  cbn [fold_left]. apply (IH _ Hes), step_consistent; [|exact H].
  apply negb_true_iff, He.
Qed.

Lemma selected_count rows S :
  NoDup (ids rows) -> NoDup S -> (forall id, In id S -> In id (ids rows)) ->
  length (selectedItems rows S) = length S.
Proof.
  intros Hd Hs Hsub. unfold selectedItems.
  rewrite <- (length_map doc_id).
  apply Permutation_length, NoDup_Permutation.
  - apply (NoDup_map_filter _ rows Hd).
  - exact Hs.
  - intros id. rewrite !list_elem_of_In. split.
    + intros H. apply in_map_iff in H as (x & <- & Hx).
      apply filter_In in Hx as [_ Hx]. apply includes_id_true, Hx.
    + intros H. destruct (proj1 (in_map_iff _ _ _) (Hsub id H)) as (x & <- & Hx).
      apply in_map, filter_In. split; [exact Hx|]. apply includes_id_true, H.
Qed.

(** X15: between two loads of the table, whatever the operator does
    (typing in the search box, clicking boxes of rows or the box of the
    header, changing a status, saving a rule), the counter of selected
    items equals the number of rows that generatePattern takes as
    examples, provided the rows loaded have distinct identifiers. *)
Theorem X15_selection_counter (rows : list LogGroup) (events : list Event) :
  NoDup (ids rows) ->
  forallb (fun e => negb (is_load e)) events = true ->
  let st := run toLowerCase (loaded rows) events in
  length (selectedIds st) = length (examples (data st) (selectedIds st)).
Proof.
  intros Hd Hev st.
  destruct (run_consistent events (loaded rows) Hev) as (H1 & H2 & H3).
  { unfold consistent, loaded. cbn [data selectedIds].
    split; [exact Hd|]. split; [constructor | intros id []]. }
  unfold examples. rewrite length_map. symmetry.
  apply selected_count; assumption.
Qed.

(** X16: changing the status of a row never changes which rows the
    search shows: the rows found are the same rows, with the new status. *)
Theorem X16_search_after_status_change (q : jsstring) rows item (newStatus : jsstring) :
  search toLowerCase q (change_status rows item newStatus)
  = change_status (search toLowerCase q rows) item newStatus.
Proof.
  unfold search. destruct (nonempty q); [|reflexivity].
  unfold change_status. apply filter_map_stable. intros d.
  destruct (same (doc_id d) (doc_id item)); reflexivity.
Qed.

End Component.

(** X17: with no identifier selected twice and all of them among the
    rows shown, the box of the header is checked exactly when the box of
    every row shown is. *)
Theorem X17_header_box_means_all S F :
  NoDup S -> NoDup (ids F) -> (forall id, In id S -> In id (ids F)) -> F <> [] ->
  header_checked S F = true <-> (forall item, In item F -> row_checked S item = true).
Proof.
  intros Hs Hf Hsub Hne. unfold header_checked, row_checked.
  assert (Hpos : Nat.ltb 0 (length F) = true).
  { destruct F; [congruence|]. reflexivity. }
  rewrite Hpos, andb_true_r, Nat.eqb_eq. split.
  - intros Hlen item Hin. apply includes_id_true.
    apply (NoDup_length_incl (l := S) (l' := ids F)).
    + apply NoDup_ListNoDup, Hs.
    + unfold ids. rewrite length_map. lia.
    + exact Hsub.
    + apply in_map, Hin.
  - intros Hall. rewrite <- (length_map doc_id F).
    apply Permutation_length, NoDup_Permutation; [exact Hs | exact Hf |].
    intros id. rewrite !list_elem_of_In. split; [apply Hsub|].
    intros H. apply in_map_iff in H as (x & <- & Hx).
    apply includes_id_true, Hall, Hx.
Qed.

(** X18: a status change keeps the identifiers of the rows; of two
    changes of the same row the later one counts; changes of rows with
    different identifiers can be made in either order. *)
Theorem X18_change_status_composes rows (i1 i2 : LogGroup) (s1 s2 : jsstring) :
  ids (change_status rows i1 s1) = ids rows
  /\ change_status (change_status rows i1 s1) i1 s2 = change_status rows i1 s2
  /\ (doc_id i1 <> doc_id i2 ->
      change_status (change_status rows i1 s1) i2 s2
      = change_status (change_status rows i2 s2) i1 s1).
Proof.
  split; [apply ids_change_status|]. unfold change_status. split.
  - rewrite map_map. apply map_ext. intros d.
    destruct (same (doc_id d) (doc_id i1)) eqn:E.
    + cbn [with_status doc_id]. rewrite E. reflexivity.
    + rewrite E. reflexivity.
  - intros Hne. rewrite !map_map. apply map_ext. intros d.
    destruct (same (doc_id d) (doc_id i1)) eqn:E1;
      destruct (same (doc_id d) (doc_id i2)) eqn:E2;
      cbn [with_status doc_id]; rewrite ?E1, ?E2; try reflexivity.
    apply same_true in E1, E2. congruence.
Qed.

End StudioFacts.

Lemma X15_selection_counter_witness :
  let events :=
    [ Studio.RowClicked 1; Studio.Typed (str "null"); Studio.HeaderClicked;
      Studio.Typed []; Studio.RowClicked 0; Studio.StatusChanged 2 (str "RESOLVED");
      Studio.RowClicked 1 ] in
  let st := Studio.run ascii_lower (loaded sample_rows) events in
  Studio.selectedIds st = [str "g1"; str "g2"]
  /\ length (Studio.selectedIds st)
     = length (Studio.examples (Studio.data st) (Studio.selectedIds st)).
Proof.
  split; [vm_compute; reflexivity|].
  apply (X15_selection_counter ascii_lower sample_rows
           [ Studio.RowClicked 1; Studio.Typed (str "null"); Studio.HeaderClicked;
             Studio.Typed []; Studio.RowClicked 0;
             Studio.StatusChanged 2 (str "RESOLVED"); Studio.RowClicked 1 ]).
  - apply (bool_decide_unpack _). vm_compute. exact I.
  - reflexivity.
Defined.

Lemma X17_header_box_means_all_witness :
  Studio.header_checked (ids sample_rows) sample_rows = true
  <-> (forall item, In item sample_rows ->
                    Studio.row_checked (ids sample_rows) item = true).
Proof.
  apply (X17_header_box_means_all (ids sample_rows) sample_rows).
  - apply (bool_decide_unpack _). vm_compute. exact I.
  - apply (bool_decide_unpack _). vm_compute. exact I.
  - intros id H. exact H.
  - discriminate.
Defined.

(** * The dashboard *)

Section DashboardFacts.

Import JsString Dashboard.

Lemma sort_insert_pinned (pinned : list string) (x : Column) (P Q : list Column) :
  Forall (fun c => is_pinned pinned c = true) P ->
  Forall (fun c => is_pinned pinned c = false) Q ->
  sort_insert (pinned_first pinned) x (P ++ Q)
  = if is_pinned pinned x then x :: P ++ Q else P ++ x :: Q.
Proof.
  intros HP HQ. unfold is_pinned in *.
  destruct (has pinned (key x)) eqn:Ex.
  - destruct P as [|p P].
    + destruct Q as [|q Q]; [reflexivity|]. inversion HQ as [|? ? Hq _]; subst.
      cbn [app sort_insert]. unfold pinned_first. rewrite Ex, Hq. reflexivity.
    + inversion HP as [|? ? Hp _]; subst.
      cbn [app sort_insert]. unfold pinned_first. rewrite Ex, Hp. reflexivity.
  - induction HP as [|p P Hp _ IH].
    + destruct Q as [|q Q]; [reflexivity|]. inversion HQ as [|? ? Hq _]; subst.
      cbn [app sort_insert]. unfold pinned_first. rewrite Ex, Hq. reflexivity.
    + cbn [app sort_insert]. unfold pinned_first at 1. rewrite Ex, Hp.
      cbn [andb negb Z.ltb Z.compare]. rewrite IH. reflexivity.
Qed.

Lemma sort_pinned (pinned : list string) : forall l : list Column,
  sort (pinned_first pinned) l
  = List.filter (is_pinned pinned) l
    ++ List.filter (fun c => negb (is_pinned pinned c)) l.
Proof.
  induction l as [|x l IH]; [reflexivity|].
  unfold sort in *. cbn [foldr]. rewrite IH.
  rewrite sort_insert_pinned.
  - cbn [List.filter]. destruct (is_pinned pinned x); reflexivity.
  - apply List.Forall_forall. intros c Hc. apply filter_In in Hc as [_ Hc]. exact Hc.
  - apply List.Forall_forall. intros c Hc. apply filter_In in Hc as [_ Hc].
    apply negb_true_iff, Hc.
Qed.

(** X19: the columns shown are the columns that are not hidden: first
    the pinned ones, then the others, each group in the order of
    COLUMN_DEFS. *)
Theorem X19_visibleColumns_pinned_first (hidden pinned : list string) :
  let shown := List.filter (fun c => negb (is_hidden hidden c)) COLUMN_DEFS in
  visibleColumns hidden pinned
  = List.filter (is_pinned pinned) shown
    ++ List.filter (fun c => negb (is_pinned pinned c)) shown.
Proof. intros shown. unfold visibleColumns. apply sort_pinned. Qed.

(** X20: after a click on a column head the table is sorted by that
    column; clicks on the same head alternate between the two orders,
    the first click on a new head giving the descending one. *)
Theorem X20_handleSort_cycle (st : Sorting) (k : string) :
  sortBy (handleSort st k) = k
  /\ handleSort (handleSort (handleSort st k) k) k = handleSort st k
  /\ sortOrder (handleSort (handleSort st k) k) <> sortOrder (handleSort st k)
  /\ (sortBy st <> k -> sortOrder (handleSort st k) = desc).
Proof.
  unfold handleSort. destruct (String.eqb (sortBy st) k) eqn:E; cbn [sortBy sortOrder].
  - apply String.eqb_eq in E. rewrite E, String.eqb_refl. cbn [sortBy sortOrder].
    rewrite String.eqb_refl. cbn [sortBy sortOrder].
    destruct (sortOrder st); repeat split; try discriminate; congruence.
  - rewrite String.eqb_refl. cbn [sortBy sortOrder]. rewrite String.eqb_refl.
    repeat split; discriminate.
Qed.

End DashboardFacts.
